(** * nngeometry.ispace.l2loss: the example-space instrumentation engine

    A shallow embedding of [src/nngeometry/ispace/l2loss.py] (class [L2Loss])
    and the properties of it that the specification states.

    Conventions of the embedding.
    - Tensor entries are elements of an arbitrary type [R] with the operations
      of the class [Scalar]; no algebraic law is assumed unless a lemma says
      so, hence every generic statement also covers rounding arithmetic.
    - A tensor is its shape together with its entry function; slicing clips
      to the shape as Python does, shape mismatches raise [RuntimeError] and
      size-1 dimensions broadcast as in torch.
    - Python objects are identified by a number ([mod_id], [p_id], handle id).
    - Methods of [L2Loss] are computations in the monad [M]: they read and
      write the object and may raise; a raise keeps the mutations made so far.
    - The forward and backward evaluation of the loss closure is seen only
      through the hooks it fires; a [batch] carries which modules the
      closure applies on it and what the hooks of each of them receive. The
      hooks of a module that the closure does not apply do not fire. A module
      that is applied is applied once, the modules being applied in
      traversal order, as a feed-forward model does. *)

From stdpp Require Import gmap strings list.

Local Open Scope nat_scope.

(** ** Scalars and tensors *)

Class Scalar (R : Type) := {
  rzero : R;
  radd : R → R → R;
  rmul : R → R → R;
  rsqrt : R → R
}.

Record matrix (R : Type) := mk_matrix {
  nrows : nat;
  ncols : nat;
  entry : nat → nat → R
}.
Arguments mk_matrix {R} _ _ _.
Arguments nrows {R} _.
Arguments ncols {R} _.
Arguments entry {R} _ _ _.

Record vector (R : Type) := mk_vector {
  vlen : nat;
  vat : nat → R
}.
Arguments mk_vector {R} _ _.
Arguments vlen {R} _.
Arguments vat {R} _ _.

Inductive exn :=
| AssertionError
| NotImplementedError
| RuntimeError
| KeyError
| AttributeError
| StopIteration.

Inductive outcome (A : Type) :=
| Ok (a : A)
| Raise (e : exn).
Arguments Ok {A} _.
Arguments Raise {A} _.

#[global] Instance exn_eq_dec : EqDecision exn.
Proof. solve_decision. Defined.

#[global] Instance outcome_fmap : FMap outcome :=
  λ A B f o, match o with
             | Ok a => Ok (f a)
             | Raise e => Raise e
             end.

Section Tensors.
Context {R : Type} `{!Scalar R}.

(** [torch.zeros((n, m))] and [torch.zeros((n,))]. *)
Definition zeros2 (n m : nat) : matrix R := mk_matrix n m (λ _ _, rzero).
Definition zeros1 (n : nat) : vector R := mk_vector n (λ _, rzero).

(** Sum of [f k * g k] for [k = 0 .. n-1], accumulated from the left. *)
Definition dot (n : nat) (f g : nat → R) : R :=
  foldl (λ acc k, radd acc (rmul (f k) (g k))) rzero (seq 0 n).

(** [A.t()] *)
Definition transpose (A : matrix R) : matrix R :=
  mk_matrix (ncols A) (nrows A) (λ i j, entry A j i).

(** [torch.mm(A, B)] *)
Definition mm (A B : matrix R) : outcome (matrix R) :=
  if ncols A =? nrows B
  then Ok (mk_matrix (nrows A) (ncols B)
             (λ i j, dot (ncols A) (λ k, entry A i k) (λ k, entry B k j)))
  else Raise RuntimeError.

(** [torch.mv(A, v)] *)
Definition mv (A : matrix R) (v : vector R) : outcome (vector R) :=
  if ncols A =? vlen v
  then Ok (mk_vector (nrows A) (λ i, dot (ncols A) (λ k, entry A i k) (vat v)))
  else Raise RuntimeError.

(** Broadcasting of one dimension of two operands. *)
Definition broadcast_dim (m n : nat) : option nat :=
  if m =? n then Some m
  else if m =? 1 then Some n
  else if n =? 1 then Some m
  else None.

(** Index into an operand of extent [have] that may be broadcast. *)
Definition bidx (have i : nat) : nat := if have =? 1 then 0 else i.

(** [A * B], elementwise with broadcasting. *)
Definition mul (A B : matrix R) : outcome (matrix R) :=
  match broadcast_dim (nrows A) (nrows B), broadcast_dim (ncols A) (ncols B) with
  | Some r, Some c =>
      Ok (mk_matrix r c
            (λ i j, rmul (entry A (bidx (nrows A) i) (bidx (ncols A) j))
                         (entry B (bidx (nrows B) i) (bidx (ncols B) j))))
  | _, _ => Raise RuntimeError
  end.

(** [v.view(-1, 1)] *)
Definition view_col (v : vector R) : matrix R :=
  mk_matrix (vlen v) 1 (λ i _, vat v i).

(** [A.view(-1)], row-major. *)
Definition view_flat (A : matrix R) : vector R :=
  mk_vector (nrows A * ncols A)
    (λ k, entry A (k / ncols A) (k mod ncols A)).

(** [v[a:b]] *)
Definition vslice (v : vector R) (a b : nat) : vector R :=
  mk_vector (b `min` vlen v - a `min` vlen v) (λ j, vat v (a `min` vlen v + j)).

(** [A[r0:r1, c0:c1]] *)
Definition slice2 (A : matrix R) (r0 r1 c0 c1 : nat) : matrix R :=
  mk_matrix (r1 `min` nrows A - r0 `min` nrows A)
            (c1 `min` ncols A - c0 `min` ncols A)
            (λ i j, entry A (r0 `min` nrows A + i) (c0 `min` ncols A + j)).

(** An operand of extent [have] can be added in place to a slice of extent
    [want]. *)
Definition fits (have want : nat) : bool := (have =? want) || (have =? 1).

(** [A[r0:r1, c0:c1] += V]; the right-hand side [V] is a value read before
    the block is written. *)
Definition iadd_block (A : matrix R) (r0 r1 c0 c1 : nat) (V : matrix R)
  : outcome (matrix R) :=
  let rs := r0 `min` nrows A in
  let re := r1 `min` nrows A in
  let cs := c0 `min` ncols A in
  let ce := c1 `min` ncols A in
  if fits (nrows V) (re - rs) && fits (ncols V) (ce - cs)
  then Ok (mk_matrix (nrows A) (ncols A)
             (λ r c,
                if (rs <=? r) && (r <? re) && (cs <=? c) && (c <? ce)
                then radd (entry A r c)
                          (entry V (bidx (nrows V) (r - rs)) (bidx (ncols V) (c - cs)))
                else entry A r c))
  else Raise RuntimeError.

(** [out[a:b] += w] *)
Definition iadd_vslice (out : vector R) (a b : nat) (w : vector R)
  : outcome (vector R) :=
  let s := a `min` vlen out in
  let e := b `min` vlen out in
  if fits (vlen w) (e - s)
  then Ok (mk_vector (vlen out)
             (λ k, if (s <=? k) && (k <? e)
                   then radd (vat out k) (vat w (bidx (vlen w) (k - s)))
                   else vat out k))
  else Raise RuntimeError.

(** [(v**2).sum()**.5] *)
Definition norm2 (v : vector R) : R :=
  rsqrt (foldl (λ acc k, radd acc (rmul (vat v k) (vat v k))) rzero (seq 0 (vlen v))).

(** The entries of a tensor as nested lists, for display. *)
Definition to_lists (A : matrix R) : list (list R) :=
  (λ i, entry A i <$> seq 0 (ncols A)) <$> seq 0 (nrows A).
Definition to_list (v : vector R) : list R := vat v <$> seq 0 (vlen v).
End Tensors.

(** ** The model, the data loader and the [L2Loss] object *)

(** A [torch.nn.Parameter]: identity, [size()] and [requires_grad]. *)
Record parameter := mk_parameter {
  p_id : nat;
  p_size : list nat;
  requires_grad : bool
}.

#[global] Instance parameter_eq_dec : EqDecision parameter.
Proof. solve_decision. Defined.

(** [p.numel()] *)
Definition numel (p : parameter) : nat := foldr Nat.mul 1 (p_size p).

(** One entry of [model.modules()]: identity, [__class__.__name__], the
    attributes [weight] and [bias] ([None] when absent) and the parameters the
    module registers besides them. *)
Record nn_module := mk_module {
  mod_id : nat;
  mod_class : string;
  weight : option parameter;
  bias : option parameter;
  other_parameters : list parameter
}.

#[global] Instance nn_module_eq_dec : EqDecision nn_module.
Proof. solve_decision. Defined.

(** The parameters a module owns itself, in registration order. *)
Definition own_parameters (m : nn_module) : list parameter :=
  option_list (weight m) ++ option_list (bias m) ++ other_parameters m.

Inductive hook_fn :=
| H_savex_io
| H_savex
| H_compute_flat_grad
| H_compute_m_norm.

Inductive hook_point := forward_pre | backward.

#[global] Instance hook_point_eq_dec : EqDecision hook_point.
Proof. solve_decision. Defined.
#[global] Instance hook_fn_eq_dec : EqDecision hook_fn.
Proof. solve_decision. Defined.

(** A registered hook: the id of its [RemovableHandle], the module whose hook
    table holds it, the interception point and the bound method. *)
Record hook_entry := mk_hook {
  h_id : nat;
  h_mod : nat;
  h_point : hook_point;
  h_fn : hook_fn
}.

(** The model: its modules in traversal order, the hook tables of its modules
    (in registration order) and the counter handle ids are drawn from. *)
Record nn_model := mk_model {
  modules : list nn_module;
  hooks_table : list hook_entry;
  next_handle_id : nat
}.

(** [model.parameters()]: the modules' own parameters in traversal order, each
    object once. *)
Fixpoint named_members (ps : list parameter) (memo : gset nat) : list parameter :=
  match ps with
  | [] => []
  | p :: ps' =>
      if bool_decide (p_id p ∈ memo) then named_members ps' memo
      else p :: named_members ps' ({[p_id p]} ∪ memo)
  end.

Definition parameters (m : nn_model) : list parameter :=
  named_members (flat_map own_parameters (modules m)) ∅.

Section Engine.
Context {R : Type} `{!Scalar R}.

(** A batch of the data loader, with what evaluating the loss closure on it
    and differentiating shows to the hooks: whether the closure applies the
    module with a given id, and for a module it applies the input [i[0]]
    and the output gradient [grad_output[0]]. *)
Record batch := mk_batch {
  inputs_size0 : nat;
  targets_size0 : nat;
  applied : nat → bool;
  layer_input : nat → matrix R;
  layer_grad_output : nat → matrix R
}.

(** The data loader: the batches of one traversal, [batch_size] and
    [len(sampler)]. *)
Record data_loader := mk_loader {
  batches : list batch;
  batch_size : nat;
  sampler_len : nat
}.

(** The attributes of an [L2Loss] object; an attribute that is not set is
    [None]. *)
Record L2Loss := mk_L2Loss {
  model : nn_model;
  dataloader : data_loader;
  handles : list nat;
  x_outer : gmap nat (matrix R);
  x_inner : gmap nat (matrix R);
  xs : gmap nat (matrix R);
  gy_outer : gmap nat (matrix R);
  p_pos : gmap nat nat;
  mods : list nn_module;
  G : option (matrix R);
  e_outer : option nat;
  e_inner : option nat;
  outerloop_switch : option bool;
  _cTv : option (vector R);
  _c : option (vector R)
}.

Definition set_model v s := mk_L2Loss v (dataloader s) (handles s) (x_outer s) (x_inner s) (xs s) (gy_outer s) (p_pos s) (mods s) (G s) (e_outer s) (e_inner s) (outerloop_switch s) (_cTv s) (_c s).
Definition set_handles v s := mk_L2Loss (model s) (dataloader s) v (x_outer s) (x_inner s) (xs s) (gy_outer s) (p_pos s) (mods s) (G s) (e_outer s) (e_inner s) (outerloop_switch s) (_cTv s) (_c s).
Definition set_x_outer v s := mk_L2Loss (model s) (dataloader s) (handles s) v (x_inner s) (xs s) (gy_outer s) (p_pos s) (mods s) (G s) (e_outer s) (e_inner s) (outerloop_switch s) (_cTv s) (_c s).
Definition set_x_inner v s := mk_L2Loss (model s) (dataloader s) (handles s) (x_outer s) v (xs s) (gy_outer s) (p_pos s) (mods s) (G s) (e_outer s) (e_inner s) (outerloop_switch s) (_cTv s) (_c s).
Definition set_xs v s := mk_L2Loss (model s) (dataloader s) (handles s) (x_outer s) (x_inner s) v (gy_outer s) (p_pos s) (mods s) (G s) (e_outer s) (e_inner s) (outerloop_switch s) (_cTv s) (_c s).
Definition set_gy_outer v s := mk_L2Loss (model s) (dataloader s) (handles s) (x_outer s) (x_inner s) (xs s) v (p_pos s) (mods s) (G s) (e_outer s) (e_inner s) (outerloop_switch s) (_cTv s) (_c s).
Definition set_p_pos v s := mk_L2Loss (model s) (dataloader s) (handles s) (x_outer s) (x_inner s) (xs s) (gy_outer s) v (mods s) (G s) (e_outer s) (e_inner s) (outerloop_switch s) (_cTv s) (_c s).
Definition set_mods v s := mk_L2Loss (model s) (dataloader s) (handles s) (x_outer s) (x_inner s) (xs s) (gy_outer s) (p_pos s) v (G s) (e_outer s) (e_inner s) (outerloop_switch s) (_cTv s) (_c s).
Definition set_G v s := mk_L2Loss (model s) (dataloader s) (handles s) (x_outer s) (x_inner s) (xs s) (gy_outer s) (p_pos s) (mods s) v (e_outer s) (e_inner s) (outerloop_switch s) (_cTv s) (_c s).
Definition set_e_outer v s := mk_L2Loss (model s) (dataloader s) (handles s) (x_outer s) (x_inner s) (xs s) (gy_outer s) (p_pos s) (mods s) (G s) v (e_inner s) (outerloop_switch s) (_cTv s) (_c s).
Definition set_e_inner v s := mk_L2Loss (model s) (dataloader s) (handles s) (x_outer s) (x_inner s) (xs s) (gy_outer s) (p_pos s) (mods s) (G s) (e_outer s) v (outerloop_switch s) (_cTv s) (_c s).
Definition set_outerloop_switch v s := mk_L2Loss (model s) (dataloader s) (handles s) (x_outer s) (x_inner s) (xs s) (gy_outer s) (p_pos s) (mods s) (G s) (e_outer s) (e_inner s) v (_cTv s) (_c s).
Definition set_cTv v s := mk_L2Loss (model s) (dataloader s) (handles s) (x_outer s) (x_inner s) (xs s) (gy_outer s) (p_pos s) (mods s) (G s) (e_outer s) (e_inner s) (outerloop_switch s) v (_c s).
Definition set_c v s := mk_L2Loss (model s) (dataloader s) (handles s) (x_outer s) (x_inner s) (xs s) (gy_outer s) (p_pos s) (mods s) (G s) (e_outer s) (e_inner s) (outerloop_switch s) (_cTv s) v.

(** *** Computations on the object *)

Definition M (A : Type) : Type := L2Loss → outcome A * L2Loss.

Definition ret {A} (a : A) : M A := λ s, (Ok a, s).
Definition bind {A B} (m : M A) (k : A → M B) : M B :=
  λ s, match m s with
       | (Ok a, s') => k a s'
       | (Raise e, s') => (Raise e, s')
       end.
Definition raise {A} (e : exn) : M A := λ s, (Raise e, s).
Definition lift {A} (o : outcome A) : M A := λ s, (o, s).
Definition gets {A} (f : L2Loss → A) : M A := λ s, (Ok (f s), s).
Definition modify (f : L2Loss → L2Loss) : M unit := λ s, (Ok tt, f s).

(** Reading an attribute that may be unset, and a dictionary entry. *)
Definition attr {A} (f : L2Loss → option A) : M A :=
  λ s, match f s with
       | Some a => (Ok a, s)
       | None => (Raise AttributeError, s)
       end.
Definition item {A} (d : L2Loss → gmap nat A) (k : nat) : M A :=
  λ s, match d s !! k with
       | Some a => (Ok a, s)
       | None => (Raise KeyError, s)
       end.

(** [for x in l: body(x)] *)
Fixpoint for_each {A} (l : list A) (body : A → M unit) : M unit :=
  match l with
  | [] => ret tt
  | x :: l' => bind (body x) (λ _, for_each l' body)
  end.
End Engine.

Arguments batch R : clear implicits.
Arguments data_loader R : clear implicits.
Arguments L2Loss R : clear implicits.
Arguments M R A : clear implicits.

Definition obind {A B} (o : outcome A) (k : A → outcome B) : outcome B :=
  match o with
  | Ok a => k a
  | Raise e => Raise e
  end.

Declare Scope engine_scope.
Delimit Scope engine_scope with eng.
Notation "x <- m ;; k" := (bind m (λ x, k))
  (at level 100, m at next level, right associativity) : engine_scope.
Notation "m ;;; k" := (bind m (λ _, k))
  (at level 100, right associativity) : engine_scope.
Notation "x <~ o ;; k" := (obind o (λ x, k))
  (at level 100, o at next level, right associativity) : engine_scope.
Local Open Scope engine_scope.

(** ** The methods of [L2Loss] *)

Section Methods.
Context {R : Type} `{!Scalar R}.

Abbreviation M := (M R).
Abbreviation L2Loss := (L2Loss R).
Abbreviation batch := (batch R).

(** [mod_class in ['Linear', 'Conv2d']] *)
Definition retained (mod_ : nn_module) : bool :=
  bool_decide (mod_class mod_ ∈ ["Linear"; "Conv2d"]).

Definition is_Linear (mod_ : nn_module) : bool :=
  bool_decide (mod_class mod_ = "Linear").

(** The loop of [_get_individual_modules] over [model.modules()], carrying
    the locals [mods], [sizes_mods], [parameters] and [start]. *)
Fixpoint individual_modules_loop (ms : list nn_module)
    (mods_ : list nn_module) (sizes_mods : list (list nat))
    (parameters_ : list parameter) (start : nat)
  : M (list nn_module * list (list nat) * list parameter) :=
  match ms with
  | [] => ret (mods_, sizes_mods, parameters_)
  | mod_ :: ms' =>
      if retained mod_ then
        modify (λ s, set_p_pos (<[mod_id mod_ := start]> (p_pos s)) s) ;;;
        w <- lift (match weight mod_ with
                   | Some w => Ok w
                   | None => Raise AttributeError
                   end) ;;
        match bias mod_ with
        | Some b =>
            individual_modules_loop ms' (mods_ ++ [mod_])
              (sizes_mods ++ [p_size w] ++ [p_size b])
              (parameters_ ++ [w] ++ [b])
              (start + numel w + numel b)
        | None =>
            individual_modules_loop ms' (mods_ ++ [mod_])
              (sizes_mods ++ [p_size w])
              (parameters_ ++ [w])
              (start + numel w)
        end
      else individual_modules_loop ms' mods_ sizes_mods parameters_ start
  end.

Definition _get_individual_modules (model : nn_model) : M (list nn_module) :=
  r <- individual_modules_loop (modules model) [] [] [] 0 ;;
  let '(mods_, sizes_mods, parameters_) := r in
  (* check order of flattening *)
  let sizes_flat := p_size <$> filter (λ p, requires_grad p = true) (parameters model) in
  if bool_decide (sizes_mods = sizes_flat) then
    (* check that all parameters were added *)
    if bool_decide
         (size ((list_to_set (p_id <$> parameters_) : gset nat)
                  ∖ list_to_set (p_id <$> parameters model)) = 0)
    then ret mods_
    else raise AssertionError
  else raise AssertionError.

(** The object as [__init__] finds it, before any attribute is assigned. *)
Definition blank (model : nn_model) (dataloader : data_loader R) : L2Loss :=
  mk_L2Loss model dataloader [] ∅ ∅ ∅ ∅ ∅ [] None None None None None None.

Definition __init__ (model : nn_model) : M unit :=
  ms <- _get_individual_modules model ;;
  modify (set_mods ms).

(** [L2Loss(model, dataloader, loss_closure)]: the constructed object, or
    the exception of [__init__]. *)
Definition L2Loss_new (model : nn_model) (dataloader : data_loader R)
  : outcome L2Loss :=
  match __init__ model (blank model dataloader) with
  | (Ok _, s) => Ok s
  | (Raise e, _) => Raise e
  end.

Definition release_buffers : M unit :=
  modify (set_x_outer ∅) ;;;
  modify (set_x_inner ∅) ;;;
  modify (set_xs ∅) ;;;
  modify (set_gy_outer ∅).

(** [m.register_forward_pre_hook(fn)] and [m.register_backward_hook(fn)]:
    a fresh handle whose id keys the new table entry. The ids are drawn from
    a counter kept with the model; torch draws them from a counter of the
    process, so only the freshness of an id is meaningful, not its value. *)
Definition register_hook (m : nn_module) (pt : hook_point) (fn : hook_fn) : M nat :=
  λ s, let md := model s in
       let h := next_handle_id md in
       (Ok h, set_model (mk_model (modules md)
                           (hooks_table md ++ [mk_hook h (mod_id m) pt fn])
                           (S h)) s).

(** [h.remove()]: deletes the entry keyed by the handle's id, if present. *)
Definition remove (h : nat) : M unit :=
  modify (λ s, let md := model s in
               set_model (mk_model (modules md)
                            (filter (λ e, h_id e ≠ h) (hooks_table md))
                            (next_handle_id md)) s).

Fixpoint add_hooks_loop (hook_x hook_gy : hook_fn) (ms : list nn_module)
    (handles_ : list nat) : M (list nat) :=
  match ms with
  | [] => ret handles_
  | m :: ms' =>
      h1 <- register_hook m forward_pre hook_x ;;
      h2 <- register_hook m backward hook_gy ;;
      add_hooks_loop hook_x hook_gy ms' (handles_ ++ [h1] ++ [h2])
  end.

Definition _add_hooks (hook_x hook_gy : hook_fn) : M (list nat) :=
  ms <- gets mods ;;
  add_hooks_loop hook_x hook_gy ms [].

Definition _hook_savex_io (mod_ : nn_module) (i0 : matrix R) : M unit :=
  sw <- attr outerloop_switch ;;
  if sw : bool
  then modify (λ s, set_x_outer (<[mod_id mod_ := i0]> (x_outer s)) s)
  else modify (λ s, set_x_inner (<[mod_id mod_ := i0]> (x_inner s)) s).

Definition _hook_savex (mod_ : nn_module) (i0 : matrix R) : M unit :=
  modify (λ s, set_xs (<[mod_id mod_ := i0]> (xs s)) s).

(** [self.G[self.e_inner:self.e_inner+bs_inner,
            self.e_outer:self.e_outer+bs_outer] += rhs] *)
Definition G_iadd_inner_outer (bs_inner bs_outer : nat) (rhs : outcome (matrix R))
  : M unit :=
  g <- attr G ;;
  ei <- attr e_inner ;;
  eo <- attr e_outer ;;
  v <- lift rhs ;;
  g' <- lift (iadd_block g ei (ei + bs_inner) eo (eo + bs_outer) v) ;;
  modify (set_G (Some g')).

Definition _hook_compute_flat_grad (mod_ : nn_module) (grad_output0 : matrix R)
  : M unit :=
  sw <- attr outerloop_switch ;;
  if sw : bool
  then modify (λ s, set_gy_outer (<[mod_id mod_ := grad_output0]> (gy_outer s)) s)
  else
    let gy_inner := grad_output0 in
    gy_outer_ <- item gy_outer (mod_id mod_) ;;
    x_outer_ <- item x_outer (mod_id mod_) ;;
    x_inner_ <- item x_inner (mod_id mod_) ;;
    let bs_inner := nrows x_inner_ in
    let bs_outer := nrows x_outer_ in
    start <- item p_pos (mod_id mod_) ;;
    if is_Linear mod_ then
      G_iadd_inner_outer bs_inner bs_outer
        (xx <~ mm x_inner_ (transpose x_outer_) ;;
         gg <~ mm gy_inner (transpose gy_outer_) ;;
         mul xx gg) ;;;
      match bias mod_ with
      | Some _ =>
          G_iadd_inner_outer bs_inner bs_outer (mm gy_inner (transpose gy_outer_))
      | None => ret tt
      end
    else raise NotImplementedError.

(** [self._cTv[a:b] += rhs] *)
Definition cTv_iadd (a b : nat) (rhs : outcome (vector R)) : M unit :=
  out <- attr _cTv ;;
  w <- lift rhs ;;
  out' <- lift (iadd_vslice out a b w) ;;
  modify (set_cTv (Some out')).

Definition _hook_compute_m_norm (mod_ : nn_module) (grad_output0 : matrix R)
  : M unit :=
  let gy := grad_output0 in
  xs_ <- item xs (mod_id mod_) ;;
  start <- item p_pos (mod_id mod_) ;;
  if is_Linear mod_ then
    w <- lift (match weight mod_ with
               | Some w => Ok w
               | None => Raise AttributeError
               end) ;;
    c <- attr _c ;;
    cTv_iadd start (start + numel w)
      (cx <~ mul (view_col c) xs_ ;;
       g <~ mm (transpose gy) cx ;;
       Ok (view_flat g)) ;;;
    match bias mod_ with
    | Some b =>
        c <- attr _c ;;
        cTv_iadd (start + numel w) (start + numel w + numel b)
          (mv (transpose gy) c)
    | None => ret tt
    end
  else raise NotImplementedError.

(** Calling a registered bound method on a module during the evaluation of
    a batch. *)
Definition call_hook (b : batch) (m : nn_module) (fn : hook_fn) : M unit :=
  match fn with
  | H_savex_io => _hook_savex_io m (layer_input b (mod_id m))
  | H_savex => _hook_savex m (layer_input b (mod_id m))
  | H_compute_flat_grad => _hook_compute_flat_grad m (layer_grad_output b (mod_id m))
  | H_compute_m_norm => _hook_compute_m_norm m (layer_grad_output b (mod_id m))
  end.

(** The hooks a module's table holds for one interception point. *)
Definition hooks_of (tbl : list hook_entry) (pt : hook_point) (m : nn_module)
  : list hook_fn :=
  h_fn <$> filter (λ e, h_mod e = mod_id m ∧ h_point e = pt) tbl.

Definition fire (pt : hook_point) (b : batch) (m : nn_module) : M unit :=
  tbl <- gets (λ s, hooks_table (model s)) ;;
  for_each (hooks_of tbl pt m) (call_hook b m).

(** The modules among [ms] that the closure applies on the batch. *)
Definition applied_modules (b : batch) (ms : list nn_module) : list nn_module :=
  filter (λ m, applied b (mod_id m) = true) ms.

(** [loss = self.loss_closure(inputs, targets)] followed by
    [torch.autograd.grad(loss, [inputs])]: the closure applies modules of
    the model, in traversal order, each firing its forward pre-hooks when
    it is applied; differentiation then visits the applied modules in
    reverse, each firing its backward hooks. The hooks of a module that is
    not applied are not called. *)
Definition forward_backward (b : batch) : M unit :=
  ms <- gets (λ s, applied_modules b (modules (model s))) ;;
  for_each ms (fire forward_pre b) ;;;
  for_each (reverse ms) (fire backward b).
End Methods.

Section Queries.
Context {R : Type} `{!Scalar R}.

Abbreviation M := (M R).
Abbreviation batch := (batch R).

(** [next(self.model.parameters()).device] *)
Definition first_parameter_device : M unit :=
  ps <- gets (λ s, parameters (model s)) ;;
  match ps with
  | [] => raise StopIteration
  | _ :: _ => ret tt
  end.

(** [sum([p.numel() for p in self.model.parameters()])] *)
Definition count_parameters (md : nn_model) : nat :=
  foldl Nat.add 0 (numel <$> parameters md).

(** [self.G[self.e_outer:self.e_outer+bs_outer,
            self.e_inner:self.e_inner+bs_inner] +=
       self.G[self.e_inner:self.e_inner+bs_inner,
              self.e_outer:self.e_outer+bs_outer].t()]
    The right-hand side is read as a value before the block is written.
    The code adds in place on two views of [self.G]; the two agree when the
    blocks share at most one entry, which is so whenever the offsets are
    those of two different batches. *)
Definition G_copy_transposed (bs_outer bs_inner : nat) : M unit :=
  g <- attr G ;;
  eo <- attr e_outer ;;
  ei <- attr e_inner ;;
  let rhs := transpose (slice2 g ei (ei + bs_inner) eo (eo + bs_outer)) in
  g' <- lift (iadd_block g eo (eo + bs_outer) ei (ei + bs_inner) rhs) ;;
  modify (set_G (Some g')).

(** The inner [for i_inner, (inputs, targets) in enumerate(self.dataloader)]
    of [get_matrix], from index [i_inner] on. The loop variable [inputs] is
    the one of the enclosing loop: the result is the batch it is bound to
    when the loop is left, by [break] or by exhaustion. *)
Fixpoint inner_loop (i_outer bs_outer : nat) (i_inner : nat)
    (rest : list batch) (inputs : batch) : M batch :=
  match rest with
  | [] => ret inputs
  | b :: rest' =>
      if i_outer <? i_inner then ret b
      else
        forward_backward b ;;;
        (if i_inner <? i_outer (* exclude diagonal *)
         then let bs_inner := targets_size0 b in
              G_copy_transposed bs_outer bs_inner
         else ret tt) ;;;
        ei <- attr e_inner ;;
        modify (set_e_inner (Some (ei + inputs_size0 b))) ;;;
        inner_loop i_outer bs_outer (S i_inner) rest' b
  end.

(** The outer [for i_outer, (inputs, targets) in enumerate(self.dataloader)]
    of [get_matrix], from index [i_outer] on; [loader] is what a fresh
    traversal yields. *)
Fixpoint outer_loop (loader : list batch) (i_outer : nat) (rest : list batch)
  : M unit :=
  match rest with
  | [] => ret tt
  | b :: rest' =>
      modify (set_outerloop_switch (Some true)) ;;;
      let bs_outer := targets_size0 b in
      forward_backward b ;;;
      modify (set_outerloop_switch (Some false)) ;;;
      modify (set_e_inner (Some 0)) ;;;
      inputs <- inner_loop i_outer bs_outer 0 loader b ;;
      eo <- attr e_outer ;;
      modify (set_e_outer (Some (eo + inputs_size0 inputs))) ;;;
      outer_loop loader (S i_outer) rest'
  end.

(** [del self.name] *)
Definition del {A} (get : L2Loss R → option A)
    (set : option A → L2Loss R → L2Loss R) : M unit :=
  attr get ;;; modify (set None).

Definition get_matrix : M (matrix R) :=
  (* add hooks *)
  new <- _add_hooks H_savex_io H_compute_flat_grad ;;
  modify (λ s, set_handles (handles s ++ new) s) ;;;
  first_parameter_device ;;;
  n_examples <- gets (λ s, sampler_len (dataloader s)) ;;
  modify (set_G (Some (zeros2 n_examples n_examples))) ;;;
  modify (set_e_outer (Some 0)) ;;;
  loader <- gets (λ s, batches (dataloader s)) ;;
  outer_loop loader 0 loader ;;;
  G_ <- attr G ;;
  (* remove hooks *)
  del e_inner set_e_inner ;;;
  del e_outer set_e_outer ;;;
  del G set_G ;;;
  modify (set_x_inner ∅) ;;;
  modify (set_x_outer ∅) ;;;
  hs <- gets handles ;;
  for_each hs remove ;;;
  ret G_.

(** The loop of [implicit_m_norm] over the data loader, carrying the
    local [i]. *)
Fixpoint m_norm_loop (v : vector R) (bs : nat) (i : nat) (rest : list batch)
  : M unit :=
  match rest with
  | [] => ret tt
  | b :: rest' =>
      modify (set_c (Some (vslice v i (i + bs)))) ;;;
      forward_backward b ;;;
      m_norm_loop v bs (i + bs) rest'
  end.

Definition implicit_m_norm (v : vector R) : M R :=
  (* add hooks *)
  new <- _add_hooks H_savex H_compute_m_norm ;;
  modify (λ s, set_handles (handles s ++ new) s) ;;;
  first_parameter_device ;;;
  n_parameters <- gets (λ s, count_parameters (model s)) ;;
  bs <- gets (λ s, batch_size (dataloader s)) ;;
  modify (set_cTv (Some (zeros1 n_parameters))) ;;;
  loader <- gets (λ s, batches (dataloader s)) ;;
  m_norm_loop v bs 0 loader ;;;
  out <- attr _cTv ;;
  let m_norm := norm2 out in
  (* remove hooks *)
  del _cTv set_cTv ;;;
  modify (set_xs ∅) ;;;
  hs <- gets handles ;;
  for_each hs remove ;;;
  ret m_norm.
End Queries.

(** ** A concrete instance over the integers

    The arithmetic is exact and [rsqrt] is the integer square root, so a
    norm computed at this instance is the floor of the real one. *)

#[global] Instance Z_scalar : Scalar Z :=
  {| rzero := 0%Z; radd := Z.add; rmul := Z.mul; rsqrt := Z.sqrt |}.

Definition of_lists (l : list (list Z)) : matrix Z :=
  mk_matrix (length l) (length (hd [] l)) (λ i j, nth j (nth i l []) 0%Z).

Definition of_list (l : list Z) : vector Z :=
  mk_vector (length l) (λ i, nth i l 0%Z).

(** A container with one [Linear(2, 1)] layer with bias. *)
Definition ex_net : nn_module := mk_module 0 "Net" None None [].
Definition ex_linear : nn_module :=
  mk_module 1 "Linear"
    (Some (mk_parameter 0 [1; 2] true)) (Some (mk_parameter 1 [1] true)) [].
Definition ex_model : nn_model := mk_model [ex_net; ex_linear] [] 0.

(** A container with one [Conv2d(1, 1, 1)] layer with bias. *)
Definition ex_conv : nn_module :=
  mk_module 1 "Conv2d"
    (Some (mk_parameter 0 [1; 1; 1; 1] true)) (Some (mk_parameter 1 [1] true)) [].
Definition ex_conv_model : nn_model := mk_model [ex_net; ex_conv] [] 0.

(** The linear layer of [ex_model] with its weight frozen. *)
Definition ex_frozen : nn_module :=
  mk_module 1 "Linear"
    (Some (mk_parameter 0 [1; 2] false)) (Some (mk_parameter 1 [1] true)) [].
Definition ex_frozen_model : nn_model := mk_model [ex_net; ex_frozen] [] 0.

(** Two batches, of two examples and of one example; the closure applies
    every module, and what the layer sees does not depend on the pass. *)
Definition ex_batch_a : batch Z :=
  mk_batch 2 2 (λ _, true) (λ _, of_lists [[1; 2]; [3; 4]]%Z) (λ _, of_lists [[1]; [2]]%Z).
Definition ex_batch_b : batch Z :=
  mk_batch 1 1 (λ _, true) (λ _, of_lists [[5; 6]]%Z) (λ _, of_lists [[3]]%Z).

(** Three examples served with [batch_size = 2]: the last batch is short. *)
Definition ex_loader_ragged : data_loader Z :=
  mk_loader [ex_batch_a; ex_batch_b] 2 3.
(** Two examples in one batch. *)
Definition ex_loader_single : data_loader Z := mk_loader [ex_batch_a] 2 2.

(** The object [L2Loss(model, dataloader, _)], or a blank one if construction
    raises. *)
Definition constructed (md : nn_model) (ld : data_loader Z) : L2Loss Z :=
  match L2Loss_new md ld with
  | Ok s => s
  | Raise _ => blank md ld
  end.

(** ** Notions of the specification *)

(** The weight and, when present, the bias of a layer. *)
Definition layer_parameters (m : nn_module) : list parameter :=
  option_list (weight m) ++ option_list (bias m).

(** The supported layers of a model, in traversal order. *)
Definition retained_layers (md : nn_model) : list nn_module :=
  filter (λ m, retained m = true) (modules md).

(** The in-order concatenation of the retained layers' parameter shapes. *)
Definition retained_shapes (md : nn_model) : list (list nat) :=
  p_size <$> flat_map layer_parameters (retained_layers md).

(** The in-order concatenation of the model's trainable-parameter shapes. *)
Definition trainable_shapes (md : nn_model) : list (list nat) :=
  p_size <$> filter (λ p, requires_grad p = true) (parameters md).

(** The number of scalars a layer contributes to the flat parameter vector,
    and the flat offset of a layer that comes after the layers [pre]. *)
Definition layer_numel (m : nn_module) : nat :=
  sum_list (numel <$> layer_parameters m).
Definition flat_offset (pre : list nn_module) : nat :=
  sum_list (layer_numel <$> pre).




(** Every module whose class is [Linear] or [Conv2d] has a [weight], as the
    torch layers of these names do. *)
Definition layers_have_weight (md : nn_model) : Prop :=
  Forall (λ m, retained m = true → is_Some (weight m)) (modules md).

(** [model.modules()] lists each module object once. *)
Definition distinct_modules (md : nn_model) : Prop :=
  NoDup (mod_id <$> modules md).

(** The offsets the construction loop records: each layer is keyed to the
    running total [start] of the scalars of the layers before it. *)
Fixpoint record_offsets (start : nat) (ms : list nn_module) (pp : gmap nat nat)
  : gmap nat nat :=
  match ms with
  | [] => pp
  | m :: ms' => record_offsets (start + layer_numel m) ms' (<[mod_id m := start]> pp)
  end.

(** ** Notions used to reason about the computations *)

Section Reasoning.
Context {R : Type} `{!Scalar R}.

(** The postcondition [Q] holds of the outcome and the final object. *)
Definition wp {A} (m : M R A) (Q : outcome A → L2Loss R → Prop) (s : L2Loss R) : Prop :=
  Q (m s).1 (m s).2.

(** The computation leaves the observation [f] of the object unchanged,
    whatever its outcome. *)
Definition keeps {A X} (f : L2Loss R → X) (m : M R A) : Prop :=
  ∀ s, f (m s).2 = f s.

(** What no hook writes. *)
Definition env (s : L2Loss R) :=
  (model s, dataloader s, handles s, mods s, p_pos s,
   outerloop_switch s, e_outer s, e_inner s, _c s).

(** What no pass over the data writes: the model with its hook tables, the
    loader, the handles and the layout. *)
Definition ctl (s : L2Loss R) :=
  (model s, dataloader s, handles s, mods s, p_pos s).

(** The buffers and the layout, which registering and removing hooks do
    not write. *)
Definition buffers (s : L2Loss R) :=
  (x_outer s, x_inner s, xs s, gy_outer s).

(** The object with the hook tables of its model replaced. *)
Definition set_hooks (tbl : list hook_entry) (next : nat) (s : L2Loss R) : L2Loss R :=
  set_model (mk_model (modules (model s)) tbl next) s.
End Reasoning.

(** The table entries [_add_hooks] appends for the layers [ms] when the next
    free handle id is [h]. *)
Fixpoint new_entries (hook_x hook_gy : hook_fn) (h : nat) (ms : list nn_module)
  : list hook_entry :=
  match ms with
  | [] => []
  | m :: ms' =>
      mk_hook h (mod_id m) forward_pre hook_x
        :: mk_hook (S h) (mod_id m) backward hook_gy
        :: new_entries hook_x hook_gy (S (S h)) ms'
  end.

(** The ids of the handles a query registers when started on [s]. *)
Definition new_handles {R} (s : L2Loss R) : list nat :=
  seq (next_handle_id (model s)) (2 * length (mods s)).

(** The ids of the hooks that are registered on the model of [s]. *)
Definition live {R} (s : L2Loss R) : list nat :=
  h_id <$> hooks_table (model s).

(** What a query that registers [hook_x] and [hook_gy] does to the hook
    tables and to [self.handles]. *)
Definition hooks_post (hx hgy : hook_fn) {R} (s : L2Loss R) {A} (r : outcome A) (s' : L2Loss R)
  : Prop :=
  handles s' = handles s ++ new_handles s
  ∧ match r with
    | Ok _ =>
        hooks_table (model s')
          = filter (λ e, h_id e ∉ handles s ++ new_handles s) (hooks_table (model s))
    | Raise _ =>
        hooks_table (model s')
          = hooks_table (model s)
              ++ new_entries hx hgy (next_handle_id (model s)) (mods s)
    end.

(** The query does not return: it ends by raising. *)
Definition raises {R A} (m : M R A) (s : L2Loss R) : Prop :=
  ∃ e s', m s = (Raise e, s').

(** Every parameter of the model is the weight or the bias of a [Linear] or
    [Conv2d] layer and is trainable, no parameter object occurs twice, and
    the other modules own only parameters that are not trainable. *)
Definition supported_layout (md : nn_model) : Prop :=
  NoDup (p_id <$> flat_map own_parameters (modules md))
  ∧ Forall (λ m, (retained m = true →
                    is_Some (weight m)
                    ∧ other_parameters m = []
                    ∧ Forall (λ p, requires_grad p = true) (layer_parameters m))
                 ∧ (retained m = false →
                    Forall (λ p, requires_grad p = false) (own_parameters m)))
           (modules md).

(** ** The data loader as the specification sees it *)

Section Loader.
Context {R : Type} `{!Scalar R}.

(** The number of examples of a batch. *)
Definition examples (b : batch R) : nat := inputs_size0 b.

(** The number of examples in the batches [pre]: the offset, in example
    space, of the batch that follows them. *)
Definition example_offset (pre : list (batch R)) : nat :=
  sum_list (examples <$> pre).

(** Every batch has [bs] examples, except that the last one may have
    fewer. *)
Fixpoint nominal_batches (bs : nat) (l : list (batch R)) : Prop :=
  match l with
  | [] => True
  | [b] => examples b ≤ bs
  | b :: l' => examples b = bs ∧ nominal_batches bs l'
  end.

(** The loop of [implicit_m_norm] as the specification words it: the batch
    at example offset [offset] is given [c = v[offset : offset + n_b]]. *)
Fixpoint m_norm_loop_by_examples (v : vector R) (offset : nat) (rest : list (batch R))
  : M R unit :=
  match rest with
  | [] => ret tt
  | b :: rest' =>
      modify (set_c (Some (vslice v offset (offset + examples b)))) ;;;
      forward_backward b ;;;
      m_norm_loop_by_examples v (offset + examples b) rest'
  end.
End Loader.

(** The object is set up for a query that registered [hook_x] and
    [hook_gy]: the hook tables hold the hooks of this query on the retained
    layers and nothing else, and the modules are distinct objects. *)
Definition instrumented {R} (hook_x hook_gy : hook_fn) (s : L2Loss R) : Prop :=
  (∃ h, hooks_table (model s) = new_entries hook_x hook_gy h (mods s))
  ∧ mods s = retained_layers (model s)
  ∧ distinct_modules (model s).

(** ** Tensor algebra of the specification *)

Section SpecTensors.
Context {R : Type} `{!Scalar R}.

(** Two tensors have the same shape and the same entries. *)
Definition veq (v w : vector R) : Prop :=
  vlen v = vlen w ∧ ∀ k, k < vlen v → vat v k = vat w k.
Definition meq (A B : matrix R) : Prop :=
  nrows A = nrows B ∧ ncols A = ncols B
  ∧ ∀ i j, i < nrows A → j < ncols A → entry A i j = entry B i j.

(** The matrix product [A B] and the product [A v]. *)
Definition matmul (A B : matrix R) : matrix R :=
  mk_matrix (nrows A) (ncols B)
    (λ i j, dot (ncols A) (λ k, entry A i k) (λ k, entry B k j)).
Definition matvec (A : matrix R) (v : vector R) : vector R :=
  mk_vector (nrows A) (λ i, dot (ncols A) (λ k, entry A i k) (vat v)).

(** The Hadamard product of two matrices of one shape. *)
Definition hadamard (A B : matrix R) : matrix R :=
  mk_matrix (nrows A) (ncols A) (λ i j, rmul (entry A i j) (entry B i j)).

(** [c ⊙ X]: row [i] of [X] multiplied by [c i]. *)
Definition scale_rows (c : vector R) (X : matrix R) : matrix R :=
  mk_matrix (nrows X) (ncols X) (λ i j, rmul (vat c i) (entry X i j)).

(** [out[a : a + len w] += w] *)
Definition vadd_at (out : vector R) (a : nat) (w : vector R) : vector R :=
  mk_vector (vlen out)
    (λ k, if (a <=? k) && (k <? a + vlen w)
          then radd (vat out k) (vat w (k - a))
          else vat out k).

(** [G[r0 : r0 + rows V, c0 : c0 + cols V] += V] *)
Definition block_add (G : matrix R) (r0 c0 : nat) (V : matrix R) : matrix R :=
  mk_matrix (nrows G) (ncols G)
    (λ r c, if (r0 <=? r) && (r <? r0 + nrows V) && (c0 <=? c) && (c <? c0 + ncols V)
            then radd (entry G r c) (entry V (r - r0) (c - c0))
            else entry G r c).
End SpecTensors.

(** The retained layers with their flat offsets. *)
Fixpoint layout_from (start : nat) (ms : list nn_module) : list (nat * nn_module) :=
  match ms with
  | [] => []
  | m :: ms' => (start, m) :: layout_from (start + layer_numel m) ms'
  end.
Definition layout (md : nn_model) : list (nat * nn_module) :=
  layout_from 0 (retained_layers md).

(** ** The implicit product as the specification words it *)

Section SpecMNorm.
Context {R : Type} `{!Scalar R}.

(** The closure applies the layer on the batch and the tensors of the
    [Linear] layer fit the batch: one row of input and of output gradient
    per example, a weight of shape [(out, in)] and a bias, if any, of shape
    [(out)]. *)
Definition linear_shapes (b : batch R) (m : nn_module) : Prop :=
  let X := layer_input b (mod_id m) in
  let GY := layer_grad_output b (mod_id m) in
  applied b (mod_id m) = true
  ∧ nrows X = examples b ∧ nrows GY = examples b
  ∧ match weight m with
    | Some w => p_size w = [ncols GY; ncols X]
    | None => False
    end
  ∧ match bias m with
    | Some bb => p_size bb = [ncols GY]
    | None => True
    end.

(** A model that has parameters and no hooks yet, whose retained layers are
    well-formed [Linear] layers, with data that fits them. *)
Definition linear_task (md : nn_model) (ld : data_loader R) : Prop :=
  hooks_table md = []
  ∧ distinct_modules md
  ∧ layers_have_weight md
  ∧ parameters md ≠ []
  ∧ Forall (λ m, is_Linear m = true) (retained_layers md)
  ∧ Forall (λ b, Forall (linear_shapes b) (retained_layers md)) (batches ld).

(** The contribution of the layer [m], whose parameters start at [start],
    for a batch with slice [c]:
    [out[weight-slice] += GY^T (c ⊙ X)] and, with a bias,
    [out[bias-slice] += GY^T c]. *)
Definition m_norm_layer (c : vector R) (b : batch R) (out : vector R)
    (sm : nat * nn_module) : vector R :=
  let '(start, m) := sm in
  let X := layer_input b (mod_id m) in
  let GY := layer_grad_output b (mod_id m) in
  let out1 := vadd_at out start (view_flat (matmul (transpose GY) (scale_rows c X))) in
  match bias m with
  | Some _ => vadd_at out1 (start + from_option numel 0 (weight m)) (matvec (transpose GY) c)
  | None => out1
  end.

(** One batch: every retained layer contributes, in the order of the
    backward pass. *)
Definition m_norm_batch (lay : list (nat * nn_module)) (c : vector R) (b : batch R)
    (out : vector R) : vector R :=
  foldl (m_norm_layer c b) out (reverse lay).

(** One pass over the batches; the batch at example offset [offset] uses
    [c = v[offset : offset + n_b]]. *)
Fixpoint m_norm_out (lay : list (nat * nn_module)) (v : vector R) (offset : nat)
    (l : list (batch R)) (out : vector R) : vector R :=
  match l with
  | [] => out
  | b :: l' =>
      m_norm_out lay v (offset + examples b) l'
        (m_norm_batch lay (vslice v offset (offset + examples b)) b out)
  end.

(** The Euclidean norm of the accumulated buffer. *)
Definition m_norm_spec (md : nn_model) (ld : data_loader R) (v : vector R) : R :=
  norm2 (m_norm_out (layout md) v 0 (batches ld) (zeros1 (count_parameters md))).

(** The inputs a forward pass on [b] stores for the layers [ms]. *)
Definition save_inputs (b : batch R) (ms : list nn_module) (d : gmap nat (matrix R))
  : gmap nat (matrix R) :=
  foldl (λ d m, <[mod_id m := layer_input b (mod_id m)]> d) d ms.
End SpecMNorm.

(** What the backward hooks of a pass need of a [Linear] layer [sm.2] whose
    parameters start at [sm.1], with [n] scalars in the flat vector. *)
Definition layer_ready {R} (s : L2Loss R) (n : nat) (sm : nat * nn_module) : Prop :=
  is_Linear sm.2 = true
  ∧ p_pos s !! mod_id sm.2 = Some sm.1
  ∧ sm.1 + layer_numel sm.2 ≤ n.

(** ** The Gram matrix as the specification words it *)

Section SpecGram.
Context {R : Type} `{!Scalar R}.

(** The block of [G] with [n] rows from [r0] and [m] columns from [c0]. *)
Definition block (G : matrix R) (r0 n c0 m : nat) : matrix R :=
  mk_matrix n m (λ i j, entry G (r0 + i) (c0 + j)).

(** The contribution of the layer [m] for an inner batch [bi] at example
    offset [ei] and an outer batch [bo] at example offset [eo]:
    [G[inner, outer] += (X_inner X_outer^T) ⊙ (GY_inner GY_outer^T)] and,
    with a bias, [G[inner, outer] += GY_inner GY_outer^T]. *)
Definition gram_layer (bi bo : batch R) (ei eo : nat) (G : matrix R) (m : nn_module)
  : matrix R :=
  let XX := matmul (layer_input bi (mod_id m)) (transpose (layer_input bo (mod_id m))) in
  let GG := matmul (layer_grad_output bi (mod_id m))
                   (transpose (layer_grad_output bo (mod_id m))) in
  let G1 := block_add G ei eo (hadamard XX GG) in
  match bias m with
  | Some _ => block_add G1 ei eo GG
  | None => G1
  end.

(** One ordered pair of batches: every retained layer contributes, in the
    order of the backward pass. *)
Definition gram_pair (ms : list nn_module) (bi bo : batch R) (ei eo : nat)
    (G : matrix R) : matrix R :=
  foldl (gram_layer bi bo ei eo) G (reverse ms).

(** Completion by symmetry: [G[outer, inner] += G[inner, outer]^T]. *)
Definition gram_mirror (bi bo : batch R) (ei eo : nat) (G : matrix R) : matrix R :=
  block_add G eo ei (transpose (block G ei (examples bi) eo (examples bo))).

(** The inner batches of the outer batch [bo] at example offset [eo]: the
    batches [pre] before it, each followed by its completion by symmetry,
    and then [bo] itself, the diagonal block, without completion. *)
Fixpoint gram_inner (ms : list nn_module) (bo : batch R) (eo : nat)
    (pre : list (batch R)) (ei : nat) (G : matrix R) : matrix R :=
  match pre with
  | [] => gram_pair ms bo bo ei eo G
  | bi :: pre' =>
      gram_inner ms bo eo pre' (ei + examples bi)
        (gram_mirror bi bo ei eo (gram_pair ms bi bo ei eo G))
  end.

(** The outer batches [rest] that follow the batches [pre]. *)
Fixpoint gram_outer (ms : list nn_module) (pre rest : list (batch R)) (G : matrix R)
  : matrix R :=
  match rest with
  | [] => G
  | bo :: rest' =>
      gram_outer ms (pre ++ [bo]) rest' (gram_inner ms bo (example_offset pre) pre 0 G)
  end.

Definition gram_spec (md : nn_model) (ld : data_loader R) : matrix R :=
  gram_outer (retained_layers md) [] (batches ld)
    (zeros2 (sampler_len ld) (sampler_len ld)).

(** The object as [get_matrix] has it when its outer loop starts. *)
Definition at_outer_loop (s : L2Loss R) : L2Loss R :=
  let n := sampler_len (dataloader s) in
  set_e_outer (Some 0)
    (set_G (Some (zeros2 n n))
       ((x <- _add_hooks H_savex_io H_compute_flat_grad ;;
         modify (λ s, set_handles (handles s ++ x) s)) s).2).
End SpecGram.

(** ** Notions used in the proofs about [get_matrix] *)

Section GramReasoning.
Context {R : Type} `{!Scalar R}.

(** The output gradients a backward pass on [b] stores for the layers
    [ms]. *)
Definition save_grads (b : batch R) (ms : list nn_module) (d : gmap nat (matrix R))
  : gmap nat (matrix R) :=
  foldl (λ d m, <[mod_id m := layer_grad_output b (mod_id m)]> d) d ms.

(** What the inner passes of an outer batch never write. *)
Definition outer_view (s : L2Loss R) :=
  (ctl s, outerloop_switch s, x_outer s, gy_outer s, e_outer s).

(** The object during the inner passes of the outer batch [bo] at offset
    [eo]: the hooks of [get_matrix] are the registered ones, the retained
    layers are [Linear] and have a position, the switch is off and the
    outer caches hold what the pass on [bo] stored. *)
Definition inner_ready (bo : batch R) (eo : nat) (s : L2Loss R) : Prop :=
  instrumented H_savex_io H_compute_flat_grad s
  ∧ Forall (λ m, is_Linear m = true ∧ is_Some (p_pos s !! mod_id m)) (mods s)
  ∧ outerloop_switch s = Some false
  ∧ e_outer s = Some eo
  ∧ Forall (λ m, x_outer s !! mod_id m = Some (layer_input bo (mod_id m))
                 ∧ gy_outer s !! mod_id m = Some (layer_grad_output bo (mod_id m)))
           (mods s).

(** Every batch has [n] examples, inputs and targets alike, the sampler
    counts the examples of the batches, and there is at least one batch. *)
Definition uniform_batches (n : nat) (ld : data_loader R) : Prop :=
  batches ld ≠ []
  ∧ Forall (λ b, examples b = n ∧ targets_size0 b = n) (batches ld)
  ∧ sampler_len ld = example_offset (batches ld).
End GramReasoning.

(** The hooks of [get_matrix] are the registered ones and the retained
    layers are [Linear] layers with a recorded position. *)
Definition gram_ready {R} (s : L2Loss R) : Prop :=
  instrumented H_savex_io H_compute_flat_grad s
  ∧ Forall (λ m, is_Linear m = true ∧ is_Some (p_pos s !! mod_id m)) (mods s).

(** ** Symmetry of the Gram matrix *)

Section SpecSymmetry.
Context {R : Type} `{!Scalar R}.

(** All entries with a row or a column index from [E] on are zero. *)
Definition zero_outside (E : nat) (G : matrix R) : Prop :=
  ∀ r c, E ≤ r ∨ E ≤ c → entry G r c = rzero.

(** With batches of [n] examples: the entry in the row of an example of a
    later batch and the column of an example of an earlier batch is the
    entry at the transposed position. *)
Definition mirrored_below (n E : nat) (G : matrix R) : Prop :=
  ∀ r c, r < E → c / n < r / n → entry G r c = entry G c r.

(** The matrix [G'] while the outer batch at offset [E] is processed, the
    inner batches before offset [ei] being done, starting from [G0]. *)
Definition inner_progress (n E ei : nat) (G0 G' : matrix R) : Prop :=
  zero_outside (E + n) G'
  ∧ (∀ r c, E ≤ r → ei ≤ c → entry G' r c = rzero)
  ∧ (∀ r c, ei ≤ r → E ≤ c → entry G' r c = rzero)
  ∧ (∀ r c, r < E → c < E → entry G' r c = entry G0 r c)
  ∧ (∀ r c, E ≤ r → c < ei → entry G' r c = entry G' c r).
End SpecSymmetry.

(** ** Notions used for the behaviour at the edges and between queries *)

Section Sides.
Context {R : Type} `{!Scalar R}.

(** What construction fixes: the modules of the model, the data loader, the
    retained layers and their flat offsets. *)
Definition layout_side (s : L2Loss R) :=
  (modules (model s), dataloader s, mods s, p_pos s).

(** The attributes [get_matrix] and its hooks work with. *)
Definition gram_side (s : L2Loss R) :=
  (G s, x_outer s, x_inner s, gy_outer s, e_outer s, e_inner s, outerloop_switch s).

(** The attributes [implicit_m_norm] and its hooks work with. *)
Definition m_norm_side (s : L2Loss R) :=
  (xs s, _cTv s, _c s).

(** Every hook registered on the model is one of the bound methods [fns]. *)
Definition only_hooks (fns : list hook_fn) (s : L2Loss R) : Prop :=
  Forall (λ e, h_fn e ∈ fns) (hooks_table (model s)).

(** The computation leaves the observation [f] unchanged, whatever its
    outcome, when started on an object that satisfies [I], and keeps [I]. *)
Definition keeps_under {A X} (I : L2Loss R → Prop) (f : L2Loss R → X) (m : M R A)
  : Prop :=
  ∀ s, I s → I (m s).2 ∧ f (m s).2 = f s.

(** The shape of [self.G], if the attribute is set. *)
Definition G_shape (s : L2Loss R) : option (nat * nat) :=
  (λ g, (nrows g, ncols g)) <$> G s.

(** The object between two queries: it is the one constructed for [md] and
    [ld], no hook is registered; the handles collected so far, the handle
    counter, the buffers and the other attributes are arbitrary. *)
Definition idle (md : nn_model) (ld : data_loader R) (s : L2Loss R) : Prop :=
  modules (model s) = modules md
  ∧ hooks_table (model s) = []
  ∧ dataloader s = ld
  ∧ mods s = retained_layers md
  ∧ p_pos s = record_offsets 0 (retained_layers md) ∅.

(** Every batch has [n] examples, inputs and targets alike, there is at
    least one batch, and the sampler counts at least the examples of the
    batches; it counts more when the data loader drops an incomplete last
    batch. *)
Definition covering_batches (n : nat) (ld : data_loader R) : Prop :=
  batches ld ≠ []
  ∧ Forall (λ b, examples b = n ∧ targets_size0 b = n) (batches ld)
  ∧ example_offset (batches ld) ≤ sampler_len ld.

(** Every batch has [batch_size] examples. *)
Definition full_batches (ld : data_loader R) : Prop :=
  Forall (λ b, examples b = batch_size ld) (batches ld).
End Sides.

(** Every parameter of the model is owned once; a [Linear] or [Conv2d] layer
    has a weight and owns its weight and bias only, and the other modules
    own only parameters that are not trainable. *)
Definition owned_by_layers (md : nn_model) : Prop :=
  NoDup (p_id <$> flat_map own_parameters (modules md))
  ∧ Forall (λ m, (retained m = true →
                    is_Some (weight m) ∧ other_parameters m = [])
                 ∧ (retained m = false →
                    Forall (λ p, requires_grad p = false) (own_parameters m)))
           (modules md).

(** A data loader without batches, a model without parameters and a data
    loader with two batches of two examples. *)
Definition ex_loader_empty : data_loader Z := mk_loader [] 2 0.
Definition ex_bare_model : nn_model := mk_model [ex_net] [] 0.
Definition ex_batch_c : batch Z :=
  mk_batch 2 2 (λ _, true) (λ _, of_lists [[5; 6]; [7; 8]]%Z) (λ _, of_lists [[3]; [4]]%Z).
Definition ex_loader_uniform : data_loader Z :=
  mk_loader [ex_batch_a; ex_batch_c] 2 4.

(** Three examples of which a data loader that drops the incomplete last
    batch serves two. *)
Definition ex_loader_dropped : data_loader Z := mk_loader [ex_batch_a] 2 3.

(** Two [Linear] layers, the second without bias, and a module that is
    named [Linear] and has no weight. *)
Definition ex_linear2 : nn_module :=
  mk_module 2 "Linear" (Some (mk_parameter 2 [1; 1] true)) None [].
Definition ex_mlp : nn_model := mk_model [ex_net; ex_linear; ex_linear2] [] 0.
Definition ex_weightless : nn_module := mk_module 1 "Linear" None None [].
Definition ex_weightless_model : nn_model := mk_model [ex_net; ex_weightless] [] 0.

(** A model with a [Linear] layer and a [Conv2d] layer, and a batch on
    which the closure applies the [Linear] layer and not the [Conv2d]
    layer. *)
Definition ex_conv2 : nn_module :=
  mk_module 2 "Conv2d" (Some (mk_parameter 2 [1; 1; 1; 1] true)) None [].
Definition ex_mixed_model : nn_model := mk_model [ex_net; ex_linear; ex_conv2] [] 0.
Definition ex_batch_skip : batch Z :=
  mk_batch 2 2 (λ id, negb (id =? 2))
    (λ _, of_lists [[1; 2]; [3; 4]]%Z) (λ _, of_lists [[1]; [2]]%Z).
Definition ex_loader_skip : data_loader Z := mk_loader [ex_batch_skip] 2 2.

(** Objects in the middle of a query and after a query: the object of the
    model with a [Conv2d] layer at the start of an outer pass, and objects
    that have served [get_matrix] or [implicit_m_norm]. *)
Definition ex_outer_state : L2Loss Z :=
  set_outerloop_switch (Some true)
    (at_outer_loop (constructed ex_mixed_model ex_loader_skip)).
Definition ex_used : L2Loss Z :=
  (get_matrix (constructed ex_model ex_loader_single)).2.
Definition ex_used_m : L2Loss Z :=
  (implicit_m_norm (of_list [1; 1]%Z) (constructed ex_model ex_loader_single)).2.
Definition ex_used_ragged : L2Loss Z :=
  (get_matrix (constructed ex_model ex_loader_ragged)).2.
Definition ex_used_uniform : L2Loss Z :=
  (implicit_m_norm (of_list [1; 1; 1; 1]%Z)
     (constructed ex_model ex_loader_uniform)).2.

(** ** The Gram matrix example by example *)

Section Kernel.
Context {R : Type} `{!Scalar R}.

(** What a layer adds for the example [i] of the batch [bi] and the example
    [j] of the batch [bo]: the product of the inner product of the two
    inputs and the inner product of the two output gradients and, with a
    bias, the inner product of the output gradients once more. *)
Definition kernel_layer (bi bo : batch R) (i j : nat) (acc : R) (m : nn_module) : R :=
  let Xi := layer_input bi (mod_id m) in
  let Xo := layer_input bo (mod_id m) in
  let GYi := layer_grad_output bi (mod_id m) in
  let GYo := layer_grad_output bo (mod_id m) in
  let xx := dot (ncols Xi) (λ k, entry Xi i k) (λ k, entry Xo j k) in
  let gg := dot (ncols GYi) (λ k, entry GYi i k) (λ k, entry GYo j k) in
  let acc1 := radd acc (rmul xx gg) in
  match bias m with
  | Some _ => radd acc1 gg
  | None => acc1
  end.

(** The sum over the layers, in the order of the backward pass. *)
Definition kernel (ms : list nn_module) (bi bo : batch R) (i j : nat) : R :=
  foldl (kernel_layer bi bo i j) rzero (reverse ms).

(** The entries of [G] for the pairs of examples of the batches [l], each of
    [n] examples, with the batch of the row not after the batch of the
    column, are the values of the kernel. *)
Definition upper_entries (n : nat) (ms : list nn_module) (l : list (batch R))
    (G : matrix R) : Prop :=
  ∀ p q bi bo i j,
    p ≤ q → l !! p = Some bi → l !! q = Some bo → i < n → j < n →
    entry G (p * n + i) (q * n + j) = kernel ms bi bo i j.
End Kernel.


(** ** Reasoning about computations *)

Section Construction.
Context {R : Type} `{!Scalar R}.

Abbreviation M := (M R).
Abbreviation L2Loss := (L2Loss R).

Lemma set_p_pos_id (s : L2Loss) : set_p_pos (p_pos s) s = s.
Proof. by destruct s. Qed.

Lemma set_p_pos_twice a b (s : L2Loss) :
  set_p_pos a (set_p_pos b s) = set_p_pos a s.
Proof. by destruct s. Qed.

Lemma individual_modules_loop_run ms :
  ∀ mods_ sizes params start (s : L2Loss),
    Forall (λ m, retained m = true → is_Some (weight m)) ms →
    individual_modules_loop ms mods_ sizes params start s =
      (Ok (mods_ ++ filter (λ m, retained m = true) ms,
           sizes ++ (p_size <$> flat_map layer_parameters
                                  (filter (λ m, retained m = true) ms)),
           params ++ flat_map layer_parameters (filter (λ m, retained m = true) ms)),
       set_p_pos (record_offsets start (filter (λ m, retained m = true) ms) (p_pos s)) s).
Proof.
  induction ms as [|m ms IH]; intros mods_ sizes params start s Hw.
  - cbn. rewrite !app_nil_r, set_p_pos_id. done.
  - apply Forall_cons in Hw as [Hm Hw]. cbn [individual_modules_loop].
    rewrite filter_cons. destruct (retained m) eqn:Hr.
    + rewrite decide_True by done.
      destruct (Hm eq_refl) as [w Hwm].
      unfold bind at 1, modify. unfold bind at 1, lift. rewrite Hwm.
      destruct (bias m) as [b|] eqn:Hb.
      * assert (layer_parameters m = [w; b]) as Hlp
          by (unfold layer_parameters; by rewrite Hwm, Hb).
        assert (layer_numel m = numel w + numel b) as Hln
          by (unfold layer_numel; rewrite Hlp; cbn; lia).
        rewrite IH by done. cbn [flat_map record_offsets p_pos set_p_pos].
        rewrite Hlp, Hln, set_p_pos_twice, Nat.add_assoc, <- !app_assoc. done.
      * assert (layer_parameters m = [w]) as Hlp
          by (unfold layer_parameters; by rewrite Hwm, Hb).
        assert (layer_numel m = numel w) as Hln
          by (unfold layer_numel; rewrite Hlp; cbn; lia).
        rewrite IH by done. cbn [flat_map record_offsets p_pos set_p_pos].
        rewrite Hlp, Hln, set_p_pos_twice, <- !app_assoc. done.
    + rewrite decide_False by done. by apply IH.
Qed.

Lemma record_offsets_notin start ms pp k :
  k ∉ mod_id <$> ms → record_offsets start ms pp !! k = pp !! k.
Proof.
  revert start pp. induction ms as [|m ms IH]; intros start pp Hk; [done|].
  cbn in *. rewrite not_elem_of_cons in Hk. destruct Hk as [Hne Hk].
  rewrite IH by done. by rewrite lookup_insert_ne.
Qed.

Lemma record_offsets_lookup pre m post : ∀ start pp,
  NoDup (mod_id <$> (pre ++ m :: post)) →
  record_offsets start (pre ++ m :: post) pp !! mod_id m
    = Some (start + flat_offset pre).
Proof.
  induction pre as [|p pre IH]; intros start pp Hnd.
  - cbn in *. apply NoDup_cons in Hnd as [Hnotin _].
    rewrite record_offsets_notin by done.
    rewrite lookup_insert_eq. unfold flat_offset. cbn. f_equal. lia.
  - cbn in Hnd. apply NoDup_cons in Hnd as [_ Hnd].
    cbn. rewrite IH by done. unfold flat_offset. cbn. f_equal. lia.
Qed.

Lemma named_members_ids ps : ∀ memo x,
  x ∈ p_id <$> ps → x ∈ memo ∨ x ∈ p_id <$> named_members ps memo.
Proof.
  induction ps as [|p ps IH]; intros memo x Hx; cbn in *.
  - by apply elem_of_nil in Hx.
  - apply elem_of_cons in Hx. case_bool_decide as Hin.
    + destruct Hx as [->|Hx]; [by left | by apply IH].
    + destruct Hx as [->|Hx]; [right; cbn; by left|].
      destruct (IH ({[p_id p]} ∪ memo) x Hx) as [Hm|Hm].
      * apply elem_of_union in Hm as [Hm|Hm]; [|by left].
        apply elem_of_singleton in Hm as ->. right. cbn. by left.
      * right. cbn. by right.
Qed.

Lemma layer_parameters_owned md m p :
  m ∈ modules md → p ∈ layer_parameters m →
  p_id p ∈ p_id <$> parameters md.
Proof.
  intros Hm Hp. unfold parameters.
  destruct (named_members_ids (flat_map own_parameters (modules md)) ∅ (p_id p))
    as [Hin|Hin]; [|set_solver|done].
  apply list_elem_of_fmap. exists p. split; [done|].
  apply list_elem_of_In, in_flat_map. exists m.
  split; [by apply list_elem_of_In|].
  apply list_elem_of_In. unfold own_parameters, layer_parameters in *.
  rewrite app_assoc. apply elem_of_app. by left.
Qed.

(** The second assertion of [_get_individual_modules] never fails. *)
Lemma all_parameters_added md :
  size ((list_to_set (p_id <$> flat_map layer_parameters (retained_layers md)) : gset nat)
          ∖ list_to_set (p_id <$> parameters md)) = 0.
Proof.
  apply size_empty_iff. apply elem_of_equiv_empty. intros x Hx.
  apply elem_of_difference in Hx as [Hx Hnx]. apply Hnx.
  apply elem_of_list_to_set. apply elem_of_list_to_set in Hx.
  apply list_elem_of_fmap in Hx as (p & -> & Hp).
  apply list_elem_of_In, in_flat_map in Hp as (m & Hm & Hp).
  apply list_elem_of_In, list_elem_of_filter in Hm as [_ Hm].
  apply list_elem_of_In in Hp. by eapply layer_parameters_owned.
Qed.

Lemma get_individual_modules_run md (s : L2Loss) :
  layers_have_weight md →
  _get_individual_modules md s =
    (if bool_decide (retained_shapes md = trainable_shapes md)
     then Ok (retained_layers md) else Raise AssertionError,
     set_p_pos (record_offsets 0 (retained_layers md) (p_pos s)) s).
Proof.
  intros Hw. unfold _get_individual_modules, bind.
  rewrite individual_modules_loop_run by done. cbn [app].
  fold (retained_layers md). fold (retained_shapes md). fold (trainable_shapes md).
  case_bool_decide; [|done].
  rewrite bool_decide_true by apply all_parameters_added. done.
Qed.

Lemma L2Loss_new_run md (ld : data_loader R) :
  layers_have_weight md →
  L2Loss_new md ld =
    if bool_decide (retained_shapes md = trainable_shapes md)
    then Ok (set_mods (retained_layers md)
               (set_p_pos (record_offsets 0 (retained_layers md) ∅) (blank md ld)))
    else Raise AssertionError.
Proof.
  intros Hw. unfold L2Loss_new, __init__, bind.
  rewrite get_individual_modules_run by done.
  by case_bool_decide.
Qed.

End Construction.

Section Monad.
Context {R : Type} `{!Scalar R}.

Abbreviation M := (M R).
Abbreviation L2Loss := (L2Loss R).

Lemma wp_ret {A} (a : A) Q (s : L2Loss) : Q (Ok a) s → wp (ret a) Q s.
Proof. done. Qed.

Lemma wp_bind {A B} (m : M A) (k : A → M B) Q s :
  wp m (λ r s1, match r with
                | Ok a => wp (k a) Q s1
                | Raise e => Q (Raise e) s1
                end) s →
  wp (bind m k) Q s.
Proof. unfold wp, bind. by destruct (m s) as [[a|e] s1]. Qed.

Lemma wp_mono {A} (m : M A) (Q Q' : outcome A → L2Loss → Prop) s :
  wp m Q s → (∀ r s1, Q r s1 → Q' r s1) → wp m Q' s.
Proof. unfold wp. auto. Qed.

Lemma wp_eq {A} (m : M A) Q s r s1 : m s = (r, s1) → Q r s1 → wp m Q s.
Proof. unfold wp. by intros ->. Qed.

Lemma wp_keeps {A X} (f : L2Loss → X) (m : M A) (Q : outcome A → L2Loss → Prop) s :
  keeps f m → (∀ r s1, f s1 = f s → Q r s1) → wp m Q s.
Proof. unfold wp. auto. Qed.

(** *** Frame rules *)

Lemma keeps_ret {A X} (f : L2Loss → X) (a : A) : keeps f (ret a).
Proof. done. Qed.
Lemma keeps_raise {A X} (f : L2Loss → X) e : keeps f (raise (A:=A) e).
Proof. done. Qed.
Lemma keeps_lift {A X} (f : L2Loss → X) (o : outcome A) : keeps f (lift o).
Proof. done. Qed.
Lemma keeps_gets {A X} (f : L2Loss → X) (g : L2Loss → A) : keeps f (gets g).
Proof. done. Qed.
Lemma keeps_attr {A X} (f : L2Loss → X) (g : L2Loss → option A) : keeps f (attr g).
Proof. intros s. unfold attr. by destruct (g s). Qed.
Lemma keeps_item {A X} (f : L2Loss → X) (d : L2Loss → gmap nat A) k :
  keeps f (item d k).
Proof. intros s. unfold item. by destruct (d s !! k). Qed.
Lemma keeps_modify {X} (f : L2Loss → X) (g : L2Loss → L2Loss) :
  (∀ s, f (g s) = f s) → keeps f (modify g).
Proof. intros Hg s. apply Hg. Qed.
Lemma keeps_bind {A B X} (f : L2Loss → X) (m : M A) (k : A → M B) :
  keeps f m → (∀ a, keeps f (k a)) → keeps f (bind m k).
Proof.
  intros Hm Hk s. unfold bind. specialize (Hm s).
  destruct (m s) as [[a|e] s1]; cbn in *; [|done].
  by rewrite Hk.
Qed.
Lemma keeps_for_each {A X} (f : L2Loss → X) (l : list A) (body : A → M unit) :
  (∀ x, keeps f (body x)) → keeps f (for_each l body).
Proof.
  intros Hb. induction l as [|x l IH]; [done|].
  apply keeps_bind; [apply Hb | intros _; apply IH].
Qed.
Lemma keeps_weaken {A X Y} (f : L2Loss → X) (g : X → Y) (m : M A) :
  keeps f m → keeps (λ s, g (f s)) m.
Proof. intros Hm s. by rewrite Hm. Qed.
Lemma keeps_del {A X} (f : L2Loss → X) (get : L2Loss → option A) set :
  (∀ s, f (set None s) = f s) → keeps f (del get set).
Proof.
  intros Hs. apply keeps_bind; [apply keeps_attr|].
  intros _. by apply keeps_modify.
Qed.
End Monad.

Create HintDb keeps discriminated.

Ltac keeps_step :=
  first
    [ solve [auto 1 with keeps nocore]
    | assumption
    | match goal with IH : ∀ _, keeps _ _ |- _ => apply IH end
    | match goal with IH : ∀ _ _, keeps _ _ |- _ => apply IH end
    | apply keeps_ret | apply keeps_raise | apply keeps_lift | apply keeps_gets
    | apply keeps_attr | apply keeps_item
    | apply keeps_modify; intros ?; reflexivity
    | apply keeps_del; intros ?; reflexivity
    | apply keeps_bind; [|intros ?]
    | apply keeps_for_each; intros ?
    | match goal with
      | |- keeps _ (if ?b then _ else _) => destruct b
      | |- keeps _ (match ?o with _ => _ end) => destruct o
      end ].
Ltac keeps_tac := repeat keeps_step.

Section Hooks.
Context {R : Type} `{!Scalar R}.

Abbreviation M := (M R).
Abbreviation L2Loss := (L2Loss R).
Abbreviation batch := (batch R).

Lemma G_iadd_keeps_env bi bo (rhs : outcome (matrix R)) :
  keeps env (G_iadd_inner_outer bi bo rhs).
Proof. unfold G_iadd_inner_outer. keeps_tac. Qed.
Hint Resolve G_iadd_keeps_env : keeps.

Lemma cTv_iadd_keeps_env a b (rhs : outcome (vector R)) :
  keeps env (cTv_iadd a b rhs).
Proof. unfold cTv_iadd. keeps_tac. Qed.
Hint Resolve cTv_iadd_keeps_env : keeps.

Lemma call_hook_keeps_env (b : batch) m fn : keeps env (call_hook b m fn).
Proof.
  destruct fn; cbn;
    unfold _hook_savex_io, _hook_savex, _hook_compute_flat_grad, _hook_compute_m_norm.
  all: keeps_tac.
Qed.
Hint Resolve call_hook_keeps_env : keeps.

Lemma fire_keeps_env pt (b : batch) m : keeps env (fire pt b m).
Proof. unfold fire. keeps_tac. Qed.
Hint Resolve fire_keeps_env : keeps.

Lemma forward_backward_keeps_env (b : batch) : keeps env (forward_backward b).
Proof. unfold forward_backward. keeps_tac. Qed.

Lemma env_ctl (s s' : L2Loss) : env s' = env s → ctl s' = ctl s.
Proof. unfold env, ctl. intros [=]. congruence. Qed.

Lemma forward_backward_keeps_ctl (b : batch) : keeps ctl (forward_backward b).
Proof. intros s. apply env_ctl, forward_backward_keeps_env. Qed.

Hint Resolve forward_backward_keeps_ctl : keeps.

Lemma G_copy_keeps_ctl bo bi : keeps (ctl (R:=R)) (G_copy_transposed bo bi).
Proof. unfold G_copy_transposed. keeps_tac. Qed.
Hint Resolve G_copy_keeps_ctl : keeps.

Lemma inner_loop_keeps_ctl i_outer bs_outer rest :
  ∀ i_inner (inputs : batch),
    keeps ctl (inner_loop i_outer bs_outer i_inner rest inputs).
Proof.
  induction rest as [|b rest IH]; intros i_inner inputs; cbn [inner_loop];
    keeps_tac.
Qed.
Hint Resolve inner_loop_keeps_ctl : keeps.

Lemma outer_loop_keeps_ctl loader rest :
  ∀ i_outer, keeps (ctl (R:=R)) (outer_loop loader i_outer rest).
Proof.
  induction rest as [|b rest IH]; intros i_outer; cbn [outer_loop]; keeps_tac.
Qed.

Lemma m_norm_loop_keeps_ctl v bs rest :
  ∀ i, keeps (ctl (R:=R)) (m_norm_loop v bs i rest).
Proof.
  induction rest as [|b rest IH]; intros i; cbn [m_norm_loop]; keeps_tac.
Qed.
End Hooks.

#[global] Hint Resolve G_iadd_keeps_env cTv_iadd_keeps_env call_hook_keeps_env
  fire_keeps_env forward_backward_keeps_env forward_backward_keeps_ctl
  G_copy_keeps_ctl inner_loop_keeps_ctl outer_loop_keeps_ctl
  m_norm_loop_keeps_ctl : keeps.

Section Registry.
Context {R : Type} `{!Scalar R}.

Abbreviation M := (M R).
Abbreviation L2Loss := (L2Loss R).
Abbreviation batch := (batch R).

Lemma set_hooks_id (s : L2Loss) :
  set_hooks (hooks_table (model s)) (next_handle_id (model s)) s = s.
Proof. destruct s as [[] ?]. done. Qed.

Lemma set_hooks_twice t1 n1 t2 n2 (s : L2Loss) :
  set_hooks t2 n2 (set_hooks t1 n1 s) = set_hooks t2 n2 s.
Proof. by destruct s. Qed.

Lemma new_entries_ids hx hgy ms : ∀ h,
  h_id <$> new_entries hx hgy h ms = seq h (2 * length ms).
Proof.
  induction ms as [|m ms IH]; intros h; [done|].
  cbn [new_entries fmap list_fmap h_id length].
  replace (2 * S (length ms)) with (S (S (2 * length ms))) by lia.
  cbn [seq]. by rewrite <- IH.
Qed.

Lemma add_hooks_loop_run hx hgy ms : ∀ acc (s : L2Loss),
  add_hooks_loop hx hgy ms acc s =
    (Ok (acc ++ seq (next_handle_id (model s)) (2 * length ms)),
     set_hooks (hooks_table (model s) ++ new_entries hx hgy (next_handle_id (model s)) ms)
               (next_handle_id (model s) + 2 * length ms) s).
Proof.
  induction ms as [|m ms IH]; intros acc s.
  - cbn. rewrite !app_nil_r, Nat.add_0_r, set_hooks_id. done.
  - cbn [add_hooks_loop]. unfold bind at 1, register_hook at 1.
    unfold bind at 1, register_hook at 1. rewrite IH.
    destruct s as [[ms0 T h] ? ? ? ? ? ? ? ? ? ? ? ? ? ?].
    unfold set_hooks, set_model. cbn.
    rewrite <- !app_assoc, !Nat.add_0_r, !Nat.add_succ_r. cbn.
    done.
Qed.

Lemma add_hooks_run hx hgy (s : L2Loss) :
  _add_hooks hx hgy s =
    (Ok (new_handles s),
     set_hooks (hooks_table (model s) ++ new_entries hx hgy (next_handle_id (model s)) (mods s))
               (next_handle_id (model s) + 2 * length (mods s)) s).
Proof. unfold _add_hooks, bind, gets. by rewrite add_hooks_loop_run. Qed.

Lemma for_each_remove_run hs : ∀ s : L2Loss,
  for_each hs remove s =
    (Ok tt,
     set_hooks (filter (λ e, h_id e ∉ hs) (hooks_table (model s)))
               (next_handle_id (model s)) s).
Proof.
  induction hs as [|h hs IH]; intros s.
  - cbn. f_equal. rewrite <- (set_hooks_id s) at 1. f_equal.
    induction (hooks_table (model s)) as [|e l IHl]; [done|].
    rewrite filter_cons_True by apply not_elem_of_nil. by f_equal.
  - cbn [for_each]. unfold bind, remove at 1, modify. rewrite IH.
    fold (set_hooks (filter (λ e, h_id e ≠ h) (hooks_table (model s)))
            (next_handle_id (model s)) s).
    rewrite set_hooks_twice. f_equal. f_equal.
    cbn [model set_hooks set_model hooks_table].
    rewrite list_filter_filter. apply list_filter_iff.
    intros e. rewrite not_elem_of_cons. tauto.
Qed.

Lemma wp_bind_frame {A B X} (f : L2Loss → X) (m : M A) (k : A → M B) Q s :
  keeps f m →
  (∀ e s1, f s1 = f s → Q (Raise e) s1) →
  (∀ a s1, f s1 = f s → wp (k a) Q s1) →
  wp (bind m k) Q s.
Proof.
  intros Hm He Hk. apply wp_bind. unfold wp at 1.
  specialize (Hm s). destruct (m s) as [[a|e] s1]; cbn in *; auto.
Qed.

Lemma first_parameter_device_keeps {X} (f : L2Loss → X) :
  keeps f first_parameter_device.
Proof. unfold first_parameter_device. keeps_tac. Qed.
End Registry.

(** One step of a query between the registration of its hooks and their
    removal: the step keeps [ctl], so a raise leaves the tables as they are. *)
Ltac frame_step Hc :=
  apply (wp_bind_frame ctl);
  [ first [ apply first_parameter_device_keeps | apply outer_loop_keeps_ctl
          | apply m_norm_loop_keeps_ctl | keeps_tac ]
  | let e := fresh "e" in let s' := fresh "s" in let H := fresh "Hc" in
    intros e s' H; rewrite Hc in H
  | let a := fresh "a" in let s' := fresh "s" in let H := fresh "Hc" in
    intros a s' H; rewrite Hc in H; clear Hc; rename H into Hc ].

Section HookLifetime.
Context {R : Type} `{!Scalar R}.

Abbreviation M := (M R).
Abbreviation L2Loss := (L2Loss R).
Abbreviation batch := (batch R).

Lemma filter_none {A} (P : A → Prop) `{∀ x, Decision (P x)} (l : list A) :
  (∀ x, x ∈ l → ¬ P x) → filter P l = [].
Proof.
  induction l as [|x l IH]; intros Hl; [done|].
  rewrite filter_cons_False by (apply Hl; left).
  apply IH. intros y Hy. apply Hl. by right.
Qed.

Lemma filter_new_entries hx hgy h ms (old : list nat) :
  filter (λ e, h_id e ∉ old ++ seq h (2 * length ms)) (new_entries hx hgy h ms) = [].
Proof.
  apply filter_none. intros e He Hn. apply Hn.
  apply elem_of_app. right. rewrite <- (new_entries_ids hx hgy).
  apply list_elem_of_fmap. eauto.
Qed.

Lemma get_matrix_hooks (s : L2Loss) :
  wp get_matrix (hooks_post H_savex_io H_compute_flat_grad s) s.
Proof.
  unfold get_matrix.
  apply wp_bind. eapply wp_eq; [apply add_hooks_run|]. cbv beta iota.
  apply wp_bind. eapply wp_eq; [reflexivity|]. cbv beta iota.
  match goal with |- wp _ _ ?s1 => remember s1 as s1' eqn:Hs1 end.
  assert (ctl s1' = ctl s1') as Hc by done. revert Hc.
  generalize s1' at 1 3. intros s2 Hc.
  do 12 (frame_step Hc;
         [subst s1'; match goal with H : ctl _ = _ |- hooks_post _ _ _ _ _ =>
            injection H as Hm _ Hh _ _; split; [done|by rewrite Hm] end|]).
  apply wp_bind. eapply wp_eq; [reflexivity|]. cbv beta iota.
  apply wp_bind. eapply wp_eq; [apply for_each_remove_run|]. cbv beta iota.
  apply wp_ret. subst s1'. injection Hc as Hm _ Hh _ _. split; [done|].
  cbn -[Nat.mul]. rewrite Hm, Hh. cbn -[Nat.mul]. rewrite filter_app.
  unfold new_handles. rewrite filter_new_entries, app_nil_r. done.
Qed.

Lemma implicit_m_norm_hooks (v : vector R) (s : L2Loss) :
  wp (implicit_m_norm v) (hooks_post H_savex H_compute_m_norm s) s.
Proof.
  unfold implicit_m_norm.
  apply wp_bind. eapply wp_eq; [apply add_hooks_run|]. cbv beta iota.
  apply wp_bind. eapply wp_eq; [reflexivity|]. cbv beta iota.
  match goal with |- wp _ _ ?s1 => remember s1 as s1' eqn:Hs1 end.
  assert (ctl s1' = ctl s1') as Hc by done. revert Hc.
  generalize s1' at 1 3. intros s2 Hc.
  do 9 (frame_step Hc;
         [subst s1'; match goal with H : ctl _ = _ |- hooks_post _ _ _ _ _ =>
            injection H as Hm _ Hh _ _; split; [done|by rewrite Hm] end|]).
  apply wp_bind. eapply wp_eq; [reflexivity|]. cbv beta iota.
  apply wp_bind. eapply wp_eq; [apply for_each_remove_run|]. cbv beta iota.
  apply wp_ret. subst s1'. injection Hc as Hm _ Hh _ _. split; [done|].
  cbn -[Nat.mul]. rewrite Hm, Hh. cbn -[Nat.mul]. rewrite filter_app.
  unfold new_handles. rewrite filter_new_entries, app_nil_r. done.
Qed.

Lemma hooks_post_ok hx hgy (s : L2Loss) {A} (a : A) s' :
  hooks_post hx hgy s (Ok a) s' →
  handles s' = handles s ++ new_handles s ∧ ∀ h, h ∈ handles s' → h ∉ live s'.
Proof.
  intros [Hh Ht]. split; [done|]. intros h Hin Hlive.
  unfold live in Hlive. rewrite Ht in Hlive.
  apply list_elem_of_fmap in Hlive as (e & -> & He).
  apply list_elem_of_filter in He as [He _]. apply He. by rewrite <- Hh.
Qed.

Lemma hooks_post_raise hx hgy (s : L2Loss) {A} e s' :
  hooks_post hx hgy s (Raise (A:=A) e) s' →
  ∀ h, h ∈ new_handles s → h ∈ live s'.
Proof.
  intros [Hh Ht] h Hin. unfold live. rewrite Ht, fmap_app, new_entries_ids.
  apply elem_of_app. by right.
Qed.

Lemma add_hooks_live hx hgy (s : L2Loss) :
  (_add_hooks hx hgy s).1 = Ok (new_handles s)
  ∧ ∀ h, h ∈ new_handles s → h ∈ live (_add_hooks hx hgy s).2.
Proof.
  rewrite add_hooks_run. split; [done|]. intros h Hin.
  unfold live. cbn -[Nat.mul]. rewrite fmap_app, new_entries_ids.
  apply elem_of_app. by right.
Qed.

(** C5, amended. The handles a query registers are live once registered.
    When the query returns, every handle of [self.handles], in particular
    each one the query registered, is no more in the hook tables; when the
    query raises, every hook it registered is still registered. *)
Theorem hooks_removed_only_on_return (s : L2Loss) (v : vector R) :
  (∀ hx hgy, (_add_hooks hx hgy s).1 = Ok (new_handles s)
             ∧ ∀ h, h ∈ new_handles s → h ∈ live (_add_hooks hx hgy s).2)
  ∧ (∀ g s', get_matrix s = (Ok g, s') →
       handles s' = handles s ++ new_handles s ∧ ∀ h, h ∈ handles s' → h ∉ live s')
  ∧ (∀ e s', get_matrix s = (Raise e, s') →
       ∀ h, h ∈ new_handles s → h ∈ live s')
  ∧ (∀ n s', implicit_m_norm v s = (Ok n, s') →
       handles s' = handles s ++ new_handles s ∧ ∀ h, h ∈ handles s' → h ∉ live s')
  ∧ (∀ e s', implicit_m_norm v s = (Raise e, s') →
       ∀ h, h ∈ new_handles s → h ∈ live s').
Proof.
  split; [intros; apply add_hooks_live|].
  pose proof (get_matrix_hooks s) as Hg.
  pose proof (implicit_m_norm_hooks v s) as Hn. unfold wp in Hg, Hn.
  split; [|split; [|split]].
  - intros g s' E. rewrite E in Hg. by apply hooks_post_ok in Hg.
  - intros e s' E. rewrite E in Hg. by eapply hooks_post_raise.
  - intros g s' E. rewrite E in Hn. by apply hooks_post_ok in Hn.
  - intros e s' E. rewrite E in Hn. by eapply hooks_post_raise.
Qed.
End HookLifetime.

Section Unsupported.
Context {R : Type} `{!Scalar R}.

Abbreviation M := (M R).
Abbreviation L2Loss := (L2Loss R).
Abbreviation batch := (batch R).

Lemma raises_bind_l {A B} (m : M A) (k : A → M B) s :
  raises m s → raises (bind m k) s.
Proof. intros (e & s' & E). exists e, s'. unfold bind. by rewrite E. Qed.

Lemma raises_bind_r {A B} (m : M A) (k : A → M B) s :
  (∀ a s1, m s = (Ok a, s1) → raises (k a) s1) → raises (bind m k) s.
Proof.
  intros Hk. unfold raises, bind.
  destruct (m s) as [[a|e] s1] eqn:E; [by apply Hk | eauto].
Qed.

Lemma attr_ok_inv {A} (f : L2Loss → option A) s a s' :
  attr f s = (Ok a, s') → f s = Some a ∧ s' = s.
Proof. unfold attr. destruct (f s); [|done]. by intros [= <- <-]. Qed.

Lemma for_each_raises {A} (I : L2Loss → Prop) (l : list A) (body : A → M unit) x :
  x ∈ l →
  (∀ y s, I s → I (body y s).2) →
  (∀ s, I s → raises (body x) s) →
  ∀ s, I s → raises (for_each l body) s.
Proof.
  intros Hx Hinv Hr. induction l as [|y l IH]; intros s Hs.
  - by apply elem_of_nil in Hx.
  - cbn [for_each]. apply elem_of_cons in Hx as [<-|Hx].
    + by apply raises_bind_l, Hr.
    + apply raises_bind_r. intros [] s1 E. apply IH; [done|].
      specialize (Hinv y s Hs). by rewrite E in Hinv.
Qed.

(** The accumulation step of [get_matrix] on a layer that is not [Linear]:
    the hook raises and leaves the object, [G] included, as it was. *)
Lemma hook_compute_flat_grad_unsupported m gy (s : L2Loss) :
  is_Linear m = false →
  outerloop_switch s = Some false →
  _hook_compute_flat_grad m gy s =
    (Raise (if bool_decide (is_Some (gy_outer s !! mod_id m)
                            ∧ is_Some (x_outer s !! mod_id m)
                            ∧ is_Some (x_inner s !! mod_id m)
                            ∧ is_Some (p_pos s !! mod_id m))
            then NotImplementedError else KeyError), s).
Proof.
  intros Hl Hsw. unfold _hook_compute_flat_grad, bind, attr, item, raise.
  rewrite Hsw, Hl.
  destruct (gy_outer s !! mod_id m), (x_outer s !! mod_id m),
    (x_inner s !! mod_id m), (p_pos s !! mod_id m);
    (rewrite bool_decide_true by (repeat split; eauto); done)
    || (rewrite bool_decide_false; [done|]; intros (?&?&?&?);
        repeat match goal with H : is_Some None |- _ => by destruct H end).
Qed.

(** The accumulation step of [implicit_m_norm] on a layer that is not
    [Linear]. *)
Lemma hook_compute_m_norm_unsupported m gy (s : L2Loss) :
  is_Linear m = false →
  _hook_compute_m_norm m gy s =
    (Raise (if bool_decide (is_Some (xs s !! mod_id m)
                            ∧ is_Some (p_pos s !! mod_id m))
            then NotImplementedError else KeyError), s).
Proof.
  intros Hl. unfold _hook_compute_m_norm, bind, attr, item, raise.
  rewrite Hl.
  destruct (xs s !! mod_id m), (p_pos s !! mod_id m);
    (rewrite bool_decide_true by (repeat split; eauto); done)
    || (rewrite bool_decide_false; [done|]; intros (?&?);
        repeat match goal with H : is_Some None |- _ => by destruct H end).
Qed.

Lemma fire_run pt (b : batch) m (s : L2Loss) :
  fire pt b m s = for_each (hooks_of (hooks_table (model s)) pt m) (call_hook b m) s.
Proof. done. Qed.

Lemma env_inv (s0 : L2Loss) {A} (m : M A) s :
  keeps env m → env s = env s0 → env (m s).2 = env s0.
Proof. intros Hk <-. apply Hk. Qed.

(** A pass in which a registered backward hook raises on a module that the
    closure applies does not complete. *)
Lemma forward_backward_raises (b : batch) m fn h (s : L2Loss) :
  m ∈ modules (model s) →
  applied b (mod_id m) = true →
  mk_hook h (mod_id m) backward fn ∈ hooks_table (model s) →
  (∀ s', env s' = env s → raises (call_hook b m fn) s') →
  raises (forward_backward b) s.
Proof.
  intros Hm Ha Hh Hr. unfold forward_backward.
  apply raises_bind_r. intros ms s1 [= <- <-].
  apply raises_bind_r. intros [] s1 E.
  assert (env s1 = env s) as Hs1.
  { pose proof (keeps_for_each env (applied_modules b (modules (model s)))
       (fire forward_pre b) (fire_keeps_env forward_pre b) s) as Hk.
    by rewrite E in Hk. }
  apply (for_each_raises (λ s', env s' = env s) _ _ m); [|intros|intros s2 Hs2|done].
  - apply elem_of_reverse. by apply list_elem_of_filter.
  - apply env_inv; [apply fire_keeps_env|done].
  - unfold raises. rewrite fire_run.
    apply (for_each_raises (λ s', env s' = env s) _ _ fn); [|intros|done|done].
    + unfold hooks_of. apply list_elem_of_fmap.
      exists (mk_hook h (mod_id m) backward fn). split; [done|].
      apply list_elem_of_filter. split; [done|].
      assert (model s2 = model s) as -> by (by injection Hs2). done.
    + apply env_inv; [apply call_hook_keeps_env|done].
Qed.

Lemma new_entries_backward hx hgy ms m : ∀ h,
  m ∈ ms → ∃ h', mk_hook h' (mod_id m) backward hgy ∈ new_entries hx hgy h ms.
Proof.
  induction ms as [|m' ms IH]; intros h Hm; [by apply elem_of_nil in Hm|].
  apply elem_of_cons in Hm as [->|Hm].
  - exists (S h). cbn. right. left.
  - destruct (IH (S (S h)) Hm) as [h' Hh']. exists h'. cbn. right. by right.
Qed.

Lemma inner_pass_unsupported (b : batch) m h (s : L2Loss) :
  m ∈ modules (model s) →
  applied b (mod_id m) = true →
  is_Linear m = false →
  mk_hook h (mod_id m) backward H_compute_flat_grad ∈ hooks_table (model s) →
  outerloop_switch s = Some false →
  raises (forward_backward b) s.
Proof.
  intros Hm Ha Hl Hh Hsw. eapply forward_backward_raises; [done..|].
  intros s' Hs'. eexists _, _. cbn [call_hook].
  apply hook_compute_flat_grad_unsupported; [done|].
  assert (outerloop_switch s' = outerloop_switch s) as -> by (by injection Hs'). done.
Qed.

(** What the passes and the copy by symmetry leave as it is: the model
    with its hook tables and the switch. *)
Lemma forward_backward_view (b : batch) (s : L2Loss) r s1 :
  forward_backward b s = (r, s1) →
  model s1 = model s ∧ outerloop_switch s1 = outerloop_switch s.
Proof.
  intros E. pose proof (forward_backward_keeps_env b s) as Hk.
  rewrite E in Hk. cbn in Hk. by injection Hk.
Qed.

Lemma G_copy_view bo bi (s : L2Loss) r s1 :
  G_copy_transposed bo bi s = (r, s1) →
  model s1 = model s ∧ outerloop_switch s1 = outerloop_switch s.
Proof.
  intros E.
  assert (keeps (λ s : L2Loss, (model s, outerloop_switch s))
            (G_copy_transposed bo bi)) as Hk
    by (unfold G_copy_transposed; keeps_tac).
  specialize (Hk s). rewrite E in Hk. cbn in Hk. by injection Hk.
Qed.

(** The inner loop of an outer batch that applies the layer: unless a pass
    before raises, the pass on the outer batch itself, the last of the inner
    loop, reaches the accumulation step of the layer. *)
Lemma inner_loop_unsupported i_outer bs_outer (b : batch) post m h pre :
  ∀ i_inner inputs (s : L2Loss),
    i_inner + length pre = i_outer →
    applied b (mod_id m) = true →
    m ∈ modules (model s) →
    is_Linear m = false →
    mk_hook h (mod_id m) backward H_compute_flat_grad ∈ hooks_table (model s) →
    outerloop_switch s = Some false →
    raises (inner_loop i_outer bs_outer i_inner (pre ++ b :: post) inputs) s.
Proof.
  induction pre as [|b' pre IH]; intros i_inner inputs s Hi Ha Hm Hl Hh Hsw.
  - cbn in Hi. cbn [app inner_loop].
    replace (i_outer <? i_inner) with false by (symmetry; apply Nat.ltb_ge; lia).
    apply raises_bind_l. by eapply inner_pass_unsupported.
  - cbn in Hi. cbn [app inner_loop].
    replace (i_outer <? i_inner) with false by (symmetry; apply Nat.ltb_ge; lia).
    apply raises_bind_r. intros [] s1 E1.
    apply forward_backward_view in E1 as [Hm1 Hsw1].
    apply raises_bind_r. intros [] s2 E2.
    assert (model s2 = model s1 ∧ outerloop_switch s2 = outerloop_switch s1)
      as [Hm2 Hsw2].
    { destruct (i_inner <? i_outer); [by eapply G_copy_view|].
      by injection E2 as <-. }
    apply raises_bind_r. intros ei s3 E3.
    apply attr_ok_inv in E3 as [_ ->].
    apply raises_bind_r. intros [] s4 [= <-].
    apply IH; cbn; rewrite ?Hm2, ?Hm1, ?Hsw2, ?Hsw1; try done. lia.
Qed.

(** The outer loop over batches of which one applies the layer. *)
Lemma outer_loop_unsupported m h rest : ∀ pre (s : L2Loss),
  Exists (λ b, applied b (mod_id m) = true) rest →
  m ∈ modules (model s) →
  is_Linear m = false →
  mk_hook h (mod_id m) backward H_compute_flat_grad ∈ hooks_table (model s) →
  raises (outer_loop (pre ++ rest) (length pre) rest) s.
Proof.
  induction rest as [|b rest IH]; intros pre s Hex Hm Hl Hh.
  - by apply Exists_nil in Hex.
  - cbn [outer_loop].
    apply raises_bind_r. intros [] s1 [= <-].
    apply raises_bind_r. intros [] s2 E2.
    apply forward_backward_view in E2 as [Hm2 _]. cbn in Hm2.
    apply raises_bind_r. intros [] s3 [= <-].
    apply raises_bind_r. intros [] s4 [= <-].
    apply Exists_cons in Hex as [Ha|Hex].
    + apply raises_bind_l.
      eapply (inner_loop_unsupported _ _ b rest m h pre 0); cbn; rewrite ?Hm2; done.
    + apply raises_bind_r. intros inputs s5 E5.
      pose proof (inner_loop_keeps_ctl (length pre) (targets_size0 b)
                    (pre ++ b :: rest) 0 b
                    (set_e_inner (Some 0) (set_outerloop_switch (Some false) s2)))
        as Hk.
      rewrite E5 in Hk. cbn in Hk.
      assert (model s5 = model s) as Hm5 by (injection Hk as -> _; done).
      apply raises_bind_r. intros eo s6 E6.
      apply attr_ok_inv in E6 as [_ ->].
      apply raises_bind_r. intros [] s7 [= <-].
      replace (pre ++ b :: rest) with ((pre ++ [b]) ++ rest)
        by (by rewrite <- app_assoc).
      replace (S (length pre)) with (length (pre ++ [b]))
        by (rewrite length_app; cbn; lia).
      apply IH; cbn; rewrite ?Hm5; done.
Qed.

Lemma first_parameter_device_state (s : L2Loss) r s' :
  first_parameter_device s = (r, s') → s' = s.
Proof.
  unfold first_parameter_device, bind, gets, raise, ret.
  destruct (parameters (model s)); by intros [= _ <-].
Qed.

Lemma get_matrix_unsupported m (s : L2Loss) :
  m ∈ mods s → m ∈ modules (model s) →
  is_Linear m = false →
  Exists (λ b, applied b (mod_id m) = true) (batches (dataloader s)) →
  raises get_matrix s.
Proof.
  intros Hmods Hm Hl Hld. unfold get_matrix.
  apply raises_bind_r. intros new s1 E1. rewrite add_hooks_run in E1.
  injection E1 as <- <-.
  apply raises_bind_r. intros [] s2 [= <-].
  apply raises_bind_r. intros [] s3 E3.
  apply first_parameter_device_state in E3 as ->.
  apply raises_bind_r. intros n s4 [= <- <-].
  apply raises_bind_r. intros [] s5 [= <-].
  apply raises_bind_r. intros [] s6 [= <-].
  apply raises_bind_r. intros loader s7 [= <- <-].
  apply raises_bind_l.
  destruct (new_entries_backward H_savex_io H_compute_flat_grad (mods s) m
              (next_handle_id (model s)) Hmods) as [h Hh].
  cbn [dataloader set_G set_e_outer set_handles set_hooks set_model].
  apply (outer_loop_unsupported m h (batches (dataloader s)) []); cbn; try done.
  apply elem_of_app. by right.
Qed.

Lemma m_norm_pass_unsupported (b : batch) m h (s : L2Loss) :
  m ∈ modules (model s) →
  applied b (mod_id m) = true →
  is_Linear m = false →
  mk_hook h (mod_id m) backward H_compute_m_norm ∈ hooks_table (model s) →
  raises (forward_backward b) s.
Proof.
  intros Hm Ha Hl Hh. eapply forward_backward_raises; [done..|].
  intros s' Hs'. eexists _, _. cbn [call_hook].
  by apply hook_compute_m_norm_unsupported.
Qed.

(** The loop of [implicit_m_norm] over batches of which one applies the
    layer. *)
Lemma m_norm_loop_unsupported (v : vector R) bs m h rest : ∀ i (s : L2Loss),
  Exists (λ b, applied b (mod_id m) = true) rest →
  m ∈ modules (model s) →
  is_Linear m = false →
  mk_hook h (mod_id m) backward H_compute_m_norm ∈ hooks_table (model s) →
  raises (m_norm_loop v bs i rest) s.
Proof.
  induction rest as [|b rest IH]; intros i s Hex Hm Hl Hh.
  - by apply Exists_nil in Hex.
  - cbn [m_norm_loop].
    apply raises_bind_r. intros [] s1 [= <-].
    apply Exists_cons in Hex as [Ha|Hex].
    + apply raises_bind_l. by eapply m_norm_pass_unsupported.
    + apply raises_bind_r. intros [] s2 E2.
      apply forward_backward_view in E2 as [Hm2 _]. cbn in Hm2.
      apply IH; rewrite ?Hm2; done.
Qed.

Lemma implicit_m_norm_unsupported v m (s : L2Loss) :
  m ∈ mods s → m ∈ modules (model s) →
  is_Linear m = false →
  Exists (λ b, applied b (mod_id m) = true) (batches (dataloader s)) →
  raises (implicit_m_norm v) s.
Proof.
  intros Hmods Hm Hl Hld. unfold implicit_m_norm.
  apply raises_bind_r. intros new s1 E1. rewrite add_hooks_run in E1.
  injection E1 as <- <-.
  apply raises_bind_r. intros [] s2 [= <-].
  apply raises_bind_r. intros [] s3 E3.
  apply first_parameter_device_state in E3 as ->.
  apply raises_bind_r. intros n s4 [= <- <-].
  apply raises_bind_r. intros bs s5 [= <- <-].
  apply raises_bind_r. intros [] s6 [= <-].
  apply raises_bind_r. intros loader s7 [= <- <-].
  apply raises_bind_l.
  destruct (new_entries_backward H_savex H_compute_m_norm (mods s) m
              (next_handle_id (model s)) Hmods) as [h Hh].
  cbn [dataloader set_cTv set_handles set_hooks set_model].
  apply (m_norm_loop_unsupported v _ m h); cbn; try done.
  apply elem_of_app. by right.
Qed.
End Unsupported.

Section UnsupportedClaims.
Context {R : Type} `{!Scalar R}.

Abbreviation M := (M R).
Abbreviation L2Loss := (L2Loss R).
Abbreviation batch := (batch R).

(** C8. At the accumulation step, a layer whose class is not [Linear]
    makes the hook raise, [NotImplementedError] when the captured tensors
    of the layer are there, and the object is left as it was: nothing is
    accumulated. The raise ends the query: with such a layer retained, and
    reached in a pass, that is, applied by the closure on some batch of the
    data loader, neither [get_matrix] nor [implicit_m_norm] returns. *)
Theorem unsupported_layer_halts_query (m : nn_module) (gy : matrix R)
    (v : vector R) (s : L2Loss) :
  is_Linear m = false →
  (outerloop_switch s = Some false →
     _hook_compute_flat_grad m gy s =
       (Raise (if bool_decide (is_Some (gy_outer s !! mod_id m)
                               ∧ is_Some (x_outer s !! mod_id m)
                               ∧ is_Some (x_inner s !! mod_id m)
                               ∧ is_Some (p_pos s !! mod_id m))
               then NotImplementedError else KeyError), s))
  ∧ _hook_compute_m_norm m gy s =
      (Raise (if bool_decide (is_Some (xs s !! mod_id m)
                              ∧ is_Some (p_pos s !! mod_id m))
              then NotImplementedError else KeyError), s)
  ∧ (m ∈ mods s → m ∈ modules (model s) →
     Exists (λ b, applied b (mod_id m) = true) (batches (dataloader s)) →
     raises get_matrix s ∧ raises (implicit_m_norm v) s).
Proof.
  intros Hl. split; [|split].
  - intros Hsw. by apply hook_compute_flat_grad_unsupported.
  - by apply hook_compute_m_norm_unsupported.
  - intros Hmods Hm Hld. split.
    + by eapply get_matrix_unsupported.
    + by eapply implicit_m_norm_unsupported.
Qed.

Lemma named_members_distinct ps : ∀ memo,
  NoDup (p_id <$> ps) → (∀ p, p ∈ ps → p_id p ∉ memo) →
  named_members ps memo = ps.
Proof.
  induction ps as [|p ps IH]; intros memo Hnd Hm; [done|].
  cbn in *. apply NoDup_cons in Hnd as [Hp Hnd].
  rewrite bool_decide_false by (apply Hm; left).
  f_equal. apply IH; [done|]. intros q Hq Hin.
  apply elem_of_union in Hin as [Hin|Hin].
  - apply elem_of_singleton in Hin. apply Hp. rewrite <- Hin.
    apply list_elem_of_fmap. eauto.
  - eapply Hm; [right; done|done].
Qed.

Lemma filter_all {A} (P : A → Prop) `{∀ x, Decision (P x)} (l : list A) :
  Forall P l → filter P l = l.
Proof.
  induction 1 as [|x l Hx Hl IH]; [done|].
  rewrite filter_cons_True by done. by f_equal.
Qed.

Lemma filter_nothing {A} (P : A → Prop) `{∀ x, Decision (P x)} (l : list A) :
  Forall (λ x, ¬ P x) l → filter P l = [].
Proof.
  induction 1 as [|x l Hx Hl IH]; [done|].
  by rewrite filter_cons_False.
Qed.

Lemma supported_layout_shapes md :
  supported_layout md → retained_shapes md = trainable_shapes md.
Proof.
  intros [Hnd Hall]. unfold retained_shapes, trainable_shapes, parameters.
  rewrite named_members_distinct; [|done|set_solver]. f_equal.
  unfold retained_layers. clear Hnd.
  induction Hall as [|m ms Hm Hms IH]; [done|].
  cbn [flat_map]. rewrite filter_app, filter_cons, <- IH.
  destruct (retained m) eqn:Hr.
  - destruct Hm as [Hm _]. destruct (Hm eq_refl) as (Hw & Ho & Ht).
    rewrite decide_True by done.
    cbn [flat_map]. f_equal. unfold own_parameters. rewrite Ho, app_nil_r.
    symmetry. by apply filter_all.
  - destruct Hm as [_ Hm]. specialize (Hm eq_refl).
    rewrite decide_False by done.
    rewrite (filter_nothing _ (own_parameters m)); [done|].
    eapply Forall_impl; [exact Hm|]. intros p Hp. cbn in Hp. by rewrite Hp.
Qed.

Lemma supported_layout_weight md : supported_layout md → layers_have_weight md.
Proof.
  intros [_ Hall]. eapply Forall_impl; [exact Hall|].
  intros m [Hm _] Hr. by destruct (Hm Hr).
Qed.

(** C4, amended. A model whose parameters all belong, trainable and
    unshared, to [Linear] and [Conv2d] layers is accepted by the
    constructor, which retains these layers. The queries do not support
    the [Conv2d] ones: when a retained layer that is not [Linear] reaches
    the accumulation step, the closure applying it on some batch of the
    data loader, [get_matrix] and [implicit_m_norm] raise instead of
    returning. *)
Theorem conv2d_accepted_by_constructor_only md (ld : data_loader R)
    (v : vector R) :
  supported_layout md →
  ∃ s, L2Loss_new md ld = Ok s
       ∧ mods s = retained_layers md
       ∧ ∀ m, m ∈ retained_layers md → is_Linear m = false →
           Exists (λ b, applied b (mod_id m) = true) (batches ld) →
           raises get_matrix s ∧ raises (implicit_m_norm v) s.
Proof.
  intros Hs. rewrite L2Loss_new_run by by apply supported_layout_weight.
  rewrite bool_decide_true by by apply supported_layout_shapes.
  eexists. split; [done|]. split; [done|].
  intros m Hm Hl Hld.
  assert (m ∈ modules md) as Hmd
    by (by apply list_elem_of_filter in Hm as [_ ?]).
  split.
  - by eapply get_matrix_unsupported.
  - by eapply implicit_m_norm_unsupported.
Qed.
End UnsupportedClaims.

Section Slices.
Context {R : Type} `{!Scalar R}.

Abbreviation M := (M R).
Abbreviation L2Loss := (L2Loss R).
Abbreviation batch := (batch R).

Lemma bind_ext {A B} (m : M A) (k k' : A → M B) s :
  (∀ a s1, k a s1 = k' a s1) → bind m k s = bind m k' s.
Proof. intros Hk. unfold bind. by destruct (m s) as [[a|e] s1]. Qed.

Lemma nominal_batches_cons bs (b : batch) l :
  nominal_batches bs (b :: l) → l ≠ [] → examples b = bs ∧ nominal_batches bs l.
Proof. destruct l; [done|]. cbn. tauto. Qed.

(** The slice the code takes for a batch is the slice of its examples. *)
Lemma nominal_slice (v : vector R) bs (b : batch) l i :
  nominal_batches bs (b :: l) →
  vlen v = i + example_offset (b :: l) →
  vslice v i (i + bs) = vslice v i (i + examples b).
Proof.
  intros Hn Hv. destruct l as [|b' l].
  - cbn in Hn. unfold example_offset in Hv. cbn in Hv.
    unfold vslice. f_equal. lia.
  - destruct Hn as [-> _]. done.
Qed.

Lemma m_norm_loop_nominal (v : vector R) bs l : ∀ i (s : L2Loss),
  nominal_batches bs l →
  vlen v = i + example_offset l →
  m_norm_loop v bs i l s = m_norm_loop_by_examples v i l s.
Proof.
  induction l as [|b l IH]; intros i s Hn Hv; [done|].
  cbn [m_norm_loop m_norm_loop_by_examples].
  rewrite (nominal_slice v bs b l i) by done.
  apply bind_ext. intros _ s1. apply bind_ext. intros _ s2.
  destruct l as [|b' l].
  - done.
  - apply nominal_batches_cons in Hn as [Hb Hn]; [|done].
    rewrite Hb. apply IH; [done|].
    unfold example_offset in *. cbn in *. lia.
Qed.

(** C10. The code slices [v] with the nominal [batch_size]. When [v] has
    one entry per example and every batch but the last has [batch_size]
    examples, the last having at most as many, the loop of
    [implicit_m_norm] is the loop that gives the batch at example offset
    [o] the slice [v[o : o + n_b]] of its own [n_b] examples; that slice has
    [n_b] entries, the entries [o], ..., [o + n_b - 1] of [v]. *)
Theorem nominal_slices_are_batch_slices (v : vector R) bs (l : list batch) :
  nominal_batches bs l →
  vlen v = example_offset l →
  (∀ s : L2Loss, m_norm_loop v bs 0 l s = m_norm_loop_by_examples v 0 l s)
  ∧ ∀ pre b post, l = pre ++ b :: post →
      let c := vslice v (length pre * bs) (length pre * bs + bs) in
      c = vslice v (example_offset pre) (example_offset pre + examples b)
      ∧ vlen c = examples b
      ∧ ∀ j, j < examples b → vat c j = vat v (example_offset pre + j).
Proof.
  intros Hn Hv. split; [intros s; by apply m_norm_loop_nominal|].
  intros pre b post ->. revert v Hn Hv.
  assert (∀ i (v : vector R),
    nominal_batches bs (pre ++ b :: post) →
    vlen v = i + example_offset (pre ++ b :: post) →
    let c := vslice v (i + length pre * bs) (i + length pre * bs + bs) in
    c = vslice v (i + example_offset pre) (i + example_offset pre + examples b)
    ∧ vlen c = examples b
    ∧ ∀ j, j < examples b → vat c j = vat v (i + example_offset pre + j)) as Hgen.
  { induction pre as [|p pre IH]; intros i v Hn Hv.
    - cbn [app length] in *. unfold example_offset at 1 2 3. cbn [fmap list_fmap sum_list].
      rewrite Nat.mul_0_l, !Nat.add_0_r.
      cbv zeta. rewrite (nominal_slice v bs b post i) by done.
      assert (examples b ≤ example_offset (b :: post)) as Hle
        by (unfold example_offset; cbn; lia).
      unfold vslice. cbn [vlen vat]. split; [done|]. split; [lia|].
      intros j Hj. f_equal. lia.
    - cbn [app] in Hn. apply nominal_batches_cons in Hn as [Hp Hn];
        [|by destruct pre].
      specialize (IH (i + bs) v Hn).
      assert (example_offset (p :: pre) = bs + example_offset pre) as Hoff
        by (unfold example_offset; cbn; by rewrite Hp).
      assert (example_offset ((p :: pre) ++ b :: post)
              = bs + example_offset (pre ++ b :: post)) as Hoff'
        by (unfold example_offset; cbn; by rewrite Hp).
      rewrite Hoff. rewrite Hoff' in Hv.
      replace (i + length (p :: pre) * bs) with (i + bs + length pre * bs)
        by (cbn; lia).
      replace (i + (bs + example_offset pre)) with (i + bs + example_offset pre) by lia.
      apply IH. lia. }
  intros v Hn Hv. apply (Hgen 0 v Hn). by rewrite Nat.add_0_l.
Qed.
End Slices.

Section Dispatch.
Context {R : Type} `{!Scalar R}.

Abbreviation M := (M R).
Abbreviation L2Loss := (L2Loss R).
Abbreviation batch := (batch R).

Lemma NoDup_fmap_inj_on {A B} (f : A → B) (l : list A) x y :
  NoDup (f <$> l) → x ∈ l → y ∈ l → f x = f y → x = y.
Proof.
  intros Hnd Hx Hy Hxy.
  apply list_elem_of_lookup in Hx as [i Hi], Hy as [j Hj].
  assert (i = j) as ->; [|congruence].
  eapply NoDup_lookup; [exact Hnd| |]; rewrite list_lookup_fmap.
  - by rewrite Hi.
  - rewrite Hj. cbn. by rewrite Hxy.
Qed.

Lemma filter_ext_in {A} (P Q : A → Prop) `{∀ x, Decision (P x)} `{∀ x, Decision (Q x)}
    (l : list A) :
  (∀ x, x ∈ l → (P x ↔ Q x)) → filter P l = filter Q l.
Proof.
  induction l as [|x l IH]; intros HPQ; [done|].
  rewrite !filter_cons.
  rewrite IH by (intros y Hy; apply HPQ; by right).
  destruct (decide (P x)) as [HP|HP], (decide (Q x)) as [HQ|HQ]; try done.
  - destruct HQ. apply HPQ; [left|done].
  - destruct HP. apply HPQ; [left|done].
Qed.

Lemma hooks_of_new_entries_notin hx hgy pt ms m : ∀ h,
  mod_id m ∉ mod_id <$> ms → hooks_of (new_entries hx hgy h ms) pt m = [].
Proof.
  induction ms as [|m' ms IH]; intros h Hm; [done|].
  cbn in Hm. apply not_elem_of_cons in Hm as [Hne Hm].
  unfold hooks_of in *. cbn [new_entries].
  rewrite !filter_cons_False by (cbn; intros [? _]; congruence).
  by apply IH.
Qed.

Lemma hooks_of_new_entries hx hgy ms m : ∀ h,
  NoDup (mod_id <$> ms) →
  hooks_of (new_entries hx hgy h ms) forward_pre m
    = (if decide (mod_id m ∈ mod_id <$> ms) then [hx] else [])
  ∧ hooks_of (new_entries hx hgy h ms) backward m
    = (if decide (mod_id m ∈ mod_id <$> ms) then [hgy] else []).
Proof.
  induction ms as [|m' ms IH]; intros h Hnd.
  - cbn. rewrite decide_False by apply not_elem_of_nil. done.
  - cbn in Hnd. apply NoDup_cons in Hnd as [Hm' Hnd].
    destruct (decide (mod_id m = mod_id m')) as [Heq|Hne].
    + assert (mod_id m ∈ mod_id <$> m' :: ms) as Hin by (cbn; rewrite Heq; left).
      destruct (decide (mod_id m ∈ mod_id <$> m' :: ms)); [|done].
      pose proof (hooks_of_new_entries_notin hx hgy forward_pre ms m (S (S h))) as Hf.
      pose proof (hooks_of_new_entries_notin hx hgy backward ms m (S (S h))) as Hb.
      rewrite Heq in Hf, Hb. specialize (Hf Hm'). specialize (Hb Hm').
      unfold hooks_of in *. cbn [new_entries]. split.
      * rewrite filter_cons_True by (cbn; by rewrite Heq).
        rewrite filter_cons_False by (cbn; intros [_ ?]; congruence).
        cbn. by rewrite Hf.
      * rewrite filter_cons_False by (cbn; intros [_ ?]; congruence).
        rewrite filter_cons_True by (cbn; by rewrite Heq).
        cbn. by rewrite Hb.
    + destruct (IH (S (S h)) Hnd) as [IHf IHb].
      unfold hooks_of in *. cbn [new_entries].
      rewrite !filter_cons_False by (cbn; intros [? _]; congruence).
      rewrite IHf, IHb.
      destruct (decide (mod_id m ∈ mod_id <$> ms)) as [Hin|Hin];
        destruct (decide (mod_id m ∈ mod_id <$> m' :: ms)) as [Hin'|Hin']; try done.
      * destruct Hin'. cbn. by right.
      * cbn in Hin'. apply elem_of_cons in Hin' as [?|?]; done.
Qed.

Lemma for_each_fire pt fn tbl (P : nn_module → Prop) `{∀ m, Decision (P m)}
    (l : list nn_module) (b : batch) :
  (∀ m, m ∈ l → hooks_of tbl pt m = if decide (P m) then [fn] else []) →
  ∀ s : L2Loss, hooks_table (model s) = tbl →
    for_each l (fire pt b) s = for_each (filter P l) (λ m, call_hook b m fn) s.
Proof.
  induction l as [|m l IH]; intros Hh s Ht; [done|].
  assert (∀ m, m ∈ l → hooks_of tbl pt m = if decide (P m) then [fn] else [])
    as Hh' by (intros; apply Hh; by right).
  assert (∀ s1, env s1 = env s → hooks_table (model s1) = tbl) as Hkeep.
  { intros s1 Hs1. by assert (model s1 = model s) as -> by (by injection Hs1). }
  cbn [for_each]. rewrite filter_cons. unfold bind at 1.
  rewrite fire_run, Ht, (Hh m) by left.
  destruct (decide (P m)) as [HP|HP]; cbn [for_each].
  - unfold bind.
    pose proof (call_hook_keeps_env b m fn s) as Hk.
    destruct (call_hook b m fn s) as [[[]|e] s1]; cbn in *; [|done].
    by apply IH, Hkeep.
  - cbn. by apply IH.
Qed.

Lemma retained_by_id md :
  distinct_modules md →
  filter (λ m, mod_id m ∈ mod_id <$> retained_layers md) (modules md)
    = retained_layers md.
Proof.
  intros Hnd. unfold retained_layers. apply filter_ext_in. intros m Hm. split.
  - intros Hin. apply list_elem_of_fmap in Hin as (m' & Heq & Hm').
    apply list_elem_of_filter in Hm' as [Hr Hm'].
    by rewrite (NoDup_fmap_inj_on mod_id (modules md) m m' Hnd Hm Hm' Heq).
  - intros Hr. apply list_elem_of_fmap. exists m. split; [done|].
    by apply list_elem_of_filter.
Qed.

Lemma retained_layers_distinct md :
  distinct_modules md → NoDup (mod_id <$> retained_layers md).
Proof.
  intros Hnd. unfold retained_layers, distinct_modules in *.
  apply NoDup_fmap_2_strong; [|apply NoDup_filter; by eapply NoDup_fmap_1].
  intros x y Hx Hy Hxy.
  apply list_elem_of_filter in Hx as [_ Hx], Hy as [_ Hy].
  by eapply NoDup_fmap_inj_on.
Qed.

Lemma filter_swap {A} (P Q : A → Prop) `{∀ x, Decision (P x)} `{∀ x, Decision (Q x)}
    (l : list A) :
  filter P (filter Q l) = filter Q (filter P l).
Proof.
  rewrite !list_filter_filter. apply list_filter_iff. intros x. tauto.
Qed.

(** With only the hooks of the current query registered, a pass calls the
    forward hook on the retained layers that the closure applies, in order,
    and then the backward hook on them in reverse order. *)
Lemma forward_backward_instrumented hx hgy (b : batch) (s : L2Loss) :
  instrumented hx hgy s →
  forward_backward b s =
    (for_each (applied_modules b (mods s)) (λ m, call_hook b m hx) ;;;
     for_each (reverse (applied_modules b (mods s))) (λ m, call_hook b m hgy)) s.
Proof.
  intros ([h Ht] & Hmods & Hnd).
  pose proof (retained_layers_distinct _ Hnd) as Hnd'.
  unfold forward_backward. unfold bind at 1, gets. unfold bind.
  rewrite (for_each_fire forward_pre hx (hooks_table (model s))
             (λ m, mod_id m ∈ mod_id <$> mods s)); [|intros m _|done].
  2: { rewrite Ht. apply hooks_of_new_entries. by rewrite Hmods. }
  assert (filter (λ m, mod_id m ∈ mod_id <$> mods s)
            (applied_modules b (modules (model s))) = applied_modules b (mods s))
    as Hf.
  { unfold applied_modules. rewrite filter_swap. f_equal.
    rewrite Hmods. by apply retained_by_id. }
  rewrite Hf.
  pose proof (keeps_for_each env (applied_modules b (mods s))
                (λ m, call_hook b m hx)
                (λ m, call_hook_keeps_env b m hx) s) as Hk.
  destruct (for_each (applied_modules b (mods s)) (λ m, call_hook b m hx) s)
    as [[[]|e] s1]; [|done].
  cbn in Hk.
  assert (model s1 = model s) as Hm1 by (by injection Hk).
  assert (mods s1 = mods s) as Hmods1 by (by injection Hk).
  rewrite (for_each_fire backward hgy (hooks_table (model s))
             (λ m, mod_id m ∈ mod_id <$> mods s)); [|intros m _|by rewrite Hm1].
  2: { rewrite Ht. apply hooks_of_new_entries. by rewrite Hmods. }
  by rewrite filter_reverse, Hf.
Qed.

Lemma applied_modules_all (b : batch) ms :
  Forall (λ m, applied b (mod_id m) = true) ms → applied_modules b ms = ms.
Proof.
  intros Hall. unfold applied_modules.
  induction Hall as [|m l Hm Hl IH]; [done|].
  rewrite filter_cons_True by done. by f_equal.
Qed.

(** The same when the closure applies every retained layer. *)
Lemma forward_backward_all_applied hx hgy (b : batch) (s : L2Loss) :
  instrumented hx hgy s →
  Forall (λ m, applied b (mod_id m) = true) (mods s) →
  forward_backward b s =
    (for_each (mods s) (λ m, call_hook b m hx) ;;;
     for_each (reverse (mods s)) (λ m, call_hook b m hgy)) s.
Proof.
  intros Hi Hall. rewrite (forward_backward_instrumented hx hgy b s Hi).
  by rewrite applied_modules_all.
Qed.
End Dispatch.

Section TensorLemmas.
Context {R : Type} `{!Scalar R}.

Lemma veq_refl (v : vector R) : veq v v.
Proof. by split. Qed.

Lemma veq_trans (u v w : vector R) : veq u v → veq v w → veq u w.
Proof.
  intros [Hl1 H1] [Hl2 H2]. split; [congruence|].
  intros k Hk. rewrite H1 by done. apply H2. by rewrite <- Hl1.
Qed.

Lemma meq_refl (A : matrix R) : meq A A.
Proof. by repeat split. Qed.

Lemma foldl_seq_ext {A} (f g : A → nat → A) a n start :
  (∀ acc k, start ≤ k < start + n → f acc k = g acc k) →
  foldl f a (seq start n) = foldl g a (seq start n).
Proof.
  revert a start. induction n as [|n IH]; intros a start Hfg; [done|].
  cbn. rewrite Hfg by lia. apply IH. intros acc k Hk. apply Hfg. lia.
Qed.

Lemma dot_ext n (f g f' g' : nat → R) :
  (∀ k, k < n → f k = f' k) → (∀ k, k < n → g k = g' k) →
  dot n f g = dot n f' g'.
Proof.
  intros Hf Hg. unfold dot. apply foldl_seq_ext.
  intros acc k Hk. rewrite Hf, Hg by lia. done.
Qed.

Lemma norm2_veq (v w : vector R) : veq v w → norm2 v = norm2 w.
Proof.
  intros [Hl Hv]. unfold norm2. rewrite <- Hl. f_equal.
  apply foldl_seq_ext. intros acc k Hk. rewrite Hv by lia. done.
Qed.

Lemma bidx_lt n i : i < n → bidx n i = i.
Proof. unfold bidx. intros Hi. destruct (n =? 1) eqn:E; [|done]. apply Nat.eqb_eq in E. lia. Qed.

Lemma fits_eq n : fits n n = true.
Proof. unfold fits. by rewrite Nat.eqb_refl. Qed.

(** [c.view(-1, 1) * X] multiplies row [i] of [X] by [c i]. *)
Lemma mul_col_spec (c : vector R) (X : matrix R) :
  vlen c = nrows X →
  ∃ cx, mul (view_col c) X = Ok cx ∧ meq cx (scale_rows c X).
Proof.
  intros Hc. unfold mul, broadcast_dim. cbn [nrows ncols view_col].
  rewrite Hc, Nat.eqb_refl.
  assert (∃ n, (if 1 =? ncols X then Some 1
                else if 1 =? 1 then Some (ncols X)
                     else if ncols X =? 1 then Some 1 else None) = Some n
               ∧ n = ncols X) as (n & -> & ->).
  { destruct (1 =? ncols X) eqn:E; [apply Nat.eqb_eq in E|]; eauto. }
  eexists. split; [done|]. repeat split. intros i j Hi Hj. cbn in *.
  by rewrite !bidx_lt by lia.
Qed.

Lemma mm_spec (A B Bs : matrix R) :
  meq B Bs → ncols A = nrows B →
  ∃ g, mm A B = Ok g ∧ meq g (matmul A Bs).
Proof.
  intros (Hr & Hc & He) HAB. unfold mm.
  destruct (ncols A =? nrows B) eqn:E; [|by apply Nat.eqb_neq in E].
  eexists. split; [done|]. split; [done|]. split; [done|].
  intros i j Hi Hj. cbn in *. apply dot_ext; [done|].
  intros k Hk. apply He; lia.
Qed.

Lemma mv_spec (A : matrix R) (v : vector R) :
  ncols A = vlen v → mv A v = Ok (matvec A v).
Proof.
  intros HA. unfold mv.
  by destruct (ncols A =? vlen v) eqn:E; [|apply Nat.eqb_neq in E].
Qed.

Lemma view_flat_veq (g gs : matrix R) : meq g gs → veq (view_flat g) (view_flat gs).
Proof.
  intros (Hr & Hc & He). split; [cbn; congruence|].
  intros k Hk. cbn in *. rewrite <- Hc.
  assert (ncols g ≠ 0) by (intros E; rewrite E in Hk; lia).
  apply He.
  - apply Nat.Div0.div_lt_upper_bound. lia.
  - by apply Nat.mod_upper_bound.
Qed.

(** [out[a : a + len w] += w] on a slice that lies within [out]. *)
Lemma iadd_vslice_spec (out outs w ws : vector R) a :
  veq out outs → veq w ws → a + vlen w ≤ vlen out →
  ∃ out', iadd_vslice out a (a + vlen w) w = Ok out'
          ∧ veq out' (vadd_at outs a ws).
Proof.
  intros [Hlo Hvo] [Hlw Hvw] Hle. unfold iadd_vslice.
  rewrite !Nat.min_l by lia.
  replace (a + vlen w - a) with (vlen w) by lia. rewrite fits_eq.
  eexists. split; [done|]. split; [done|].
  intros k Hk. unfold vadd_at. cbn [vlen vat] in *. rewrite <- Hlw.
  destruct ((a <=? k) && (k <? a + vlen w)) eqn:E; [|by apply Hvo].
  apply andb_prop in E as [E1 E2].
  apply Nat.leb_le in E1. apply Nat.ltb_lt in E2.
  rewrite bidx_lt by lia. rewrite Hvo, Hvw by lia. done.
Qed.

Lemma vadd_at_len (out w : vector R) a : vlen (vadd_at out a w) = vlen out.
Proof. done. Qed.

Lemma meq_trans (A B C : matrix R) : meq A B → meq B C → meq A C.
Proof.
  intros (Hr1 & Hc1 & H1) (Hr2 & Hc2 & H2). split; [congruence|]. split; [congruence|].
  intros i j Hi Hj. rewrite H1 by done. apply H2; congruence.
Qed.

Lemma mm_ok (A B : matrix R) : ncols A = nrows B → mm A B = Ok (matmul A B).
Proof.
  intros HAB. unfold mm.
  by destruct (ncols A =? nrows B) eqn:E; [|apply Nat.eqb_neq in E].
Qed.

(** [A * B] on matrices of one shape is the Hadamard product. *)
Lemma mul_same_spec (A B : matrix R) :
  nrows A = nrows B → ncols A = ncols B →
  ∃ h, mul A B = Ok h ∧ meq h (hadamard A B).
Proof.
  intros Hr Hc. unfold mul, broadcast_dim. rewrite <- Hr, <- Hc, !Nat.eqb_refl.
  eexists. split; [done|]. repeat split. intros i j Hi Hj. cbn in *.
  by rewrite !bidx_lt by lia.
Qed.

Lemma transpose_meq (A B : matrix R) : meq A B → meq (transpose A) (transpose B).
Proof.
  intros (Hr & Hc & He). repeat split; cbn; try done.
  intros i j Hi Hj. by apply He.
Qed.

(** A slice that lies within the matrix is the block at its position. *)
Lemma slice2_block (g gs : matrix R) r0 n c0 m :
  meq g gs → r0 + n ≤ nrows g → c0 + m ≤ ncols g →
  meq (slice2 g r0 (r0 + n) c0 (c0 + m)) (block gs r0 n c0 m).
Proof.
  intros (Hr & Hc & He) Hn Hm. unfold slice2, block. repeat split; cbn.
  - lia.
  - lia.
  - intros i j Hi Hj. rewrite !Nat.min_l by lia. apply He; lia.
Qed.

(** [G[r0 : r0 + rows V, c0 : c0 + cols V] += V] on a block that lies
    within [G]. *)
Lemma iadd_block_spec (g gs V Vs : matrix R) r0 c0 :
  meq g gs → meq V Vs →
  r0 + nrows V ≤ nrows g → c0 + ncols V ≤ ncols g →
  ∃ g', iadd_block g r0 (r0 + nrows V) c0 (c0 + ncols V) V = Ok g'
        ∧ meq g' (block_add gs r0 c0 Vs).
Proof.
  intros (Hr & Hc & He) (Hvr & Hvc & Hve) Hn Hm. unfold iadd_block.
  rewrite !Nat.min_l by lia.
  replace (r0 + nrows V - r0) with (nrows V) by lia.
  replace (c0 + ncols V - c0) with (ncols V) by lia.
  rewrite !fits_eq. eexists. split; [done|]. split; [done|]. split; [done|].
  intros r c Hrr Hcc. unfold block_add. cbn [nrows ncols entry] in *.
  rewrite <- Hvr, <- Hvc.
  destruct ((r0 <=? r) && (r <? r0 + nrows V) && (c0 <=? c) && (c <? c0 + ncols V))
    eqn:E; [|by apply He].
  apply andb_prop in E as [E E4]. apply andb_prop in E as [E E3].
  apply andb_prop in E as [E1 E2].
  apply Nat.leb_le in E1, E3. apply Nat.ltb_lt in E2, E4.
  rewrite !bidx_lt by lia. rewrite He, Hve by lia. done.
Qed.

Lemma block_add_meq (g gs V Vs : matrix R) r0 c0 :
  meq g gs → meq V Vs → meq (block_add g r0 c0 V) (block_add gs r0 c0 Vs).
Proof.
  intros (Hr & Hc & He) (Hvr & Hvc & Hve). split; [done|]. split; [done|].
  intros r c Hrr Hcc. unfold block_add in *. cbn [nrows ncols entry] in *.
  rewrite <- Hvr, <- Hvc.
  destruct ((r0 <=? r) && (r <? r0 + nrows V) && (c0 <=? c) && (c <? c0 + ncols V))
    eqn:E; [|by apply He].
  apply andb_prop in E as [E E4]. apply andb_prop in E as [E E3].
  apply andb_prop in E as [E1 E2].
  apply Nat.leb_le in E1, E3. apply Nat.ltb_lt in E2, E4.
  rewrite He, Hve by lia. done.
Qed.
End TensorLemmas.

Section MNorm.
Context {R : Type} `{!Scalar R}.

Abbreviation M := (M R).
Abbreviation L2Loss := (L2Loss R).
Abbreviation batch := (batch R).

Lemma bind_ok {A B} (m : M A) (k : A → M B) s a s1 :
  m s = (Ok a, s1) → bind m k s = k a s1.
Proof. intros E. unfold bind. by rewrite E. Qed.

Lemma item_ok {A} (d : L2Loss → gmap nat A) k s a :
  d s !! k = Some a → item d k s = (Ok a, s).
Proof. intros E. unfold item. by rewrite E. Qed.

Lemma attr_ok {A} (f : L2Loss → option A) s a :
  f s = Some a → attr f s = (Ok a, s).
Proof. intros E. unfold attr. by rewrite E. Qed.

Lemma set_cTv_twice a b (s : L2Loss) : set_cTv a (set_cTv b s) = set_cTv a s.
Proof. done. Qed.

Lemma cTv_iadd_run a b (rhs : outcome (vector R)) (s : L2Loss) out w out' :
  _cTv s = Some out → rhs = Ok w → iadd_vslice out a b w = Ok out' →
  cTv_iadd a b rhs s = (Ok tt, set_cTv (Some out') s).
Proof.
  intros Ho -> Hi. unfold cTv_iadd.
  erewrite bind_ok by (by apply attr_ok).
  erewrite bind_ok by done. erewrite bind_ok by (unfold lift; by rewrite Hi).
  done.
Qed.

Lemma layer_numel_weight m w :
  weight m = Some w →
  layer_numel m = numel w + from_option numel 0 (bias m).
Proof.
  intros Ew. unfold layer_numel, layer_parameters. rewrite Ew.
  destruct (bias m); cbn; lia.
Qed.

(** The accumulation step of [implicit_m_norm] on a [Linear] layer. *)
Lemma hook_compute_m_norm_run m (b : batch) c start (s : L2Loss) out outs :
  is_Linear m = true →
  xs s !! mod_id m = Some (layer_input b (mod_id m)) →
  p_pos s !! mod_id m = Some start →
  _c s = Some c → vlen c = examples b →
  linear_shapes b m →
  _cTv s = Some out → veq out outs →
  start + layer_numel m ≤ vlen out →
  ∃ out', call_hook b m H_compute_m_norm s = (Ok tt, set_cTv (Some out') s)
          ∧ veq out' (m_norm_layer c b outs (start, m)).
Proof.
  intros Hl Hxs Hpos Hc Hlen (_ & HX & HGY & Hw & Hb) Hout Hveq Hle.
  destruct (weight m) as [w|] eqn:Ew; [|done].
  rewrite (layer_numel_weight m w Ew) in Hle.
  assert (numel w = ncols (layer_grad_output b (mod_id m))
                    * ncols (layer_input b (mod_id m))) as Hnw
    by (unfold numel; rewrite Hw; cbn; lia).
  assert (match bias m with
          | Some bb => numel bb = ncols (layer_grad_output b (mod_id m))
          | None => True
          end) as Hnb
    by (destruct (bias m) as [bb|]; [unfold numel; rewrite Hb; cbn; lia|done]).
  clear Hw Hb. rename Hnw into Hw. rename Hnb into Hb.
  cbn [call_hook m_norm_layer]. unfold _hook_compute_m_norm.
  set (X := layer_input b (mod_id m)) in *.
  set (GY := layer_grad_output b (mod_id m)) in *.
  erewrite bind_ok by (by apply item_ok).
  erewrite bind_ok by (by apply item_ok).
  rewrite Hl, Ew. erewrite bind_ok by done.
  erewrite bind_ok by (by apply attr_ok).
  destruct (mul_col_spec c X) as (cx & Ecx & Hcx); [congruence|].
  destruct (mm_spec (transpose GY) cx (scale_rows c X) Hcx) as (g & Eg & Hg).
  { destruct Hcx as [Hr _]. cbn in *. congruence. }
  pose proof (view_flat_veq _ _ Hg) as Hflat.
  assert (vlen (view_flat g) = numel w) as Hgl.
  { destruct Hg as (Hr & Hcg & _). cbn in *. rewrite Hr, Hcg. cbn. lia. }
  destruct (iadd_vslice_spec out outs _ _ start Hveq Hflat) as (o1 & Eo1 & Ho1);
    [lia|].
  rewrite Hgl in Eo1.
  erewrite bind_ok by (eapply cTv_iadd_run; [done| |exact Eo1];
                       by rewrite Ecx; cbn; rewrite Eg).
  destruct (bias m) as [bb|] eqn:Eb; [|by eexists].
  cbn [from_option] in *.
  erewrite bind_ok by (by apply attr_ok).
  assert (vlen (matvec (transpose GY) c) = numel bb) as Hbl by (cbn; lia).
  destruct (iadd_vslice_spec o1 _ (matvec (transpose GY) c) _ (start + numel w)
              Ho1 (veq_refl _)) as (o2 & Eo2 & Ho2).
  { destruct Ho1 as [Ho1 _]. destruct Hveq as [Hveq _].
    rewrite Ho1, vadd_at_len, <- Hveq. lia. }
  rewrite Hbl in Eo2.
  erewrite cTv_iadd_run; [|done|apply mv_spec; cbn; congruence|exact Eo2].
  rewrite set_cTv_twice. by eexists.
Qed.

Lemma set_xs_id (s : L2Loss) : set_xs (xs s) s = s.
Proof. by destruct s. Qed.

Lemma set_cTv_id (s : L2Loss) out : _cTv s = Some out → set_cTv (Some out) s = s.
Proof. destruct s. cbn. by intros ->. Qed.

Lemma forward_savex_run (b : batch) ms : ∀ s : L2Loss,
  for_each ms (λ m, call_hook b m H_savex) s
    = (Ok tt, set_xs (save_inputs b ms (xs s)) s).
Proof.
  induction ms as [|m ms IH]; intros s.
  - cbn. by rewrite set_xs_id.
  - cbn [for_each call_hook]. unfold bind, _hook_savex, modify.
    by rewrite IH.
Qed.

Lemma save_inputs_lookup_gen (b : batch) ms : ∀ d k,
  save_inputs b ms d !! k
    = if decide (k ∈ mod_id <$> ms) then Some (layer_input b k) else d !! k.
Proof.
  induction ms as [|m ms IH]; intros d k.
  - cbn. by rewrite decide_False by apply not_elem_of_nil.
  - unfold save_inputs in *. cbn [foldl]. rewrite IH.
    destruct (decide (k ∈ mod_id <$> ms)) as [Hin|Hin];
      destruct (decide (k ∈ mod_id <$> m :: ms)) as [Hin'|Hin']; try done.
    + destruct Hin'. cbn. by right.
    + cbn in Hin'. apply elem_of_cons in Hin' as [->|?]; [|done].
      by rewrite lookup_insert_eq.
    + rewrite lookup_insert_ne; [done|]. intros <-. apply Hin'. cbn. left.
Qed.

Lemma save_inputs_lookup (b : batch) ms d m :
  m ∈ ms → save_inputs b ms d !! mod_id m = Some (layer_input b (mod_id m)).
Proof.
  intros Hm. rewrite save_inputs_lookup_gen.
  rewrite decide_True; [done|]. apply list_elem_of_fmap. eauto.
Qed.

Lemma m_norm_layer_len c (b : batch) outs sm :
  vlen (m_norm_layer c b outs sm) = vlen outs.
Proof. destruct sm as [st m]. cbn. by destruct (bias m). Qed.

Lemma m_norm_batch_len lay c (b : batch) outs :
  vlen (m_norm_batch lay c b outs) = vlen outs.
Proof.
  unfold m_norm_batch. generalize (reverse lay). intros l. revert outs.
  induction l as [|sm l IH]; intros outs; [done|].
  cbn. by rewrite IH, m_norm_layer_len.
Qed.

Lemma backward_m_norm_run (b : batch) c lay : ∀ (s : L2Loss) out outs,
  Forall (layer_ready s (vlen out)) lay →
  Forall (λ sm, xs s !! mod_id sm.2 = Some (layer_input b (mod_id sm.2))
                ∧ linear_shapes b sm.2) lay →
  _c s = Some c → vlen c = examples b →
  _cTv s = Some out → veq out outs →
  ∃ out', for_each (lay.*2) (λ m, call_hook b m H_compute_m_norm) s
            = (Ok tt, set_cTv (Some out') s)
          ∧ veq out' (foldl (m_norm_layer c b) outs lay).
Proof.
  induction lay as [|[st m] lay IH]; intros s out outs Hr Hx Hc Hlen Hout Hveq.
  - cbn. exists out. by rewrite set_cTv_id.
  - apply Forall_cons in Hr as [(Hl & Hp & Hle) Hr].
    apply Forall_cons in Hx as [[Hxs Hsh] Hx]. cbn in Hl, Hp, Hle, Hxs, Hsh.
    destruct (hook_compute_m_norm_run m b c st s out outs) as (o1 & E1 & Ho1);
      try done.
    cbn [fmap list_fmap snd for_each]. erewrite bind_ok by exact E1.
    assert (vlen o1 = vlen out) as Hlen1.
    { destruct Ho1 as [-> _]. rewrite m_norm_layer_len. by destruct Hveq. }
    destruct (IH (set_cTv (Some o1) s) o1 (m_norm_layer c b outs (st, m)))
      as (o2 & E2 & Ho2); try done.
    { by rewrite Hlen1. }
    exists o2. split; [|done]. by rewrite E2.
Qed.

Lemma instrumented_ctl hx hgy (s s' : L2Loss) :
  ctl s' = ctl s → instrumented hx hgy s → instrumented hx hgy s'.
Proof.
  intros [= Hm _ _ Hmods _]. unfold instrumented. by rewrite Hm, Hmods.
Qed.

(** One pass of [implicit_m_norm]. *)
Lemma m_norm_pass_run (b : batch) c lay (s : L2Loss) out outs :
  instrumented H_savex H_compute_m_norm s →
  lay.*2 = mods s →
  Forall (layer_ready s (vlen out)) lay →
  Forall (linear_shapes b) (mods s) →
  _c s = Some c → vlen c = examples b →
  _cTv s = Some out → veq out outs →
  ∃ out', forward_backward b s
            = (Ok tt, set_cTv (Some out') (set_xs (save_inputs b (mods s) (xs s)) s))
          ∧ veq out' (m_norm_batch lay c b outs).
Proof.
  intros Hi Hlay Hr Hsh Hc Hlen Hout Hveq.
  rewrite (forward_backward_all_applied _ _ b s Hi)
    by (eapply Forall_impl; [exact Hsh|]; by intros m (? & _)).
  erewrite bind_ok by apply forward_savex_run.
  rewrite <- Hlay, <- fmap_reverse.
  apply (backward_m_norm_run b c _ _ out outs); try done.
  - by apply Forall_reverse.
  - apply Forall_reverse. apply Forall_forall. intros [st m] Hin. cbn.
    assert (m ∈ mods s) as Hm
      by (rewrite <- Hlay; apply list_elem_of_fmap; by exists (st, m)).
    split.
    + apply save_inputs_lookup. by rewrite Hlay.
    + by eapply Forall_forall in Hsh.
Qed.

Lemma vslice_len (v : vector R) a n : a + n ≤ vlen v → vlen (vslice v a (a + n)) = n.
Proof. intros Hle. cbn. lia. Qed.

(** The pass over the data loader, batch by batch. *)
Lemma m_norm_loop_run v lay l : ∀ offset (s : L2Loss) out outs,
  instrumented H_savex H_compute_m_norm s →
  lay.*2 = mods s →
  Forall (layer_ready s (vlen out)) lay →
  Forall (λ b, Forall (linear_shapes b) (mods s)) l →
  offset + example_offset l ≤ vlen v →
  _cTv s = Some out → veq out outs →
  ∃ s' out', m_norm_loop_by_examples v offset l s = (Ok tt, s')
             ∧ ctl s' = ctl s
             ∧ _cTv s' = Some out'
             ∧ veq out' (m_norm_out lay v offset l outs).
Proof.
  induction l as [|b l IH]; intros offset s out outs Hi Hlay Hr Hsh Hv Hout Hveq.
  - exists s, out. done.
  - apply Forall_cons in Hsh as [Hb Hsh].
    assert (example_offset (b :: l) = examples b + example_offset l) as Hoff by done.
    cbn [m_norm_loop_by_examples m_norm_out].
    set (c := vslice v offset (offset + examples b)).
    erewrite bind_ok by done.
    destruct (m_norm_pass_run b c lay (set_c (Some c) s) out outs)
      as (o1 & E1 & Ho1); try done.
    { apply vslice_len. lia. }
    erewrite bind_ok by exact E1.
    match goal with |- context [m_norm_loop_by_examples _ _ _ ?s1] =>
      set (s1' := s1) end.
    assert (vlen o1 = vlen out) as Hlen1.
    { destruct Ho1 as [-> _]. rewrite m_norm_batch_len. by destruct Hveq. }
    destruct (IH (offset + examples b) s1' o1 (m_norm_batch lay c b outs))
      as (s' & o2 & E2 & Hc2 & Ho2 & Hv2); try done.
    { by rewrite Hlen1. }
    { lia. }
    exists s', o2. by rewrite E2.
Qed.
End MNorm.

Section MNormClaim.
Context {R : Type} `{!Scalar R}.

Abbreviation M := (M R).
Abbreviation L2Loss := (L2Loss R).
Abbreviation batch := (batch R).

Lemma layout_from_snd ms : ∀ st, (layout_from st ms).*2 = ms.
Proof. induction ms as [|m ms IH]; intros st; [done|]. cbn. by rewrite IH. Qed.

Lemma layout_from_elem ms : ∀ st st' m,
  (st', m) ∈ layout_from st ms →
  ∃ pre post, ms = pre ++ m :: post ∧ st' = st + flat_offset pre.
Proof.
  induction ms as [|m0 ms IH]; intros st st' m Hin; [by apply elem_of_nil in Hin|].
  cbn in Hin. apply elem_of_cons in Hin as [[= -> ->]|Hin].
  - exists [], ms. split; [done|]. unfold flat_offset. cbn. lia.
  - destruct (IH _ _ _ Hin) as (pre & post & -> & ->).
    exists (m0 :: pre), post. split; [done|]. unfold flat_offset. cbn. lia.
Qed.

Lemma flat_offset_app pre post :
  flat_offset (pre ++ post) = flat_offset pre + flat_offset post.
Proof. unfold flat_offset. by rewrite fmap_app, sum_list_with_app. Qed.

Lemma flat_offset_parameters ms :
  flat_offset ms = sum_list (numel <$> flat_map layer_parameters ms).
Proof.
  induction ms as [|m ms IH]; [done|].
  cbn [flat_map]. rewrite fmap_app, sum_list_with_app, <- IH. done.
Qed.

Lemma numel_shapes (ps : list parameter) :
  numel <$> ps = foldr Nat.mul 1 <$> (p_size <$> ps).
Proof. rewrite <- list_fmap_compose. done. Qed.

Lemma sum_filter_le {A} (f : A → nat) (P : A → Prop) `{∀ x, Decision (P x)} l :
  sum_list (f <$> filter P l) ≤ sum_list (f <$> l).
Proof.
  induction l as [|x l IH]; [done|].
  rewrite filter_cons. destruct (decide (P x)); cbn; lia.
Qed.

Lemma foldl_add_sum l : ∀ a, foldl Nat.add a l = a + sum_list l.
Proof.
  induction l as [|x l IH]; intros a; cbn; [lia|]. rewrite IH. lia.
Qed.

(** When the layout check of the constructor passes, the retained layers
    fit into the flat parameter vector. *)
Lemma layout_fits md :
  retained_shapes md = trainable_shapes md →
  flat_offset (retained_layers md) ≤ count_parameters md.
Proof.
  intros Heq. rewrite flat_offset_parameters, numel_shapes.
  fold (retained_shapes md). rewrite Heq. unfold trainable_shapes.
  rewrite <- numel_shapes. unfold count_parameters.
  rewrite foldl_add_sum. cbn. apply sum_filter_le.
Qed.

Lemma L2Loss_new_inv md (ld : data_loader R) (s : L2Loss) :
  layers_have_weight md →
  L2Loss_new md ld = Ok s →
  retained_shapes md = trainable_shapes md
  ∧ s = set_mods (retained_layers md)
          (set_p_pos (record_offsets 0 (retained_layers md) ∅) (blank md ld)).
Proof.
  intros Hw. rewrite L2Loss_new_run by done.
  case_bool_decide; [|done]. by intros [= <-].
Qed.

(** The constructed object has every retained layer at its flat offset,
    within the flat parameter vector. *)
Lemma constructed_layout md (ld : data_loader R) (s : L2Loss) :
  layers_have_weight md → distinct_modules md →
  Forall (λ m, is_Linear m = true) (retained_layers md) →
  L2Loss_new md ld = Ok s →
  Forall (layer_ready s (count_parameters md)) (layout md).
Proof.
  intros Hw Hnd Hlin Hnew.
  destruct (L2Loss_new_inv md ld s Hw Hnew) as [Hshapes ->].
  pose proof (layout_fits md Hshapes) as Hfit.
  apply Forall_forall. intros [st m] Hin.
  destruct (layout_from_elem _ _ _ _ Hin) as (pre & post & Hsplit & ->).
  unfold layer_ready. cbn [fst snd p_pos set_mods set_p_pos blank].
  split; [|split].
  - eapply Forall_forall in Hlin; [done|]. rewrite Hsplit.
    apply elem_of_app. right. left.
  - rewrite Hsplit. apply record_offsets_lookup.
    rewrite <- Hsplit. by apply retained_layers_distinct.
  - rewrite Hsplit, flat_offset_app in Hfit. unfold flat_offset at 2 in Hfit.
    cbn in Hfit. lia.
Qed.

Lemma first_parameter_device_ok (s : L2Loss) :
  parameters (model s) ≠ [] → first_parameter_device s = (Ok tt, s).
Proof.
  intros Hp. unfold first_parameter_device, bind, gets.
  by destruct (parameters (model s)).
Qed.

(** C3. On a model whose retained layers are [Linear] and with data that
    fits them, for a vector [v] with one entry per example (the batches
    having [batch_size] examples, the last at most as many),
    [implicit_m_norm] returns the Euclidean norm of the buffer that one pass
    over the data loader accumulates: for each batch, with [c] the slice of
    [v] of its examples, every retained layer adds [GY^T (c ⊙ X)] to its
    weight slice and [GY^T c] to its bias slice, if it has a bias. *)
Theorem implicit_m_norm_accumulates md (ld : data_loader R) (v : vector R)
    (s : L2Loss) :
  linear_task md ld →
  L2Loss_new md ld = Ok s →
  nominal_batches (batch_size ld) (batches ld) →
  vlen v = example_offset (batches ld) →
  (implicit_m_norm v s).1 = Ok (m_norm_spec md ld v).
Proof.
  intros (Hnohooks & Hnd & Hw & Hparams & Hlin & Hshapes) Hnew Hnom Hv.
  pose proof (constructed_layout md ld s Hw Hnd Hlin Hnew) as Hready.
  destruct (L2Loss_new_inv md ld s Hw Hnew) as [_ ->].
  unfold implicit_m_norm.
  erewrite bind_ok by apply add_hooks_run.
  erewrite bind_ok by done.
  erewrite bind_ok by (by apply first_parameter_device_ok).
  erewrite bind_ok by done. erewrite bind_ok by done.
  erewrite bind_ok by done. erewrite bind_ok by done.
  unfold count_parameters, parameters.
  cbn [dataloader model set_cTv set_handles set_hooks set_model set_mods
       set_p_pos blank modules mods].
  fold (parameters md). fold (count_parameters md).
  match goal with |- context [bind (m_norm_loop _ _ _ _) _ ?s1] =>
    set (s1' := s1) end.
  assert (instrumented H_savex H_compute_m_norm s1') as Hi.
  { split; [|split]; [|done|done]. eexists. subst s1'. cbn.
    by rewrite Hnohooks. }
  assert ((layout md).*2 = mods s1') as Hlay by apply layout_from_snd.
  assert (0 + example_offset (batches ld) ≤ vlen v) as Hbound by lia.
  destruct (m_norm_loop_run v (layout md) (batches ld) 0 s1'
              (zeros1 (count_parameters md)) (zeros1 (count_parameters md))
              Hi Hlay Hready Hshapes Hbound eq_refl (veq_refl _))
    as (s2 & out & E & Hc & Hout & Hveq).
  erewrite bind_ok by (rewrite m_norm_loop_nominal by done; exact E).
  erewrite bind_ok by (by apply attr_ok).
  erewrite bind_ok by (unfold del; erewrite bind_ok by (by apply attr_ok); done).
  erewrite bind_ok by done. erewrite bind_ok by done.
  erewrite bind_ok by apply for_each_remove_run.
  cbn. f_equal. by apply norm2_veq.
Qed.
End MNormClaim.

Section GramHooks.
Context {R : Type} `{!Scalar R}.

Abbreviation M := (M R).
Abbreviation L2Loss := (L2Loss R).
Abbreviation batch := (batch R).

Lemma set_x_outer_id (s : L2Loss) : set_x_outer (x_outer s) s = s.
Proof. by destruct s. Qed.
Lemma set_x_inner_id (s : L2Loss) : set_x_inner (x_inner s) s = s.
Proof. by destruct s. Qed.
Lemma set_gy_outer_id (s : L2Loss) : set_gy_outer (gy_outer s) s = s.
Proof. by destruct s. Qed.
Lemma set_G_id (s : L2Loss) g : G s = Some g → set_G (Some g) s = s.
Proof. destruct s. cbn. by intros ->. Qed.

Lemma forward_savex_io_outer_run (b : batch) ms : ∀ s : L2Loss,
  outerloop_switch s = Some true →
  for_each ms (λ m, call_hook b m H_savex_io) s
    = (Ok tt, set_x_outer (save_inputs b ms (x_outer s)) s).
Proof.
  induction ms as [|m ms IH]; intros s Hsw.
  - cbn. by rewrite set_x_outer_id.
  - cbn [for_each call_hook]. unfold bind at 1, _hook_savex_io.
    erewrite bind_ok by (by apply attr_ok). unfold modify.
    by rewrite IH.
Qed.

Lemma forward_savex_io_inner_run (b : batch) ms : ∀ s : L2Loss,
  outerloop_switch s = Some false →
  for_each ms (λ m, call_hook b m H_savex_io) s
    = (Ok tt, set_x_inner (save_inputs b ms (x_inner s)) s).
Proof.
  induction ms as [|m ms IH]; intros s Hsw.
  - cbn. by rewrite set_x_inner_id.
  - cbn [for_each call_hook]. unfold bind at 1, _hook_savex_io.
    erewrite bind_ok by (by apply attr_ok). unfold modify.
    by rewrite IH.
Qed.

Lemma backward_outer_run (b : batch) ms : ∀ s : L2Loss,
  outerloop_switch s = Some true →
  for_each ms (λ m, call_hook b m H_compute_flat_grad) s
    = (Ok tt, set_gy_outer (save_grads b ms (gy_outer s)) s).
Proof.
  induction ms as [|m ms IH]; intros s Hsw.
  - cbn. by rewrite set_gy_outer_id.
  - cbn [for_each call_hook]. unfold bind at 1, _hook_compute_flat_grad.
    erewrite bind_ok by (by apply attr_ok). unfold modify.
    by rewrite IH.
Qed.

Lemma save_grads_lookup_gen (b : batch) ms : ∀ d k,
  save_grads b ms d !! k
    = if decide (k ∈ mod_id <$> ms) then Some (layer_grad_output b k) else d !! k.
Proof.
  induction ms as [|m ms IH]; intros d k.
  - cbn. by rewrite decide_False by apply not_elem_of_nil.
  - unfold save_grads in *. cbn [foldl]. rewrite IH.
    destruct (decide (k ∈ mod_id <$> ms)) as [Hin|Hin];
      destruct (decide (k ∈ mod_id <$> m :: ms)) as [Hin'|Hin']; try done.
    + destruct Hin'. cbn. by right.
    + cbn in Hin'. apply elem_of_cons in Hin' as [->|?]; [|done].
      by rewrite lookup_insert_eq.
    + rewrite lookup_insert_ne; [done|]. intros <-. apply Hin'. cbn. left.
Qed.

Lemma save_grads_lookup (b : batch) ms d m :
  m ∈ ms → save_grads b ms d !! mod_id m = Some (layer_grad_output b (mod_id m)).
Proof.
  intros Hm. rewrite save_grads_lookup_gen.
  rewrite decide_True; [done|]. apply list_elem_of_fmap. eauto.
Qed.

(** The pass on the outer batch fills the outer caches, for the retained
    layers that the closure applies. *)
Lemma outer_pass_applied_run (b : batch) (s : L2Loss) :
  instrumented H_savex_io H_compute_flat_grad s →
  outerloop_switch s = Some true →
  forward_backward b s =
    (Ok tt, set_gy_outer
              (save_grads b (reverse (applied_modules b (mods s))) (gy_outer s))
              (set_x_outer (save_inputs b (applied_modules b (mods s)) (x_outer s)) s)).
Proof.
  intros Hi Hsw. rewrite (forward_backward_instrumented _ _ b s Hi).
  erewrite bind_ok by (by apply forward_savex_io_outer_run).
  by rewrite backward_outer_run.
Qed.

Lemma outer_pass_run (b : batch) (s : L2Loss) :
  instrumented H_savex_io H_compute_flat_grad s →
  outerloop_switch s = Some true →
  Forall (λ m, applied b (mod_id m) = true) (mods s) →
  forward_backward b s =
    (Ok tt, set_gy_outer (save_grads b (reverse (mods s)) (gy_outer s))
              (set_x_outer (save_inputs b (mods s) (x_outer s)) s)).
Proof.
  intros Hi Hsw Hall. rewrite (outer_pass_applied_run b s Hi Hsw).
  by rewrite applied_modules_all.
Qed.

Lemma G_iadd_run bi bo (rhs : outcome (matrix R)) (s : L2Loss) g ei eo V g' :
  G s = Some g → e_inner s = Some ei → e_outer s = Some eo →
  rhs = Ok V → iadd_block g ei (ei + bi) eo (eo + bo) V = Ok g' →
  G_iadd_inner_outer bi bo rhs s = (Ok tt, set_G (Some g') s).
Proof.
  intros Hg Hei Heo -> Hi. unfold G_iadd_inner_outer.
  erewrite bind_ok by (by apply attr_ok).
  erewrite bind_ok by (by apply attr_ok).
  erewrite bind_ok by (by apply attr_ok).
  erewrite bind_ok by done. erewrite bind_ok by (unfold lift; by rewrite Hi).
  done.
Qed.

Lemma linear_shapes_features (bi bo : batch) m :
  linear_shapes bi m → linear_shapes bo m →
  ncols (layer_input bi (mod_id m)) = ncols (layer_input bo (mod_id m))
  ∧ ncols (layer_grad_output bi (mod_id m)) = ncols (layer_grad_output bo (mod_id m)).
Proof.
  intros (_ & _ & _ & Hwi & _) (_ & _ & _ & Hwo & _).
  destruct (weight m) as [w|]; [|done].
  rewrite Hwi in Hwo. by injection Hwo as -> ->.
Qed.

Lemma set_G_twice a b (s : L2Loss) : set_G a (set_G b s) = set_G a s.
Proof. done. Qed.

(** The accumulation step of [get_matrix] on a [Linear] layer. *)
Lemma hook_compute_flat_grad_run m (bi bo : batch) (s : L2Loss) g gs ei eo :
  is_Linear m = true →
  outerloop_switch s = Some false →
  gy_outer s !! mod_id m = Some (layer_grad_output bo (mod_id m)) →
  x_outer s !! mod_id m = Some (layer_input bo (mod_id m)) →
  x_inner s !! mod_id m = Some (layer_input bi (mod_id m)) →
  is_Some (p_pos s !! mod_id m) →
  G s = Some g → e_inner s = Some ei → e_outer s = Some eo →
  linear_shapes bi m → linear_shapes bo m →
  meq g gs →
  ei + examples bi ≤ nrows g → eo + examples bo ≤ ncols g →
  ∃ g', call_hook bi m H_compute_flat_grad s = (Ok tt, set_G (Some g') s)
        ∧ meq g' (gram_layer bi bo ei eo gs m).
Proof.
  intros Hl Hsw Hgo Hxo Hxi [st Hpos] Hg Hei Heo Hsi Hso Hmeq Hr Hc.
  destruct (linear_shapes_features bi bo m Hsi Hso) as [HfX HfG].
  destruct Hsi as (_ & HXi & HGi & _ & _). destruct Hso as (_ & HXo & HGo & _ & _).
  cbn [call_hook]. unfold _hook_compute_flat_grad, gram_layer.
  set (Xi := layer_input bi (mod_id m)) in *.
  set (Xo := layer_input bo (mod_id m)) in *.
  set (GYi := layer_grad_output bi (mod_id m)) in *.
  set (GYo := layer_grad_output bo (mod_id m)) in *.
  erewrite bind_ok by (by apply attr_ok). cbv beta iota.
  erewrite bind_ok by (by apply item_ok).
  erewrite bind_ok by (by apply item_ok).
  erewrite bind_ok by (by apply item_ok).
  erewrite bind_ok by (by apply item_ok).
  rewrite Hl.
  set (XX := matmul Xi (transpose Xo)). set (GG := matmul GYi (transpose GYo)).
  destruct (mul_same_spec XX GG) as (h & Eh & Hh); [cbn; lia..|].
  destruct (iadd_block_spec g gs h (hadamard XX GG) ei eo Hmeq Hh) as (g1 & E1 & H1).
  { destruct Hh as (-> & _ & _). cbn. lia. }
  { destruct Hh as (_ & -> & _). cbn. lia. }
  assert (nrows h = nrows Xi ∧ ncols h = nrows Xo) as [Hhr Hhc]
    by (destruct Hh as (-> & -> & _); done).
  rewrite Hhr, Hhc in E1.
  erewrite bind_ok.
  2: { eapply G_iadd_run; [done..| |exact E1].
       rewrite (mm_ok Xi (transpose Xo)) by done. cbn [obind].
       rewrite (mm_ok GYi (transpose GYo)) by done. cbn [obind]. exact Eh. }
  destruct (bias m) as [bb|]; [|by eexists].
  destruct (iadd_block_spec g1 _ GG GG ei eo H1 (meq_refl _)) as (g2 & E2 & H2).
  { destruct H1 as (-> & _ & _). cbn. destruct Hmeq as (<- & _ & _). lia. }
  { destruct H1 as (_ & -> & _). cbn. destruct Hmeq as (_ & <- & _). lia. }
  change (nrows GG) with (nrows GYi) in E2. change (ncols GG) with (nrows GYo) in E2.
  replace (nrows GYi) with (nrows Xi) in E2 by congruence.
  replace (nrows GYo) with (nrows Xo) in E2 by congruence.
  erewrite G_iadd_run; [|done..| |exact E2].
  - rewrite set_G_twice. by eexists.
  - by apply mm_ok.
Qed.
End GramHooks.

Section GramPasses.
Context {R : Type} `{!Scalar R}.

Abbreviation M := (M R).
Abbreviation L2Loss := (L2Loss R).
Abbreviation batch := (batch R).

Lemma gram_layer_shape (bi bo : batch) ei eo (g : matrix R) m :
  nrows (gram_layer bi bo ei eo g m) = nrows g
  ∧ ncols (gram_layer bi bo ei eo g m) = ncols g.
Proof. unfold gram_layer. by destruct (bias m). Qed.

Lemma gram_layers_shape (bi bo : batch) ei eo ms : ∀ g : matrix R,
  nrows (foldl (gram_layer bi bo ei eo) g ms) = nrows g
  ∧ ncols (foldl (gram_layer bi bo ei eo) g ms) = ncols g.
Proof.
  induction ms as [|m ms IH]; intros g; [done|].
  cbn. destruct (IH (gram_layer bi bo ei eo g m)) as [-> ->].
  apply gram_layer_shape.
Qed.

Lemma gram_pair_shape ms (bi bo : batch) ei eo (g : matrix R) :
  nrows (gram_pair ms bi bo ei eo g) = nrows g
  ∧ ncols (gram_pair ms bi bo ei eo g) = ncols g.
Proof. apply gram_layers_shape. Qed.

Lemma gram_inner_shape ms (bo : batch) eo pre : ∀ ei (g : matrix R),
  nrows (gram_inner ms bo eo pre ei g) = nrows g
  ∧ ncols (gram_inner ms bo eo pre ei g) = ncols g.
Proof.
  induction pre as [|bi pre IH]; intros ei g; cbn [gram_inner].
  - apply gram_pair_shape.
  - destruct (IH (ei + examples bi)
                (gram_mirror bi bo ei eo (gram_pair ms bi bo ei eo g))) as [-> ->].
    cbn. apply gram_pair_shape.
Qed.

(** The backward hooks of an inner pass, layer by layer. *)
Lemma backward_inner_run (bi bo : batch) ei eo ms : ∀ (s : L2Loss) g gs,
  Forall (λ m, is_Linear m = true
               ∧ is_Some (p_pos s !! mod_id m)
               ∧ gy_outer s !! mod_id m = Some (layer_grad_output bo (mod_id m))
               ∧ x_outer s !! mod_id m = Some (layer_input bo (mod_id m))
               ∧ x_inner s !! mod_id m = Some (layer_input bi (mod_id m))
               ∧ linear_shapes bi m ∧ linear_shapes bo m) ms →
  outerloop_switch s = Some false →
  G s = Some g → e_inner s = Some ei → e_outer s = Some eo →
  meq g gs →
  ei + examples bi ≤ nrows g → eo + examples bo ≤ ncols g →
  ∃ g', for_each ms (λ m, call_hook bi m H_compute_flat_grad) s
          = (Ok tt, set_G (Some g') s)
        ∧ meq g' (foldl (gram_layer bi bo ei eo) gs ms).
Proof.
  induction ms as [|m ms IH]; intros s g gs Hall Hsw Hg Hei Heo Hmeq Hr Hc.
  - cbn. exists g. by rewrite set_G_id.
  - apply Forall_cons in Hall as [(Hl & Hp & Hgo & Hxo & Hxi & Hsi & Hso) Hall].
    destruct (hook_compute_flat_grad_run m bi bo s g gs ei eo) as (g1 & E1 & H1);
      try done.
    cbn [for_each]. erewrite bind_ok by exact E1.
    assert (nrows g1 = nrows g ∧ ncols g1 = ncols g) as [Hr1 Hc1].
    { destruct H1 as (-> & -> & _). destruct Hmeq as (-> & -> & _).
      apply gram_layer_shape. }
    destruct (IH (set_G (Some g1) s) g1 (gram_layer bi bo ei eo gs m))
      as (g2 & E2 & H2); try done.
    { by rewrite Hr1. }
    { by rewrite Hc1. }
    exists g2. split; [|done]. by rewrite E2.
Qed.

Lemma outer_view_inner_ready (bo : batch) eo (s s' : L2Loss) :
  outer_view s' = outer_view s → inner_ready bo eo s → inner_ready bo eo s'.
Proof.
  unfold outer_view. intros [= Hm Hld Hh Hmods Hpp Hsw Hxo Hgo Heo].
  intros (Hi & Hl & Hs & He & Hcache). unfold inner_ready.
  rewrite Hmods, Hpp, Hsw, Hxo, Hgo, Heo. split; [|done].
  eapply instrumented_ctl; [|exact Hi]. unfold ctl. congruence.
Qed.

(** An inner pass adds the contributions of all retained layers for the
    pair of batches. *)
Lemma inner_pass_run (bi bo : batch) ei eo (s : L2Loss) g gs :
  inner_ready bo eo s →
  G s = Some g → e_inner s = Some ei →
  meq g gs →
  Forall (linear_shapes bi) (mods s) → Forall (linear_shapes bo) (mods s) →
  ei + examples bi ≤ nrows g → eo + examples bo ≤ ncols g →
  ∃ g', forward_backward bi s
          = (Ok tt, set_G (Some g')
                      (set_x_inner (save_inputs bi (mods s) (x_inner s)) s))
        ∧ meq g' (gram_pair (mods s) bi bo ei eo gs).
Proof.
  intros (Hi & Hl & Hsw & Heo & Hcache) Hg Hei Hmeq Hsi Hso Hr Hc.
  rewrite (forward_backward_all_applied _ _ bi s Hi)
    by (eapply Forall_impl; [exact Hsi|]; by intros m (? & _)).
  erewrite bind_ok by (by apply forward_savex_io_inner_run).
  unfold gram_pair.
  apply (backward_inner_run bi bo ei eo _ _ g gs); try done.
  apply Forall_reverse. apply Forall_forall. intros m Hm.
  cbn [p_pos gy_outer x_outer x_inner set_x_inner].
  eapply Forall_forall in Hl as [? ?]; [|exact Hm].
  eapply Forall_forall in Hcache as [? ?]; [|exact Hm].
  eapply Forall_forall in Hsi; [|exact Hm].
  eapply Forall_forall in Hso; [|exact Hm].
  do 4 (split; [done|]). split; [by apply save_inputs_lookup|]. by split.
Qed.

(** The completion by symmetry. *)
Lemma G_copy_run no ni (s : L2Loss) g gs ei eo :
  G s = Some g → e_outer s = Some eo → e_inner s = Some ei →
  meq g gs →
  ei + ni ≤ nrows g → eo + no ≤ ncols g →
  eo + no ≤ nrows g → ei + ni ≤ ncols g →
  ∃ g', G_copy_transposed no ni s = (Ok tt, set_G (Some g') s)
        ∧ meq g' (block_add gs eo ei (transpose (block gs ei ni eo no))).
Proof.
  intros Hg Heo Hei Hmeq H1 H2 H3 H4. unfold G_copy_transposed.
  erewrite bind_ok by (by apply attr_ok).
  erewrite bind_ok by (by apply attr_ok).
  erewrite bind_ok by (by apply attr_ok).
  pose proof (transpose_meq _ _ (slice2_block g gs ei ni eo no Hmeq H1 H2)) as HV.
  set (V := transpose (slice2 g ei (ei + ni) eo (eo + no))) in *.
  assert (nrows V = no ∧ ncols V = ni) as [HVr HVc].
  { destruct HV as (-> & -> & _). done. }
  destruct (iadd_block_spec g gs V _ eo ei Hmeq HV) as (g' & E & H');
    [lia..|].
  rewrite HVr, HVc in E.
  erewrite bind_ok by (unfold lift; by rewrite E).
  by exists g'.
Qed.
End GramPasses.

Section GramLoops.
Context {R : Type} `{!Scalar R}.

Abbreviation M := (M R).
Abbreviation L2Loss := (L2Loss R).
Abbreviation batch := (batch R).

Lemma example_offset_app (pre post : list batch) :
  example_offset (pre ++ post) = example_offset pre + example_offset post.
Proof. unfold example_offset. by rewrite fmap_app, sum_list_with_app. Qed.

Lemma example_offset_cons (b : batch) l :
  example_offset (b :: l) = examples b + example_offset l.
Proof. done. Qed.

(** The inner loop of the outer batch [bo]: the batches [pre] before it with
    their completion by symmetry, then [bo] itself; the loop is left with
    its variable bound to the batch after [bo], if there is one. *)
Lemma inner_loop_run (bo : batch) eo N post pre :
  ∀ i_inner ei inputs (s : L2Loss) g gs,
    inner_ready bo eo s →
    G s = Some g → e_inner s = Some ei → meq g gs →
    nrows g = N → ncols g = N →
    Forall (λ b, Forall (linear_shapes b) (mods s) ∧ targets_size0 b = examples b)
           (pre ++ [bo]) →
    ei + example_offset pre + examples bo ≤ N → eo + examples bo ≤ N →
    ∃ s' g', inner_loop (i_inner + length pre) (examples bo) i_inner
               (pre ++ bo :: post) inputs s = (Ok (hd bo post), s')
             ∧ outer_view s' = outer_view s
             ∧ G s' = Some g'
             ∧ meq g' (gram_inner (mods s) bo eo pre ei gs)
             ∧ is_Some (e_inner s').
Proof.
  induction pre as [|bi pre IH];
    intros i_inner ei inputs s g gs Hready Hg Hei Hmeq Hr Hc Hall Hbi Hbo.
  - apply Forall_cons in Hall as [[Hso _] _].
    cbn [app length inner_loop gram_inner]. rewrite Nat.add_0_r, Nat.ltb_irrefl.
    unfold example_offset in Hbi. cbn in Hbi.
    destruct (inner_pass_run bo bo ei eo s g gs) as (g1 & E1 & H1);
      try done; try lia.
    erewrite bind_ok by exact E1.
    erewrite bind_ok by done.
    erewrite bind_ok by (by apply attr_ok).
    erewrite bind_ok by done.
    eexists _, g1. split; [|split; [|split; [|split]]].
    + destruct post as [|b' post]; cbn [inner_loop hd]; [done|].
      by rewrite (proj2 (Nat.ltb_lt i_inner (S i_inner))) by lia.
    + done.
    + done.
    + done.
    + by eexists.
  - apply Forall_cons in Hall as [[Hsi Hti] Hall].
    assert (Forall (linear_shapes bo) (mods s)) as Hso.
    { apply Forall_app in Hall as [_ Hbo']. by apply Forall_cons in Hbo' as [[? _] _]. }
    rewrite example_offset_cons in Hbi.
    cbn [app length inner_loop gram_inner].
    rewrite (proj2 (Nat.ltb_ge (i_inner + S (length pre)) i_inner)) by lia.
    destruct (inner_pass_run bi bo ei eo s g gs) as (g1 & E1 & H1);
      try done; try lia.
    erewrite bind_ok by exact E1.
    rewrite (proj2 (Nat.ltb_lt i_inner (i_inner + S (length pre)))) by lia.
    assert (nrows g1 = N ∧ ncols g1 = N) as [Hr1 Hc1].
    { destruct H1 as (? & ? & _), Hmeq as (? & ? & _),
        (gram_pair_shape (mods s) bi bo ei eo gs) as [? ?]. split; congruence. }
    destruct Hready as (Hi & Hl & Hsw & Heo & Hcache).
    destruct (G_copy_run (examples bo) (examples bi)
                (set_G (Some g1) (set_x_inner (save_inputs bi (mods s) (x_inner s)) s))
                g1 (gram_pair (mods s) bi bo ei eo gs) ei eo)
      as (g2 & E2 & H2); try done; try lia.
    rewrite Hti. erewrite bind_ok by exact E2.
    erewrite bind_ok by (by apply attr_ok).
    erewrite bind_ok by done.
    fold (gram_mirror bi bo ei eo (gram_pair (mods s) bi bo ei eo gs)) in H2.
    match goal with |- context [inner_loop _ _ _ _ _ ?s3] => set (s3' := s3) end.
    assert (nrows g2 = N ∧ ncols g2 = N) as [Hr2 Hc2].
    { destruct H2 as (? & ? & _), Hmeq as (? & ? & _),
        (gram_pair_shape (mods s) bi bo ei eo gs) as [? ?].
      unfold gram_mirror in *. cbn in *. split; congruence. }
    destruct (IH (S i_inner) (ei + examples bi) bi s3' g2
                (gram_mirror bi bo ei eo (gram_pair (mods s) bi bo ei eo gs)))
      as (s' & g' & E & Hv & Hg' & Hm' & He'); try done; try lia.
    replace (i_inner + S (length pre)) with (S i_inner + length pre) by lia.
    exists s', g'. by rewrite E.
Qed.

Lemma outer_view_ctl (s s' : L2Loss) :
  outer_view s' = outer_view s → ctl s' = ctl s ∧ e_outer s' = e_outer s.
Proof. unfold outer_view, ctl. intros [=]. split; congruence. Qed.

Lemma gram_ready_ctl (s s' : L2Loss) : ctl s' = ctl s → gram_ready s → gram_ready s'.
Proof.
  intros Hc [Hi Hl]. split; [by eapply instrumented_ctl|].
  injection Hc as _ _ _ Hmods Hpp. by rewrite Hmods, Hpp.
Qed.

(** The outer loop over the batches [rest] that follow [pre], on a data
    loader whose batches all have [n] examples: the offset [e_outer] stays
    the number of examples of the batches done. *)
Lemma outer_loop_run n N (loader tail : list batch) rest : ∀ pre (s : L2Loss) g gs,
  loader = pre ++ rest ++ tail →
  gram_ready s →
  Forall (λ b, Forall (linear_shapes b) (mods s)
               ∧ examples b = n ∧ targets_size0 b = n) loader →
  example_offset loader ≤ N →
  G s = Some g → meq g gs → nrows g = N → ncols g = N →
  e_outer s = Some (example_offset pre) →
  ∃ s' g', outer_loop loader (length pre) rest s = (Ok tt, s')
           ∧ ctl s' = ctl s
           ∧ G s' = Some g'
           ∧ meq g' (gram_outer (mods s) pre rest gs)
           ∧ e_outer s' = Some (example_offset (pre ++ rest))
           ∧ (rest ≠ [] ∨ is_Some (e_inner s) → is_Some (e_inner s')).
Proof.
  induction rest as [|bo rest IH];
    intros pre s g gs Hld Hready Hall HN Hg Hmeq Hr Hc Heo.
  - exists s, g. do 4 (split; [done|]). split; [by rewrite app_nil_r|].
    by intros [?|?].
  - destruct Hready as [Hi Hl].
    assert (Forall (λ b, Forall (linear_shapes b) (mods s)
                         ∧ targets_size0 b = examples b) (pre ++ [bo])) as Hpre.
    { apply Forall_forall. intros b Hb. eapply Forall_forall in Hall as (? & ? & ?).
      - split; [done|congruence].
      - rewrite Hld. apply elem_of_app in Hb as [?|Hb]; apply elem_of_app; [by left|].
        right. apply list_elem_of_singleton in Hb as ->. left. }
    assert (examples bo = n ∧ targets_size0 bo = n) as [Hbo Hto].
    { eapply Forall_forall in Hall as (? & ? & ?); [done|].
      rewrite Hld. apply elem_of_app. right. left. }
    assert (example_offset pre + examples bo + example_offset (rest ++ tail) ≤ N)
      as Hsum.
    { rewrite Hld in HN. cbn [app] in HN.
      rewrite (example_offset_app pre), example_offset_cons in HN. lia. }
    cbn [outer_loop].
    erewrite bind_ok by done.
    erewrite bind_ok.
    2: { apply outer_pass_run; [done|done|].
         eapply Forall_forall in Hall as (Hsb & _);
           [|rewrite Hld; apply elem_of_app; right; left].
         eapply Forall_impl; [exact Hsb|]. by intros m (? & _). }
    erewrite bind_ok by done. erewrite bind_ok by done.
    match goal with |- context [bind (inner_loop _ _ _ _ _) _ ?sd] =>
      set (sd' := sd) end.
    assert (inner_ready bo (example_offset pre) sd') as Hin.
    { split; [|split; [|split; [|split]]]; try done.
      apply Forall_forall. intros m Hm. subst sd'. cbn. split.
      - by apply save_inputs_lookup.
      - apply save_grads_lookup. by apply elem_of_reverse. }
    destruct (inner_loop_run bo (example_offset pre) N (rest ++ tail) pre 0 0 bo sd' g gs)
      as (s1 & g1 & E1 & Hv1 & Hg1 & Hm1 & He1); try done; try lia.
    rewrite Hto, <- Hbo, Hld. cbn [Nat.add app] in *. erewrite bind_ok by exact E1.
    destruct (outer_view_ctl _ _ Hv1) as [Hc1 Heo1].
    change (ctl sd') with (ctl s) in Hc1.
    change (e_outer sd') with (e_outer s) in Heo1. rewrite Heo in Heo1.
    erewrite bind_ok by (by apply attr_ok).
    erewrite bind_ok by done.
    assert (inputs_size0 (hd bo (rest ++ tail)) = examples bo) as Hnext.
    { destruct (rest ++ tail) as [|b' rest'] eqn:Ert; [done|]. cbn.
      eapply Forall_forall in Hall as (_ & Hb' & _);
        [fold (examples b'); rewrite Hb'; done|].
      rewrite Hld. apply elem_of_app. right. right. left. }
    rewrite Hnext.
    match goal with |- context [outer_loop _ _ _ ?s2] => set (s2' := s2) end.
    assert (mods s1 = mods s) as Hmods1 by (by injection Hc1).
    assert (nrows g1 = N ∧ ncols g1 = N) as [Hr1 Hc1'].
    { destruct Hm1 as (? & ? & _), Hmeq as (? & ? & _),
        (gram_inner_shape (mods sd') bo (example_offset pre) pre 0 gs) as [? ?].
      split; congruence. }
    destruct (IH (pre ++ [bo]) s2' g1 (gram_inner (mods s) bo (example_offset pre) pre 0 gs))
      as (s' & g' & E & Hc' & Hg' & Hm' & Heo' & Hei'); try done.
    { by rewrite <- app_assoc. }
    { apply (gram_ready_ctl s); [|done]. subst s2'. unfold ctl in *. cbn. exact Hc1. }
    { subst s2'. cbn. by rewrite Hmods1. }
    { subst s2'. cbn. rewrite example_offset_app. unfold example_offset at 2.
      cbn. do 2 f_equal. lia. }
    rewrite length_app, Nat.add_1_r, Hld in E.
    exists s', g'. rewrite E. split; [done|]. split.
    { rewrite Hc'. subst s2'. unfold ctl in *. cbn. exact Hc1. }
    split; [done|]. split.
    { subst s2'. cbn in Hm'. by rewrite Hmods1 in Hm'. }
    split; [by rewrite <- app_assoc in Heo'|]. intros _. apply Hei'. right. by subst s2'.
Qed.
End GramLoops.

Section GramClaim.
Context {R : Type} `{!Scalar R}.

Abbreviation M := (M R).
Abbreviation L2Loss := (L2Loss R).
Abbreviation batch := (batch R).

Lemma constructed_positions md (ld : data_loader R) (s : L2Loss) :
  layers_have_weight md → distinct_modules md →
  Forall (λ m, is_Linear m = true) (retained_layers md) →
  L2Loss_new md ld = Ok s →
  Forall (λ m, is_Linear m = true ∧ is_Some (p_pos s !! mod_id m)) (retained_layers md).
Proof.
  intros Hw Hnd Hlin Hnew.
  pose proof (constructed_layout md ld s Hw Hnd Hlin Hnew) as Hready.
  apply Forall_forall. intros m Hm.
  assert (m ∈ (layout md).*2) as Hin by (unfold layout; by rewrite layout_from_snd).
  apply list_elem_of_fmap in Hin as ([st m'] & -> & Hin).
  eapply Forall_forall in Hready as (Hl & Hp & _); [|exact Hin].
  split; [done|]. by eexists.
Qed.

(** On a data loader whose batches all have the same number of examples,
    [get_matrix] returns the Gram matrix of the specification: for every
    pair of batches with inner index at most the outer index every retained
    layer has added its value to the block of the inner batch's rows and the
    outer batch's columns, and the blocks below the diagonal are completed
    by symmetry. *)
Lemma get_matrix_on_uniform_batches md (ld : data_loader R) (s : L2Loss) n :
  linear_task md ld →
  L2Loss_new md ld = Ok s →
  uniform_batches n ld →
  ∃ g, (get_matrix s).1 = Ok g ∧ meq g (gram_spec md ld).
Proof.
  intros (Hnohooks & Hnd & Hw & Hparams & Hlin & Hshapes) Hnew (Hne & Hsizes & HN).
  pose proof (constructed_positions md ld s Hw Hnd Hlin Hnew) as Hpos.
  destruct (L2Loss_new_inv md ld s Hw Hnew) as [_ ->].
  unfold get_matrix.
  erewrite bind_ok by apply add_hooks_run.
  erewrite bind_ok by done.
  erewrite bind_ok by (by apply first_parameter_device_ok).
  erewrite bind_ok by done. erewrite bind_ok by done.
  erewrite bind_ok by done. erewrite bind_ok by done.
  cbn [dataloader model set_G set_e_outer set_handles set_hooks set_model set_mods
       set_p_pos blank modules mods].
  match goal with |- context [bind (outer_loop _ _ _) _ ?s1] =>
    set (s1' := s1) end.
  assert (gram_ready s1') as Hready.
  { split; [|done]. split; [|split]; [|done|done]. eexists. subst s1'. cbn.
    by rewrite Hnohooks. }
  assert (Forall (λ b, Forall (linear_shapes b) (mods s1')
                       ∧ examples b = n ∧ targets_size0 b = n) (batches ld)) as Hall.
  { apply Forall_forall. intros b Hb.
    eapply Forall_forall in Hshapes; [|exact Hb].
    eapply Forall_forall in Hsizes; [|exact Hb]. done. }
  assert (batches ld = [] ++ batches ld ++ []) as Hsplit by (by rewrite app_nil_r).
  destruct (outer_loop_run n (sampler_len ld) (batches ld) [] (batches ld) [] s1'
              (zeros2 (sampler_len ld) (sampler_len ld))
              (zeros2 (sampler_len ld) (sampler_len ld))
              Hsplit Hready Hall (Nat.eq_le_incl _ _ (eq_sym HN)) eq_refl (meq_refl _) eq_refl eq_refl eq_refl)
    as (s2 & g & E & Hc & Hg & Hmeq & Heo & Hei).
  destruct Hei as [ei Hei]; [by left|].
  erewrite bind_ok by exact E.
  erewrite bind_ok by (by apply attr_ok).
  erewrite bind_ok by (unfold del; erewrite bind_ok by (by apply attr_ok); done).
  erewrite bind_ok by (unfold del; erewrite bind_ok by (by apply attr_ok); done).
  erewrite bind_ok by (unfold del; erewrite bind_ok by (by apply attr_ok); done).
  erewrite bind_ok by done. erewrite bind_ok by done. erewrite bind_ok by done.
  erewrite bind_ok by apply for_each_remove_run.
  exists g. split; [done|]. exact Hmeq.
Qed.

(** On such a data loader the offset [e_outer] is, at the start of every
    outer iteration, the number of examples of the batches before it. *)
Lemma e_outer_aligned_on_uniform_batches md (ld : data_loader R) (s : L2Loss) n
    pre rest :
  linear_task md ld →
  L2Loss_new md ld = Ok s →
  uniform_batches n ld →
  batches ld = pre ++ rest →
  ∃ s', outer_loop (batches ld) 0 pre (at_outer_loop s) = (Ok tt, s')
        ∧ e_outer s' = Some (example_offset pre).
Proof.
  intros (Hnohooks & Hnd & Hw & Hparams & Hlin & Hshapes) Hnew (Hne & Hsizes & HN) Hsplit.
  pose proof (constructed_positions md ld s Hw Hnd Hlin Hnew) as Hpos.
  destruct (L2Loss_new_inv md ld s Hw Hnew) as [_ ->].
  unfold at_outer_loop.
  erewrite bind_ok by apply add_hooks_run. unfold modify.
  cbn [snd dataloader model set_G set_e_outer set_handles set_hooks set_model set_mods
       set_p_pos blank modules mods].
  match goal with |- context [outer_loop _ _ _ ?s1] => set (s1' := s1) end.
  assert (gram_ready s1') as Hready.
  { split; [|done]. split; [|split]; [|done|done]. eexists. subst s1'. cbn.
    by rewrite Hnohooks. }
  assert (Forall (λ b, Forall (linear_shapes b) (mods s1')
                       ∧ examples b = n ∧ targets_size0 b = n) (batches ld)) as Hall.
  { apply Forall_forall. intros b Hb.
    eapply Forall_forall in Hshapes; [|exact Hb].
    eapply Forall_forall in Hsizes; [|exact Hb]. done. }
  assert (batches ld = [] ++ pre ++ rest) as Hsplit' by done.
  destruct (outer_loop_run n (sampler_len ld) (batches ld) rest pre [] s1'
              (zeros2 (sampler_len ld) (sampler_len ld))
              (zeros2 (sampler_len ld) (sampler_len ld))
              Hsplit' Hready Hall (Nat.eq_le_incl _ _ (eq_sym HN)) eq_refl (meq_refl _) eq_refl eq_refl eq_refl)
    as (s2 & g & E & Hc & Hg & Hmeq & Heo & Hei).
  exists s2. split; [exact E|exact Heo].
Qed.
End GramClaim.

Section GramSymmetry.
Context {R : Type} `{!Scalar R}.
Hypothesis radd_0_l : ∀ x : R, radd rzero x = x.

Abbreviation batch := (batch R).

Lemma block_add_out (G V : matrix R) r0 c0 r c :
  ¬ (r0 ≤ r < r0 + nrows V ∧ c0 ≤ c < c0 + ncols V) →
  entry (block_add G r0 c0 V) r c = entry G r c.
Proof.
  intros Hout. unfold block_add. cbn [entry].
  destruct ((r0 <=? r) && (r <? r0 + nrows V) && (c0 <=? c) && (c <? c0 + ncols V))
    eqn:E; [|done].
  apply andb_prop in E as [E E4]. apply andb_prop in E as [E E3].
  apply andb_prop in E as [E1 E2].
  apply Nat.leb_le in E1, E3. apply Nat.ltb_lt in E2, E4. lia.
Qed.

Lemma block_add_in (G V : matrix R) r0 c0 r c :
  r0 ≤ r < r0 + nrows V → c0 ≤ c < c0 + ncols V →
  entry (block_add G r0 c0 V) r c = radd (entry G r c) (entry V (r - r0) (c - c0)).
Proof.
  intros Hr Hc. unfold block_add. cbn [entry].
  rewrite (proj2 (Nat.leb_le r0 r)), (proj2 (Nat.ltb_lt r _)),
    (proj2 (Nat.leb_le c0 c)), (proj2 (Nat.ltb_lt c _)) by lia.
  done.
Qed.

(** A layer writes only the block of the pair of batches. *)
Lemma gram_layer_out (bi bo : batch) ei eo (G : matrix R) m r c :
  linear_shapes bi m → linear_shapes bo m →
  ¬ (ei ≤ r < ei + examples bi ∧ eo ≤ c < eo + examples bo) →
  entry (gram_layer bi bo ei eo G m) r c = entry G r c.
Proof.
  intros (_ & HXi & HGi & _) (_ & HXo & HGo & _) Hout. unfold gram_layer.
  destruct (bias m).
  - rewrite !block_add_out; [done| |]; cbn; rewrite ?HXi, ?HXo, ?HGi, ?HGo; done.
  - rewrite block_add_out; [done|]. cbn. by rewrite HXi, HXo.
Qed.

Lemma gram_pair_out ms (bi bo : batch) ei eo (G : matrix R) r c :
  Forall (linear_shapes bi) ms → Forall (linear_shapes bo) ms →
  ¬ (ei ≤ r < ei + examples bi ∧ eo ≤ c < eo + examples bo) →
  entry (gram_pair ms bi bo ei eo G) r c = entry G r c.
Proof.
  intros Hi Ho Hout. unfold gram_pair.
  apply Forall_reverse in Hi, Ho. revert G Hi Ho.
  induction (reverse ms) as [|m l IH]; intros G Hi Ho; [done|].
  apply Forall_cons in Hi as [Hmi Hi], Ho as [Hmo Ho].
  cbn [foldl]. rewrite IH by done. by apply gram_layer_out.
Qed.

Lemma gram_mirror_out (bi bo : batch) ei eo (G : matrix R) r c :
  ¬ (eo ≤ r < eo + examples bo ∧ ei ≤ c < ei + examples bi) →
  entry (gram_mirror bi bo ei eo G) r c = entry G r c.
Proof. intros Hout. unfold gram_mirror. by rewrite block_add_out. Qed.

Lemma gram_mirror_in (bi bo : batch) ei eo (G : matrix R) r c :
  eo ≤ r < eo + examples bo → ei ≤ c < ei + examples bi →
  entry (gram_mirror bi bo ei eo G) r c = radd (entry G r c) (entry G c r).
Proof.
  intros Hr Hc. unfold gram_mirror. rewrite block_add_in by done.
  cbn. do 2 f_equal; lia.
Qed.

(** One inner batch with its completion by symmetry. *)
Lemma inner_progress_step n E ei ms (bi bo : batch) (G0 G' : matrix R) :
  examples bi = n → examples bo = n → ei + n ≤ E →
  Forall (linear_shapes bi) ms → Forall (linear_shapes bo) ms →
  inner_progress n E ei G0 G' →
  inner_progress n E (ei + n) G0
    (gram_mirror bi bo ei E (gram_pair ms bi bo ei E G')).
Proof.
  intros Hni Hno Hle Hsi Hso (J0 & J1 & J2 & J3 & J4).
  assert (∀ r c, ¬ (ei ≤ r < ei + n ∧ E ≤ c < E + n) →
            entry (gram_pair ms bi bo ei E G') r c = entry G' r c) as Hpair.
  { intros r c Hout. apply gram_pair_out; [done..|]. by rewrite Hni, Hno. }
  assert (∀ r c, ¬ (E ≤ r < E + n ∧ ei ≤ c < ei + n) →
            entry (gram_mirror bi bo ei E (gram_pair ms bi bo ei E G')) r c
            = entry (gram_pair ms bi bo ei E G') r c) as Hmir.
  { intros r c Hout. apply gram_mirror_out. by rewrite Hni, Hno. }
  split; [|split; [|split; [|split]]].
  - intros r c Hrc. rewrite Hmir, Hpair by lia. by apply J0.
  - intros r c Hr Hc. rewrite Hmir, Hpair by lia. apply J1; lia.
  - intros r c Hr Hc. rewrite Hmir, Hpair by lia. apply J2; lia.
  - intros r c Hr Hc. rewrite Hmir, Hpair by lia. by apply J3.
  - intros r c Hr Hc.
    rewrite (Hmir c r) by lia.
    destruct (decide (r < E + n ∧ ei ≤ c)) as [[Hr' Hc']|Hnot].
    + rewrite gram_mirror_in by (rewrite ?Hni, ?Hno; lia).
      rewrite (Hpair r c) by lia. rewrite (J1 r c) by lia.
      apply radd_0_l.
    + rewrite Hmir by lia. rewrite (Hpair r c) by lia.
      destruct (decide (c < ei)) as [Hlt|Hge].
      * rewrite (Hpair c r) by lia. by apply J4.
      * rewrite (J1 r c) by lia. rewrite (Hpair c r) by lia.
        symmetry. apply J2; lia.
Qed.

(** All inner batches of an outer batch, and its diagonal block. *)
Lemma gram_inner_progress n E ms (bo : batch) (G0 : matrix R) pre : ∀ ei G',
  examples bo = n →
  Forall (λ b, examples b = n ∧ Forall (linear_shapes b) ms) pre →
  Forall (linear_shapes bo) ms →
  ei + example_offset pre = E →
  inner_progress n E ei G0 G' →
  zero_outside (E + n) (gram_inner ms bo E pre ei G')
  ∧ (∀ r c, r < E → c < E →
       entry (gram_inner ms bo E pre ei G') r c = entry G0 r c)
  ∧ (∀ r c, E ≤ r → c < E →
       entry (gram_inner ms bo E pre ei G') r c
       = entry (gram_inner ms bo E pre ei G') c r).
Proof.
  induction pre as [|bi pre IH]; intros ei G' Hno Hpre Hso Hei Hprog.
  - unfold example_offset in Hei. cbn in Hei. assert (ei = E) as -> by lia.
    destruct Hprog as (J0 & J1 & J2 & J3 & J4). cbn [gram_inner].
    assert (∀ r c, ¬ (E ≤ r < E + n ∧ E ≤ c < E + n) →
              entry (gram_pair ms bo bo E E G') r c = entry G' r c) as Hpair.
    { intros r c Hout. apply gram_pair_out; [done..|]. by rewrite Hno. }
    split; [|split].
    + intros r c Hrc. rewrite Hpair by lia. by apply J0.
    + intros r c Hr Hc. rewrite Hpair by lia. by apply J3.
    + intros r c Hr Hc. rewrite !Hpair by lia. by apply J4.
  - apply Forall_cons in Hpre as [[Hni Hsi] Hpre].
    change (example_offset (bi :: pre)) with (examples bi + example_offset pre) in Hei.
    cbn [gram_inner]. rewrite Hni in *.
    apply IH; try done; [lia|].
    apply inner_progress_step; try done. lia.
Qed.

Lemma example_offset_uniform n (l : list batch) :
  Forall (λ b, examples b = n) l → example_offset l = length l * n.
Proof.
  induction 1 as [|b l Hb Hl IH]; [done|].
  change (example_offset (b :: l)) with (examples b + example_offset l).
  rewrite IH, Hb. cbn. lia.
Qed.

Lemma earlier_batch_lt n k r c :
  k * n ≤ r → r < k * n + n → c / n < r / n → c < k * n.
Proof.
  intros Hr1 Hr2 Hdiv.
  assert (n ≠ 0) as Hn by lia.
  assert (r / n = k) as Hk.
  { symmetry. apply (Nat.div_unique r n k (r - k * n)); lia. }
  rewrite Hk in Hdiv.
  destruct (decide (c < k * n)) as [|Hge]; [done|].
  assert (k ≤ c / n); [|lia].
  apply Nat.div_le_lower_bound; lia.
Qed.

Lemma earlier_batch_lt_row n r c : c / n < r / n → c < r.
Proof.
  intros Hdiv. destruct (decide (c < r)) as [|Hge]; [done|].
  assert (r / n ≤ c / n); [|lia]. apply Nat.Div0.div_le_mono. lia.
Qed.

(** The outer batches, one after the other. *)
Lemma gram_outer_mirrored n ms rest : ∀ pre (G : matrix R),
  Forall (λ b, examples b = n ∧ Forall (linear_shapes b) ms) (pre ++ rest) →
  zero_outside (example_offset pre) G →
  mirrored_below n (example_offset pre) G →
  zero_outside (example_offset (pre ++ rest)) (gram_outer ms pre rest G)
  ∧ mirrored_below n (example_offset (pre ++ rest)) (gram_outer ms pre rest G).
Proof.
  induction rest as [|bo rest IH]; intros pre G Hall Hzero Hmir.
  - rewrite app_nil_r. done.
  - cbn [gram_outer].
    assert (Forall (λ b, examples b = n ∧ Forall (linear_shapes b) ms) pre) as Hpre
      by (by apply Forall_app in Hall as [? _]).
    assert (examples bo = n ∧ Forall (linear_shapes bo) ms) as [Hno Hso].
    { apply Forall_app in Hall as [_ Hb]. by apply Forall_cons in Hb as [? _]. }
    set (E := example_offset pre) in *.
    assert (E = length pre * n) as HE.
    { apply example_offset_uniform. eapply Forall_impl; [exact Hpre|]. by intros b [? _]. }
    destruct (gram_inner_progress n E ms bo G pre 0 G) as (Hz & Hold & Hnew);
      try done.
    { split; [|split; [|split; [|split]]].
      - intros r c Hrc. apply Hzero. lia.
      - intros r c Hr Hc. apply Hzero. lia.
      - intros r c Hr Hc. apply Hzero. lia.
      - done.
      - intros r c Hr Hc. lia. }
    replace (pre ++ bo :: rest) with ((pre ++ [bo]) ++ rest) in *
      by (by rewrite <- app_assoc).
    assert (example_offset (pre ++ [bo]) = E + n) as Hoff.
    { unfold E, example_offset. rewrite fmap_app, sum_list_with_app. cbn.
      rewrite Hno. lia. }
    apply IH; [done|by rewrite Hoff|]. rewrite Hoff.
    intros r c Hr Hdiv.
    pose proof (earlier_batch_lt_row n r c Hdiv) as Hcr.
    destruct (decide (r < E)) as [Hlt|Hge].
    + rewrite !Hold by lia. by apply Hmir.
    + apply Hnew; [lia|]. rewrite HE in *.
      apply (earlier_batch_lt n (length pre) r c); [lia|lia|done].
Qed.

(** With batches of one size, the Gram matrix of the specification has, in
    the rows of a later batch and the columns of an earlier batch, the
    transpose of the block accumulated for the pair. *)
Lemma gram_spec_mirrored md (ld : data_loader R) n :
  Forall (λ b, examples b = n ∧ Forall (linear_shapes b) (retained_layers md))
         (batches ld) →
  ∀ r c, c / n < r / n →
    entry (gram_spec md ld) r c = entry (gram_spec md ld) c r.
Proof.
  intros Hall r c Hdiv. unfold gram_spec.
  destruct (gram_outer_mirrored n (retained_layers md) (batches ld) []
              (zeros2 (sampler_len ld) (sampler_len ld))) as [Hz Hm]; try done.
  cbn [app] in *.
  destruct (decide (r < example_offset (batches ld))) as [Hlt|Hge].
  - by apply Hm.
  - rewrite !Hz by lia. done.
Qed.

Lemma gram_outer_shape ms rest : ∀ pre (g : matrix R),
  nrows (gram_outer ms pre rest g) = nrows g
  ∧ ncols (gram_outer ms pre rest g) = ncols g.
Proof.
  induction rest as [|bo rest IH]; intros pre g; cbn [gram_outer]; [done|].
  destruct (IH (pre ++ [bo]) (gram_inner ms bo (example_offset pre) pre 0 g))
    as [-> ->].
  apply gram_inner_shape.
Qed.

(** On a data loader whose batches all have [n] examples, the matrix
    [get_matrix] returns is square of side the number of examples, and its
    entry in the row of a later batch and the column of an earlier batch is
    the entry at the transposed position. *)
Lemma get_matrix_symmetric_on_uniform_batches md (ld : data_loader R)
    (s : L2Loss R) n :
  linear_task md ld →
  L2Loss_new md ld = Ok s →
  uniform_batches n ld →
  ∃ g, (get_matrix s).1 = Ok g
       ∧ nrows g = sampler_len ld ∧ ncols g = sampler_len ld
       ∧ ∀ r c, r < sampler_len ld → c / n < r / n →
           entry g r c = entry g c r.
Proof.
  intros Htask Hnew Hun.
  destruct (get_matrix_on_uniform_batches md ld s n Htask Hnew Hun)
    as (g & Hg & Hr & Hc & Hentries).
  destruct (gram_outer_shape (retained_layers md) (batches ld) []
              (zeros2 (sampler_len ld) (sampler_len ld))) as [Hnr Hnc].
  fold (gram_spec md ld) in Hnr, Hnc. cbn in Hnr, Hnc.
  rewrite Hnr in Hr. rewrite Hnc in Hc.
  exists g. split; [done|]. split; [done|]. split; [done|].
  intros r c Hlt Hdiv.
  pose proof (earlier_batch_lt_row n r c Hdiv) as Hcr.
  rewrite !Hentries by lia.
  apply (gram_spec_mirrored md ld n); [|done].
  destruct Htask as (_ & _ & _ & _ & _ & Hshapes).
  destruct Hun as (_ & Hsizes & _).
  apply Forall_forall. intros b Hb.
  eapply Forall_forall in Hshapes; [|exact Hb].
  eapply Forall_forall in Hsizes; [|exact Hb]. split; [apply Hsizes|done].
Qed.
End GramSymmetry.

(** ** The statements at concrete inputs *)

Lemma unsupported_layer_halts_query_witness :
  raises get_matrix (constructed ex_conv_model ex_loader_single)
  ∧ raises (implicit_m_norm (of_list [1; 1]%Z)) (constructed ex_conv_model ex_loader_single).
Proof.
  refine (proj2 (proj2 (unsupported_layer_halts_query ex_conv (of_lists [])
                          (of_list [1; 1]%Z)
                          (constructed ex_conv_model ex_loader_single) _)) _ _ _).
  - reflexivity.
  - vm_compute. left.
  - vm_compute. right. left.
  - apply Exists_cons_hd. reflexivity.
Defined.

(** C4, as stated, fails. The constructor accepts a model with a [Conv2d]
    layer, and both queries raise [NotImplementedError] on it, on a batch
    whose closure applies the layer; and the
    constructor rejects a model whose only trainable parameter belongs to a
    [Linear] layer, when the weight of that layer is frozen. *)
Lemma conv2d_queries_raise :
  L2Loss_new ex_conv_model ex_loader_single = Ok (constructed ex_conv_model ex_loader_single)
  ∧ (get_matrix (constructed ex_conv_model ex_loader_single)).1 = Raise NotImplementedError
  ∧ (implicit_m_norm (of_list [1; 1]%Z) (constructed ex_conv_model ex_loader_single)).1
      = Raise NotImplementedError
  ∧ L2Loss_new ex_frozen_model ex_loader_single = Raise AssertionError.
Proof. repeat split; vm_compute; reflexivity. Qed.

Lemma conv2d_accepted_by_constructor_only_witness :
  ∃ s, L2Loss_new ex_conv_model ex_loader_single = Ok s
       ∧ mods s = retained_layers ex_conv_model
       ∧ ∀ m, m ∈ retained_layers ex_conv_model → is_Linear m = false →
           Exists (λ b, applied b (mod_id m) = true) (batches ex_loader_single) →
           raises get_matrix s ∧ raises (implicit_m_norm (of_list [1; 1]%Z)) s.
Proof.
  apply (conv2d_accepted_by_constructor_only ex_conv_model ex_loader_single).
  unfold supported_layout. split; compute_done.
Defined.

(** C5, as stated, fails on the error path: [get_matrix] on the model with a
    [Conv2d] layer raises, and the two hooks it registered, with handle ids 0
    and 1, are registered still. *)
Lemma hooks_leak_when_query_raises :
  (get_matrix (constructed ex_conv_model ex_loader_single)).1 = Raise NotImplementedError
  ∧ live (get_matrix (constructed ex_conv_model ex_loader_single)).2 = [0; 1]
  ∧ (implicit_m_norm (of_list [1; 1]%Z) (constructed ex_conv_model ex_loader_single)).1
      = Raise NotImplementedError
  ∧ live (implicit_m_norm (of_list [1; 1]%Z) (constructed ex_conv_model ex_loader_single)).2
      = [0; 1].
Proof. repeat split; vm_compute; reflexivity. Qed.

Lemma hooks_removed_only_on_return_witness :
  (∃ g s', get_matrix (constructed ex_model ex_loader_single) = (Ok g, s')
           ∧ handles s' = handles (constructed ex_model ex_loader_single)
                            ++ new_handles (constructed ex_model ex_loader_single)
           ∧ ∀ h, h ∈ handles s' → h ∉ live s')
  ∧ (∃ e s', get_matrix (constructed ex_conv_model ex_loader_single) = (Raise e, s')
             ∧ ∀ h, h ∈ new_handles (constructed ex_conv_model ex_loader_single) →
                 h ∈ live s').
Proof.
  split.
  - destruct (get_matrix (constructed ex_model ex_loader_single)) as [[g|e] s'] eqn:E.
    + exists g, s'. split; [reflexivity|].
      exact (proj1 (proj2 (hooks_removed_only_on_return
                             (constructed ex_model ex_loader_single) (of_list [])))
               g s' E).
    + exfalso.
      assert (match (get_matrix (constructed ex_model ex_loader_single)).1 with
              | Ok _ => True
              | Raise _ => False
              end) as Hok by (vm_compute; exact I).
      rewrite E in Hok. exact Hok.
  - destruct (get_matrix (constructed ex_conv_model ex_loader_single))
      as [[g|e] s'] eqn:E.
    + exfalso.
      assert (match (get_matrix (constructed ex_conv_model ex_loader_single)).1 with
              | Ok _ => False
              | Raise _ => True
              end) as Hok by (vm_compute; exact I).
      rewrite E in Hok. exact Hok.
    + exists e, s'. split; [reflexivity|].
      exact (proj1 (proj2 (proj2 (hooks_removed_only_on_return
                             (constructed ex_conv_model ex_loader_single) (of_list []))))
               e s' E).
Defined.

(** C6 at a concrete query: [get_matrix] on one batch and one [Linear] layer
    returns, [x_outer] and [x_inner] are reset, and [gy_outer] still holds
    the output gradient of the layer with id 1; [implicit_m_norm] afterwards
    resets [xs] and leaves [gy_outer] as it is. [release_buffers] resets all
    four. *)
Lemma gy_outer_survives_get_matrix :
  let s1 := (get_matrix (constructed ex_model ex_loader_single)).2 in
  let s2 := (implicit_m_norm (of_list [1; 1]%Z) s1).2 in
  to_lists <$> (get_matrix (constructed ex_model ex_loader_single)).1
    = Ok [[6; 24]; [24; 104]]%Z
  ∧ dom (x_outer s1) = ∅ ∧ dom (x_inner s1) = ∅ ∧ dom (xs s1) = ∅
  ∧ to_lists <$> gy_outer s1 !! 1 = Some [[1]; [2]]%Z
  ∧ (implicit_m_norm (of_list [1; 1]%Z) s1).1 = Ok 12%Z
  ∧ dom (xs s2) = ∅
  ∧ to_lists <$> gy_outer s2 !! 1 = Some [[1]; [2]]%Z
  ∧ dom (gy_outer (release_buffers s2).2) = ∅.
Proof. repeat split; vm_compute; reflexivity. Qed.

Lemma implicit_m_norm_accumulates_witness :
  (implicit_m_norm (of_list [1; 1; 1]%Z) (constructed ex_model ex_loader_ragged)).1
    = Ok (m_norm_spec ex_model ex_loader_ragged (of_list [1; 1; 1]%Z))
  ∧ m_norm_spec ex_model ex_loader_ragged (of_list [1; 1; 1]%Z) = 36%Z.
Proof.
  split; [|vm_compute; reflexivity].
  apply (implicit_m_norm_accumulates ex_model ex_loader_ragged).
  - unfold linear_task. repeat split; try compute_done.
    all: repeat constructor; vm_compute; repeat split; lia.
  - vm_compute. reflexivity.
  - cbn. unfold examples. cbn. lia.
  - reflexivity.
Defined.

Lemma nominal_slices_are_batch_slices_witness :
  (∀ s, m_norm_loop (of_list [10; 20; 30]%Z) 2 0 [ex_batch_a; ex_batch_b] s
        = m_norm_loop_by_examples (of_list [10; 20; 30]%Z) 0 [ex_batch_a; ex_batch_b] s)
  ∧ ∀ pre b post, [ex_batch_a; ex_batch_b] = pre ++ b :: post →
      let c := vslice (of_list [10; 20; 30]%Z) (length pre * 2) (length pre * 2 + 2) in
      c = vslice (of_list [10; 20; 30]%Z) (example_offset pre)
            (example_offset pre + examples b)
      ∧ vlen c = examples b
      ∧ ∀ j, j < examples b →
          vat c j = vat (of_list [10; 20; 30]%Z) (example_offset pre + j).
Proof.
  apply (nominal_slices_are_batch_slices (of_list [10; 20; 30]%Z) 2
           [ex_batch_a; ex_batch_b]).
  - cbn. unfold examples. cbn. lia.
  - reflexivity.
Defined.

(** C9 at a data loader whose last batch is short (batches of 2 and of 1
    example, [batch_size = 2]): after the first outer iteration [e_outer]
    is 1, the size of the batch the inner loop fetched before it left,
    while the first batch has 2 examples. *)
Lemma e_outer_misaligned_on_short_last_batch :
  let s0 := at_outer_loop (constructed ex_model ex_loader_ragged) in
  let s1 := (outer_loop (batches ex_loader_ragged) 0 [ex_batch_a] s0).2 in
  nominal_batches 2 (batches ex_loader_ragged)
  ∧ (outer_loop (batches ex_loader_ragged) 0 [ex_batch_a] s0).1 = Ok tt
  ∧ e_outer s1 = Some 1
  ∧ example_offset [ex_batch_a] = 2.
Proof. repeat split; vm_compute; try reflexivity; lia. Qed.

(** C1 at the same data loader: for the outer batch 1 and the inner batch 0
    the layer's values 54 and 240 belong to rows 0-1 of column 2, the column
    of the outer batch's example; [get_matrix] adds them to column 1. *)
Lemma gram_block_misplaced_on_short_last_batch :
  to_lists <$> (get_matrix (constructed ex_model ex_loader_ragged)).1
    = Ok [[6; 78; 0]; [102; 688; 0]; [0; 558; 0]]%Z
  ∧ to_lists (gram_spec ex_model ex_loader_ragged)
    = [[6; 24; 54]; [24; 104; 240]; [54; 240; 558]]%Z.
Proof. split; vm_compute; reflexivity. Qed.

(** C2 at the same data loader: the matrix [get_matrix] returns is not
    symmetric; the block of the outer batch's row and the inner batch's
    columns is not the transpose of the block of the inner batch's rows and
    the outer batch's column. *)
Lemma gram_not_symmetric_on_short_last_batch :
  let G := (get_matrix (constructed ex_model ex_loader_ragged)).1 in
  (λ g, to_lists (block g 2 1 0 2)) <$> G = Ok [[0; 558]]%Z
  ∧ (λ g, to_lists (transpose (block g 0 2 2 1))) <$> G = Ok [[0; 0]]%Z
  ∧ (λ g, entry g 0 1) <$> G = Ok 78%Z
  ∧ (λ g, entry g 1 0) <$> G = Ok 102%Z.
Proof. repeat split; vm_compute; reflexivity. Qed.

(** ** Behaviour at the edges: no batch, no parameter *)

Section Edges.
Context {R : Type} `{!Scalar R}.

Abbreviation M := (M R).
Abbreviation L2Loss := (L2Loss R).
Abbreviation batch := (batch R).

(** X1. [get_matrix] on a data loader that yields no batch: the loops do not
    run, [self.e_inner] is never assigned and [del self.e_inner] raises
    [AttributeError]; the buffer [self.G] stays allocated and the hooks of
    the query stay registered. *)
Theorem get_matrix_empty_loader (s : L2Loss) :
  parameters (model s) ≠ [] →
  batches (dataloader s) = [] →
  e_inner s = None →
  ∃ s', get_matrix s = (Raise AttributeError, s')
        ∧ G s' = Some (zeros2 (sampler_len (dataloader s)) (sampler_len (dataloader s)))
        ∧ handles s' = handles s ++ new_handles s
        ∧ ∀ h, h ∈ new_handles s → h ∈ live s'.
Proof.
  intros Hp Hb He. unfold get_matrix.
  erewrite bind_ok by apply add_hooks_run.
  erewrite bind_ok by done.
  erewrite bind_ok by (by apply first_parameter_device_ok).
  erewrite bind_ok by done. erewrite bind_ok by done.
  erewrite bind_ok by done. erewrite bind_ok by done.
  cbn [dataloader set_G set_e_outer set_handles set_hooks set_model].
  rewrite Hb. cbn [outer_loop].
  erewrite bind_ok by done.
  erewrite bind_ok by (by apply attr_ok).
  eexists. split.
  - unfold bind, del, bind, attr. cbn -[Nat.mul]. rewrite He. reflexivity.
  - split; [done|]. split; [done|].
    intros h Hin. unfold live. cbn -[Nat.mul].
    rewrite fmap_app, new_entries_ids. apply elem_of_app. by right.
Qed.

(** X2. [implicit_m_norm] on a data loader that yields no batch returns the
    norm of the zero vector with one entry per parameter scalar, whatever
    the vector [v] and its length, removes its hooks and resets what it
    allocated. *)
Theorem implicit_m_norm_empty_loader (v : vector R) (s : L2Loss) :
  parameters (model s) ≠ [] →
  batches (dataloader s) = [] →
  ∃ s', implicit_m_norm v s
          = (Ok (norm2 (zeros1 (count_parameters (model s)))), s')
        ∧ _cTv s' = None ∧ xs s' = ∅
        ∧ ∀ h, h ∈ new_handles s → h ∉ live s'.
Proof.
  intros Hp Hb. unfold implicit_m_norm.
  erewrite bind_ok by apply add_hooks_run.
  erewrite bind_ok by done.
  erewrite bind_ok by (by apply first_parameter_device_ok).
  erewrite bind_ok by done. erewrite bind_ok by done.
  erewrite bind_ok by done. erewrite bind_ok by done.
  cbn [dataloader set_cTv set_handles set_hooks set_model].
  rewrite Hb. cbn [m_norm_loop].
  erewrite bind_ok by done.
  erewrite bind_ok by (by apply attr_ok).
  erewrite bind_ok by (unfold del; erewrite bind_ok by (by apply attr_ok); done).
  erewrite bind_ok by done. erewrite bind_ok by done.
  erewrite bind_ok by apply for_each_remove_run.
  eexists. split; [reflexivity|]. split; [done|]. split; [done|].
  intros h Hin Hlive. unfold live in Hlive.
  cbn -[Nat.mul] in Hlive.
  apply list_elem_of_fmap in Hlive as (e & -> & He).
  apply list_elem_of_filter in He as [He _]. apply He.
  apply elem_of_app. by right.
Qed.
Lemma named_members_nil ps : named_members ps ∅ = [] → ps = [].
Proof.
  destruct ps as [|p ps]; [done|]. cbn.
  rewrite bool_decide_eq_false_2 by set_solver. done.
Qed.

Lemma no_parameters_no_layers md :
  layers_have_weight md → parameters md = [] → retained_layers md = [].
Proof.
  intros Hw Hp. apply named_members_nil in Hp.
  unfold retained_layers. apply filter_nothing.
  apply Forall_forall. intros m Hm Hr.
  eapply Forall_forall in Hw; [|exact Hm]. destruct (Hw Hr) as [w Hwm].
  assert (w ∈ flat_map own_parameters (modules md)) as Hin.
  { apply list_elem_of_In, in_flat_map. exists m. split.
    - by apply list_elem_of_In.
    - apply list_elem_of_In. unfold own_parameters. rewrite Hwm. left. }
  rewrite Hp in Hin. by apply elem_of_nil in Hin.
Qed.

Lemma no_parameter_raises (v : vector R) (s : L2Loss) :
  parameters (model s) = [] → mods s = [] →
  get_matrix s = (Raise StopIteration, s)
  ∧ implicit_m_norm v s = (Raise StopIteration, s).
Proof.
  destruct s as [[ms tbl h] ld hs xo xi xs_ gyo pp mods_ g eo ei sw ctv c].
  cbn [model mods]. unfold parameters. cbn [modules]. intros Hp ->.
  unfold get_matrix, implicit_m_norm, _add_hooks, first_parameter_device,
    bind, gets, modify, raise, parameters, set_handles, set_model.
  cbn. rewrite Hp, !app_nil_r. done.
Qed.

(** X3. A model without parameters is accepted by the constructor, with no
    retained layer; on the constructed object both queries raise
    [StopIteration] at [next(self.model.parameters())] and leave the object
    as it was. *)
Theorem queries_need_a_parameter md (ld : data_loader R) (v : vector R) :
  layers_have_weight md →
  parameters md = [] →
  ∃ s, L2Loss_new md ld = Ok s
       ∧ mods s = []
       ∧ get_matrix s = (Raise StopIteration, s)
       ∧ implicit_m_norm v s = (Raise StopIteration, s).
Proof.
  intros Hw Hp.
  pose proof (no_parameters_no_layers md Hw Hp) as Hnone.
  rewrite L2Loss_new_run by done.
  unfold retained_shapes, trainable_shapes. rewrite Hnone, Hp.
  rewrite bool_decide_eq_true_2 by done.
  eexists. split; [reflexivity|]. split; [done|].
  by apply no_parameter_raises.
Qed.
End Edges.

(** ** The constructor: frozen parameters and the flat layout *)

Section LayoutFacts.
Context {R : Type} `{!Scalar R}.

Abbreviation L2Loss := (L2Loss R).

Lemma filter_length_all {A} (P : A → Prop) `{∀ x, Decision (P x)} (l : list A) :
  length (filter P l) = length l → Forall P l.
Proof.
  induction l as [|x l IH]; [constructor|].
  rewrite filter_cons. destruct (decide (P x)) as [Hx|Hx]; cbn.
  - intros [=]. constructor; auto.
  - intros Hlen. pose proof (length_filter P l). lia.
Qed.

(** In a model whose parameters are owned as [owned_by_layers] says, the
    trainable parameters of [model.parameters()] are the trainable ones
    among the weights and biases of the retained layers, in order. *)
Lemma owned_trainable md :
  owned_by_layers md →
  filter (λ p, requires_grad p = true) (parameters md)
    = filter (λ p, requires_grad p = true)
        (flat_map layer_parameters (retained_layers md)).
Proof.
  intros [Hnd Hall]. unfold parameters.
  rewrite named_members_distinct; [|done|set_solver].
  unfold retained_layers. clear Hnd.
  induction Hall as [|m ms Hm Hms IH]; [done|].
  cbn [flat_map]. rewrite filter_app, filter_cons, IH.
  destruct (retained m) eqn:Hr.
  - destruct Hm as [Hm _]. destruct (Hm eq_refl) as (Hw & Ho).
    rewrite decide_True by done.
    cbn [flat_map]. rewrite filter_app. f_equal.
    unfold own_parameters. by rewrite Ho, app_nil_r.
  - destruct Hm as [_ Hm]. specialize (Hm eq_refl).
    rewrite decide_False by done.
    rewrite (filter_nothing _ (own_parameters m)); [done|].
    eapply Forall_impl; [exact Hm|]. intros p Hp. cbn in Hp. by rewrite Hp.
Qed.

Lemma owned_by_layers_weight md : owned_by_layers md → layers_have_weight md.
Proof.
  intros [_ Hall]. eapply Forall_impl; [exact Hall|].
  intros m [Hm _] Hr. by destruct (Hm Hr).
Qed.

Lemma owned_shapes_iff md :
  owned_by_layers md →
  retained_shapes md = trainable_shapes md
  ↔ Forall (λ p, requires_grad p = true)
      (flat_map layer_parameters (retained_layers md)).
Proof.
  intros Ho. unfold retained_shapes, trainable_shapes.
  rewrite (owned_trainable md Ho). split.
  - intros Heq. apply (filter_length_all (λ p, requires_grad p = true)).
    apply (f_equal length) in Heq. by rewrite !length_fmap in Heq.
  - intros Hall. by rewrite filter_all.
Qed.

(** X4. Frozen parameters. In a model whose trainable parameters all belong to
    [Linear] and [Conv2d] layers, the constructor succeeds exactly when
    every weight and bias of these layers is trainable: one frozen weight or
    bias of a supported layer makes the layout assertion fail. *)
Theorem construction_rejects_frozen_layer md (ld : data_loader R) :
  owned_by_layers md →
  ((∃ s, L2Loss_new md ld = Ok s ∧ mods s = retained_layers md)
     ↔ Forall (λ p, requires_grad p = true)
         (flat_map layer_parameters (retained_layers md)))
  ∧ (L2Loss_new md ld = Raise AssertionError
     ↔ Exists (λ p, requires_grad p = false)
         (flat_map layer_parameters (retained_layers md))).
Proof.
  intros Ho. pose proof (owned_by_layers_weight md Ho) as Hw.
  rewrite L2Loss_new_run by done.
  pose proof (owned_shapes_iff md Ho) as Hiff.
  case_bool_decide as Heq.
  - split.
    + split; [intros _; by apply Hiff|]. intros _. eauto.
    + split; [done|]. intros Hex. apply Hiff in Heq.
      apply Exists_exists in Hex as (p & Hp & Hfrozen).
      eapply Forall_forall in Heq; [|exact Hp]. congruence.
  - split.
    + split; [by intros (s & ? & _)|]. intros Hall. by apply Hiff in Hall.
    + split; [|done]. intros _.
      destruct (decide (Forall (λ p, requires_grad p = true)
                          (flat_map layer_parameters (retained_layers md))))
        as [Hall|Hnot]; [by apply Hiff in Hall|].
      apply not_Forall_Exists in Hnot; [|apply _].
      apply Exists_exists in Hnot as (p & Hp & Hfrozen).
      apply Exists_exists. exists p. split; [done|]. cbn in Hfrozen.
      by destruct (requires_grad p).
Qed.

(** X6. The flat layout. On a constructed object every retained layer has its
    slice of the flat parameter vector: it starts at the recorded offset,
    the slices of the layers follow one another without overlap and end
    within the [n_parameters] scalars that [implicit_m_norm] allocates;
    when every parameter of the model is trainable they fill them. *)
Theorem layout_slices_disjoint md (ld : data_loader R) (s : L2Loss) :
  layers_have_weight md →
  distinct_modules md →
  L2Loss_new md ld = Ok s →
  (∀ pre m post, retained_layers md = pre ++ m :: post →
     p_pos s !! mod_id m = Some (flat_offset pre)
     ∧ flat_offset pre + layer_numel m ≤ count_parameters md)
  ∧ (∀ pre m mid m' post, retained_layers md = pre ++ m :: mid ++ m' :: post →
     ∃ a b, p_pos s !! mod_id m = Some a ∧ p_pos s !! mod_id m' = Some b
            ∧ a + layer_numel m ≤ b)
  ∧ (Forall (λ p, requires_grad p = true) (parameters md) →
     flat_offset (retained_layers md) = count_parameters md).
Proof.
  intros Hw Hnd Hnew.
  destruct (L2Loss_new_inv md ld s Hw Hnew) as [Hshapes ->].
  pose proof (layout_fits md Hshapes) as Hfit.
  pose proof (retained_layers_distinct md Hnd) as Hdis.
  assert (∀ pre m post, retained_layers md = pre ++ m :: post →
            record_offsets 0 (retained_layers md) ∅ !! mod_id m
              = Some (flat_offset pre)) as Hpos.
  { intros pre m post Hsplit. rewrite Hsplit.
    rewrite (record_offsets_lookup pre m post 0 ∅) by (by rewrite <- Hsplit).
    done. }
  cbn [p_pos set_mods set_p_pos blank].
  split; [|split].
  - intros pre m post Hsplit. split; [by eapply Hpos|].
    rewrite Hsplit, flat_offset_app in Hfit. unfold flat_offset at 2 in Hfit.
    cbn in Hfit. lia.
  - intros pre m mid m' post Hsplit.
    exists (flat_offset pre), (flat_offset (pre ++ m :: mid)).
    split; [by eapply Hpos|]. split.
    + apply (Hpos (pre ++ m :: mid) m' post).
      by rewrite <- app_assoc.
    + rewrite flat_offset_app. unfold flat_offset. cbn. lia.
  - intros Hall. rewrite flat_offset_parameters, numel_shapes.
    fold (retained_shapes md). rewrite Hshapes. unfold trainable_shapes.
    rewrite <- numel_shapes. unfold count_parameters.
    rewrite foldl_add_sum. cbn. by rewrite filter_all.
Qed.

Lemma individual_modules_loop_no_weight ms : ∀ mods_ sizes params start (s : L2Loss),
  Exists (λ m, retained m = true ∧ weight m = None) ms →
  (individual_modules_loop ms mods_ sizes params start s).1 = Raise AttributeError.
Proof.
  induction ms as [|m ms IH]; intros mods_ sizes params start s Hex.
  - by apply Exists_nil in Hex.
  - cbn [individual_modules_loop].
    destruct (retained m) eqn:Hr.
    + unfold bind at 1, modify at 1. unfold bind at 1, lift at 1.
      destruct (weight m) as [w|] eqn:Hwm; [|done].
      apply Exists_cons in Hex as [[_ Hnone]|Hex]; [congruence|].
      destruct (bias m); by apply IH.
    + apply Exists_cons in Hex as [[Hr' _]|Hex]; [congruence|]. by apply IH.
Qed.

(** X5. Layers are recognised by the name of their class alone. A module whose
    class is named [Linear] or [Conv2d] and that has no [weight] makes the
    constructor raise [AttributeError], before any of its assertions is
    reached. *)
Theorem construction_needs_weight md (ld : data_loader R) :
  Exists (λ m, retained m = true ∧ weight m = None) (modules md) →
  L2Loss_new md ld = Raise AttributeError.
Proof.
  intros Hex. unfold L2Loss_new, __init__, _get_individual_modules.
  pose proof (individual_modules_loop_no_weight (modules md) [] [] [] 0
                (blank md ld) Hex) as Hraise.
  unfold bind at 1. unfold bind at 1.
  destruct (individual_modules_loop _ _ _ _ _ _) as [[r|e] s1]; [done|].
  cbn in Hraise. by injection Hraise as ->.
Qed.
End LayoutFacts.

(** ** What a returning query leaves behind *)

Section Returns.
Context {R : Type} `{!Scalar R}.

Abbreviation M := (M R).
Abbreviation L2Loss := (L2Loss R).
Abbreviation batch := (batch R).

Lemma bind_ok_inv {A B} (m : M A) (k : A → M B) s b s' :
  bind m k s = (Ok b, s') → ∃ a s1, m s = (Ok a, s1) ∧ k a s1 = (Ok b, s').
Proof. unfold bind. destruct (m s) as [[a|e] s1]; [eauto|done]. Qed.

Lemma del_ok_inv {A} (get : L2Loss → option A) set s s' :
  del get set s = (Ok tt, s') → s' = set None s.
Proof.
  unfold del, bind, attr, modify. destruct (get s); [|done]. by intros [= <-].
Qed.

(** A returning [get_matrix]: its loops returned, the result is the
    buffer [self.G] they left, and the final object is the one the loops
    left, cleaned up. *)
Lemma get_matrix_ok_inv (s : L2Loss) g s' :
  get_matrix s = (Ok g, s') →
  ∃ s2, outer_loop (batches (dataloader s)) 0 (batches (dataloader s))
          (at_outer_loop s) = (Ok tt, s2)
        ∧ G s2 = Some g
        ∧ s' = set_hooks (filter (λ e, h_id e ∉ handles s2) (hooks_table (model s2)))
                 (next_handle_id (model s2))
                 (set_x_outer ∅ (set_x_inner ∅
                    (set_G None (set_e_outer None (set_e_inner None s2))))).
Proof.
  unfold get_matrix, at_outer_loop. intros H.
  apply bind_ok_inv in H as (new & s1 & E1 & H).
  erewrite bind_ok by exact E1. unfold modify at 1. cbn [snd].
  apply bind_ok_inv in H as ([] & s1' & E2 & H).
  unfold modify in E2. injection E2 as <-.
  apply bind_ok_inv in H as ([] & s1' & E3 & H).
  apply first_parameter_device_state in E3 as ->.
  rewrite add_hooks_run in E1. injection E1 as <- <-.
  apply bind_ok_inv in H as (n & s3 & E4 & H). injection E4 as <- <-.
  apply bind_ok_inv in H as ([] & s3 & E5 & H). injection E5 as <-.
  apply bind_ok_inv in H as ([] & s3 & E6 & H). injection E6 as <-.
  apply bind_ok_inv in H as (loader & s3 & E7 & H). injection E7 as <- <-.
  apply bind_ok_inv in H as ([] & s2 & E8 & H).
  apply bind_ok_inv in H as (g' & s3 & E9 & H).
  apply attr_ok_inv in E9 as [HG ->].
  apply bind_ok_inv in H as ([] & s3 & E10 & H). apply del_ok_inv in E10 as ->.
  apply bind_ok_inv in H as ([] & s3 & E11 & H). apply del_ok_inv in E11 as ->.
  apply bind_ok_inv in H as ([] & s3 & E12 & H). apply del_ok_inv in E12 as ->.
  apply bind_ok_inv in H as ([] & s3 & E13 & H). injection E13 as <-.
  apply bind_ok_inv in H as ([] & s3 & E14 & H). injection E14 as <-.
  apply bind_ok_inv in H as (hs & s3 & E15 & H). injection E15 as <- <-.
  apply bind_ok_inv in H as ([] & s3 & E16 & H).
  rewrite for_each_remove_run in E16. injection E16 as <-.
  injection H as <- <-.
  exists s2. split; [exact E8|]. split; [exact HG|]. done.
Qed.

(** A returning [implicit_m_norm]: its loop returned, the result is the
    norm of the buffer [self._cTv] it left, and the final object is the one
    the loop left, cleaned up. *)
Lemma implicit_m_norm_ok_inv (v : vector R) (s : L2Loss) r s' :
  implicit_m_norm v s = (Ok r, s') →
  ∃ s2 out,
    m_norm_loop v (batch_size (dataloader s)) 0 (batches (dataloader s))
      (set_cTv (Some (zeros1 (count_parameters (model s))))
         ((x <- _add_hooks H_savex H_compute_m_norm ;;
           modify (λ s, set_handles (handles s ++ x) s)) s).2) = (Ok tt, s2)
    ∧ _cTv s2 = Some out ∧ r = norm2 out
    ∧ s' = set_hooks (filter (λ e, h_id e ∉ handles s2) (hooks_table (model s2)))
             (next_handle_id (model s2))
             (set_xs ∅ (set_cTv None s2)).
Proof.
  unfold implicit_m_norm. intros H.
  apply bind_ok_inv in H as (new & s1 & E1 & H).
  erewrite bind_ok by exact E1. unfold modify at 1. cbn [snd].
  apply bind_ok_inv in H as ([] & s1' & E2 & H).
  unfold modify in E2. injection E2 as <-.
  apply bind_ok_inv in H as ([] & s1' & E3 & H).
  apply first_parameter_device_state in E3 as ->.
  rewrite add_hooks_run in E1. injection E1 as <- <-.
  apply bind_ok_inv in H as (n & s3 & E4 & H). injection E4 as <- <-.
  apply bind_ok_inv in H as (bs & s3 & E5 & H). injection E5 as <- <-.
  apply bind_ok_inv in H as ([] & s3 & E6 & H). injection E6 as <-.
  apply bind_ok_inv in H as (loader & s3 & E7 & H). injection E7 as <- <-.
  apply bind_ok_inv in H as ([] & s2 & E8 & H).
  apply bind_ok_inv in H as (out & s3 & E9 & H).
  apply attr_ok_inv in E9 as [Hout ->].
  apply bind_ok_inv in H as ([] & s3 & E10 & H). apply del_ok_inv in E10 as ->.
  apply bind_ok_inv in H as ([] & s3 & E11 & H). injection E11 as <-.
  apply bind_ok_inv in H as (hs & s3 & E12 & H). injection E12 as <- <-.
  apply bind_ok_inv in H as ([] & s3 & E13 & H).
  rewrite for_each_remove_run in E13. injection E13 as <-.
  injection H as <- <-.
  exists s2, out. split; [exact E8|]. split; [exact Hout|]. done.
Qed.
(** *** The shape of [self.G] *)

Lemma iadd_block_shape (A : matrix R) r0 r1 c0 c1 V A' :
  iadd_block A r0 r1 c0 c1 V = Ok A' → nrows A' = nrows A ∧ ncols A' = ncols A.
Proof.
  unfold iadd_block. destruct (_ && _); [|done]. by intros [= <-].
Qed.

Lemma G_iadd_keeps_shape bi bo (rhs : outcome (matrix R)) :
  keeps G_shape (G_iadd_inner_outer bi bo rhs).
Proof.
  intros s. unfold G_iadd_inner_outer, bind, attr, lift, modify.
  destruct (G s) as [g|] eqn:EG; [|done].
  destruct (e_inner s); [|done]. destruct (e_outer s); [|done].
  destruct rhs as [V|]; [|done].
  destruct (iadd_block _ _ _ _ _ _) as [g'|] eqn:E; [|done].
  apply iadd_block_shape in E as [Hr Hc].
  unfold G_shape. cbn. rewrite EG. cbn. by rewrite Hr, Hc.
Qed.
Hint Resolve G_iadd_keeps_shape : keeps.

Lemma G_copy_keeps_shape bo bi : keeps (G_shape (R:=R)) (G_copy_transposed bo bi).
Proof.
  intros s. unfold G_copy_transposed, bind, attr, lift, modify.
  destruct (G s) as [g|] eqn:EG; [|done].
  destruct (e_outer s); [|done]. destruct (e_inner s); [|done].
  destruct (iadd_block _ _ _ _ _ _) as [g'|] eqn:E; [|done].
  apply iadd_block_shape in E as [Hr Hc].
  unfold G_shape. cbn. rewrite EG. cbn. by rewrite Hr, Hc.
Qed.
Hint Resolve G_copy_keeps_shape : keeps.

Lemma call_hook_keeps_shape (b : batch) m fn : keeps G_shape (call_hook b m fn).
Proof.
  destruct fn; cbn;
    unfold _hook_savex_io, _hook_savex, _hook_compute_flat_grad,
      _hook_compute_m_norm, cTv_iadd.
  all: keeps_tac.
Qed.
Hint Resolve call_hook_keeps_shape : keeps.

Lemma forward_backward_keeps_shape (b : batch) : keeps G_shape (forward_backward b).
Proof. unfold forward_backward, fire. keeps_tac. Qed.
Hint Resolve forward_backward_keeps_shape : keeps.

Lemma inner_loop_keeps_shape i_outer bs_outer rest :
  ∀ i_inner (inputs : batch),
    keeps G_shape (inner_loop i_outer bs_outer i_inner rest inputs).
Proof.
  induction rest as [|b rest IH]; intros i_inner inputs; cbn [inner_loop];
    keeps_tac.
Qed.
Hint Resolve inner_loop_keeps_shape : keeps.

Lemma outer_loop_keeps_shape loader rest :
  ∀ i_outer, keeps (G_shape (R:=R)) (outer_loop loader i_outer rest).
Proof.
  induction rest as [|b rest IH]; intros i_outer; cbn [outer_loop]; keeps_tac.
Qed.

(** X7. Whenever [get_matrix] returns, whatever the model, the batches and the
    state of the object, its result is a square matrix with one row and one
    column per example of the sampler. *)
Theorem get_matrix_returns_square (s : L2Loss) g s' :
  get_matrix s = (Ok g, s') →
  nrows g = sampler_len (dataloader s) ∧ ncols g = sampler_len (dataloader s).
Proof.
  intros H. apply get_matrix_ok_inv in H as (s2 & E & HG & _).
  pose proof (outer_loop_keeps_shape (batches (dataloader s))
                (batches (dataloader s)) 0 (at_outer_loop s)) as Hk.
  rewrite E in Hk. cbn [snd] in Hk. unfold G_shape in Hk. rewrite HG in Hk.
  cbn in Hk. by injection Hk as -> ->.
Qed.

(** X8. When [get_matrix] returns, the attributes [G], [e_inner] and [e_outer]
    are deleted, so that reading [self.G] raises [AttributeError], and the
    caches [x_inner] and [x_outer] are empty. *)
Theorem get_matrix_resets_on_return (s : L2Loss) g s' :
  get_matrix s = (Ok g, s') →
  G s' = None ∧ e_inner s' = None ∧ e_outer s' = None
  ∧ x_inner s' = ∅ ∧ x_outer s' = ∅
  ∧ attr G s' = (Raise AttributeError, s').
Proof.
  intros H. apply get_matrix_ok_inv in H as (s2 & _ & _ & ->). done.
Qed.

Lemma m_norm_loop_last_slice (v : vector R) bs rest : ∀ i (s s' : L2Loss),
  rest ≠ [] →
  m_norm_loop v bs i rest s = (Ok tt, s') →
  _c s' = Some (vslice v (i + (length rest - 1) * bs)
                         (i + (length rest - 1) * bs + bs)).
Proof.
  induction rest as [|b rest IH]; intros i s s' Hne H; [done|].
  cbn [m_norm_loop] in H.
  apply bind_ok_inv in H as ([] & s1 & E1 & H). injection E1 as <-.
  apply bind_ok_inv in H as ([] & s2 & E2 & H).
  pose proof (forward_backward_keeps_env b (set_c (Some (vslice v i (i + bs))) s))
    as Hk.
  rewrite E2 in Hk. cbn [snd] in Hk.
  destruct rest as [|b' rest'].
  - injection H as <-. injection Hk as _ _ _ _ _ _ _ _ ->.
    cbn. by rewrite Nat.add_0_r.
  - apply IH in H; [|done]. rewrite H. cbn [length]. f_equal. f_equal; lia.
Qed.

(** X9. When [implicit_m_norm] returns, the buffer [_cTv] is deleted and the
    cache [xs] is empty; the slice [_c] is not reset: after a pass over at
    least one batch it still holds the slice of [v] taken for the last
    batch. *)
Theorem implicit_m_norm_resets_on_return (v : vector R) (s : L2Loss) r s' :
  implicit_m_norm v s = (Ok r, s') →
  _cTv s' = None ∧ xs s' = ∅
  ∧ (batches (dataloader s) ≠ [] →
     let bs := batch_size (dataloader s) in
     let last := length (batches (dataloader s)) - 1 in
     _c s' = Some (vslice v (last * bs) (last * bs + bs))).
Proof.
  intros H. apply implicit_m_norm_ok_inv in H as (s2 & out & E & _ & _ & ->).
  split; [done|]. split; [done|]. intros Hne.
  apply m_norm_loop_last_slice in E; [|done]. exact E.
Qed.
End Returns.

(** ** What the queries never write *)

Section Frames.
Context {R : Type} `{!Scalar R}.

Abbreviation M := (M R).
Abbreviation L2Loss := (L2Loss R).
Abbreviation batch := (batch R).

(** *** The layout *)

Lemma register_hook_keeps_layout m pt fn :
  keeps (layout_side (R:=R)) (register_hook m pt fn).
Proof. done. Qed.
Hint Resolve register_hook_keeps_layout : keeps.

Lemma remove_keeps_layout h : keeps (layout_side (R:=R)) (remove h).
Proof. done. Qed.
Hint Resolve remove_keeps_layout : keeps.

Lemma add_hooks_loop_keeps_layout hx hgy ms : ∀ acc,
  keeps (layout_side (R:=R)) (add_hooks_loop hx hgy ms acc).
Proof. induction ms as [|m ms IH]; intros acc; cbn [add_hooks_loop]; keeps_tac. Qed.
Hint Resolve add_hooks_loop_keeps_layout : keeps.

Lemma env_layout (s s' : L2Loss) : env s' = env s → layout_side s' = layout_side s.
Proof. unfold env, layout_side. intros [=]. congruence. Qed.

Lemma ctl_layout (s s' : L2Loss) : ctl s' = ctl s → layout_side s' = layout_side s.
Proof. unfold ctl, layout_side. intros [=]. congruence. Qed.

(** X10. Whatever the state of the object, the hooks registered on the model
    and the outcome, return or raise, a query changes neither the modules
    of the model nor the data loader, [self.mods] or [self.p_pos]; nor does
    [release_buffers]. *)
Theorem queries_keep_layout (v : vector R) :
  keeps (layout_side (R:=R)) get_matrix
  ∧ keeps layout_side (implicit_m_norm v)
  ∧ keeps (layout_side (R:=R)) release_buffers.
Proof.
  split; [|split].
  - unfold get_matrix, _add_hooks.
    repeat first
      [ apply keeps_bind; [|intros ?]
      | intros s0; apply ctl_layout, outer_loop_keeps_ctl
      | apply first_parameter_device_keeps
      | keeps_step ].
  - unfold implicit_m_norm, _add_hooks.
    repeat first
      [ apply keeps_bind; [|intros ?]
      | intros s0; apply ctl_layout, m_norm_loop_keeps_ctl
      | apply first_parameter_device_keeps
      | keeps_step ].
  - unfold release_buffers. keeps_tac.
Qed.

(** *** The attributes of the other query *)

Lemma keeps_for_each_in {A X} (f : L2Loss → X) (l : list A) (body : A → M unit) :
  (∀ x, x ∈ l → keeps f (body x)) → keeps f (for_each l body).
Proof.
  induction l as [|x l IH]; intros Hb; [done|].
  apply keeps_bind; [apply Hb; left|].
  intros _. apply IH. intros y Hy. apply Hb. by right.
Qed.

Lemma keeps_under_plain {A X} (K : list hook_fn) (f : L2Loss → X) (m : M A) :
  keeps (λ s, (model s, f s)) m → keeps_under (only_hooks K) f m.
Proof.
  intros Hk s HI. specialize (Hk s). injection Hk as Hm Hf.
  split; [|done]. unfold only_hooks. by rewrite Hm.
Qed.

Lemma keeps_under_bind {A B X} I (f : L2Loss → X) (m : M A) (k : A → M B) :
  keeps_under I f m → (∀ a, keeps_under I f (k a)) → keeps_under I f (bind m k).
Proof.
  intros Hm Hk s HI. unfold bind. destruct (Hm s HI) as [HI1 Hf1].
  destruct (m s) as [[a|e] s1]; cbn in *; [|done].
  destruct (Hk a s1 HI1) as [HI2 Hf2]. split; [done|]. by rewrite Hf2.
Qed.

Lemma keeps_under_for_each {A X} I (f : L2Loss → X) (l : list A) (body : A → M unit) :
  (∀ x, keeps_under I f (body x)) → keeps_under I f (for_each l body).
Proof.
  intros Hb. induction l as [|x l IH]; [done|].
  apply keeps_under_bind; [apply Hb | intros _; apply IH].
Qed.

(** A pass fires only registered hooks: if each of the bound methods [K]
    keeps [f] and the model, so does the pass. *)
Lemma fire_under {X} (K : list hook_fn) (f : L2Loss → X) pt (b : batch) m :
  (∀ fn, fn ∈ K → keeps (λ s, (model s, f s)) (call_hook b m fn)) →
  keeps_under (only_hooks K) f (fire pt b m).
Proof.
  intros Hfn s HI. unfold fire, bind, gets. cbn [fst snd].
  assert (∀ fn, fn ∈ hooks_of (hooks_table (model s)) pt m →
            keeps (λ s, (model s, f s)) (call_hook b m fn)) as Hall.
  { intros fn Hin. apply Hfn.
    apply list_elem_of_fmap in Hin as (e & -> & He).
    apply list_elem_of_filter in He as [_ He].
    eapply Forall_forall in HI; [exact HI|exact He]. }
  pose proof (keeps_for_each_in (λ s, (model s, f s)) _ _ Hall s) as Hk.
  injection Hk as Hm Hf. split; [|done]. unfold only_hooks. by rewrite Hm.
Qed.

Lemma forward_backward_under {X} (K : list hook_fn) (f : L2Loss → X) (b : batch) :
  (∀ m fn, fn ∈ K → keeps (λ s, (model s, f s)) (call_hook b m fn)) →
  keeps_under (only_hooks K) f (forward_backward b).
Proof.
  intros Hfn. unfold forward_backward.
  apply keeps_under_bind; [by apply keeps_under_plain|]. intros ms.
  apply keeps_under_bind.
  - apply keeps_under_for_each. intros m. apply fire_under. intros fn. apply Hfn.
  - intros _. apply keeps_under_for_each. intros m. apply fire_under.
    intros fn. apply Hfn.
Qed.

(** Registering the hooks of a query and removing hooks keeps what does
    not depend on the hook tables. *)
Lemma add_hooks_under {X} (K : list hook_fn) (f : L2Loss → X) hx hgy :
  hx ∈ K → hgy ∈ K →
  (∀ t n s, f (set_hooks t n s) = f s) →
  keeps_under (only_hooks K) f (_add_hooks hx hgy).
Proof.
  intros Hx Hgy Hf s HI. rewrite add_hooks_run. cbn [snd]. split; [|apply Hf].
  unfold only_hooks in *. cbn [model set_hooks set_model hooks_table].
  apply Forall_app. split; [done|].
  generalize (next_handle_id (model s)).
  induction (mods s) as [|m ms IH]; intros h; cbn [new_entries]; [constructor|].
  constructor; [done|]. constructor; [done|]. apply IH.
Qed.

Lemma remove_all_under {X} (K : list hook_fn) (f : L2Loss → X) hs :
  (∀ t n s, f (set_hooks t n s) = f s) →
  keeps_under (only_hooks K) f (for_each hs remove).
Proof.
  intros Hf s HI. rewrite for_each_remove_run. cbn [snd]. split; [|apply Hf].
  unfold only_hooks in *. cbn [model set_hooks set_model hooks_table].
  apply Forall_forall. intros e He.
  apply list_elem_of_filter in He as [_ He].
  eapply Forall_forall in HI; [exact HI|exact He].
Qed.

Lemma m_norm_hooks_keep_gram_side (b : batch) m fn :
  fn ∈ [H_savex; H_compute_m_norm] →
  keeps (λ s, (model s, gram_side s)) (call_hook b m fn).
Proof.
  intros Hfn.
  apply elem_of_cons in Hfn as [-> | Hfn];
    [|apply list_elem_of_singleton in Hfn as ->].
  all: cbn; unfold _hook_savex, _hook_compute_m_norm, cTv_iadd; keeps_tac.
Qed.

Lemma m_norm_loop_under v bs rest : ∀ i,
  keeps_under (only_hooks [H_savex; H_compute_m_norm]) (gram_side (R:=R))
    (m_norm_loop v bs i rest).
Proof.
  induction rest as [|b rest IH]; intros i; cbn [m_norm_loop].
  - by apply keeps_under_plain.
  - apply keeps_under_bind; [apply keeps_under_plain; keeps_tac|]. intros _.
    apply keeps_under_bind; [|intros _; apply IH].
    apply forward_backward_under. intros m fn. apply m_norm_hooks_keep_gram_side.
Qed.

(** X11. [implicit_m_norm] on an object whose model has no hooks registered but
    those of [implicit_m_norm]: whatever the outcome, the attributes of
    [get_matrix] ([G], [x_outer], [x_inner], [gy_outer], [e_outer],
    [e_inner], [outerloop_switch]) are left as they were. *)
Theorem implicit_m_norm_keeps_gram_side (v : vector R) (s : L2Loss) :
  only_hooks [H_savex; H_compute_m_norm] s →
  gram_side (implicit_m_norm v s).2 = gram_side s.
Proof.
  intros HI.
  enough (keeps_under (only_hooks [H_savex; H_compute_m_norm]) (gram_side (R:=R))
            (implicit_m_norm v)) as Hk by exact (proj2 (Hk s HI)).
  clear s HI. unfold implicit_m_norm.
  apply keeps_under_bind; [apply add_hooks_under; [set_solver|set_solver|done]|].
  intros new.
  apply keeps_under_bind; [apply keeps_under_plain; keeps_tac|]. intros _.
  apply keeps_under_bind;
    [apply keeps_under_plain, first_parameter_device_keeps|]. intros _.
  apply keeps_under_bind; [apply keeps_under_plain; keeps_tac|]. intros n.
  apply keeps_under_bind; [apply keeps_under_plain; keeps_tac|]. intros bs.
  apply keeps_under_bind; [apply keeps_under_plain; keeps_tac|]. intros _.
  apply keeps_under_bind; [apply keeps_under_plain; keeps_tac|]. intros loader.
  apply keeps_under_bind; [apply m_norm_loop_under|]. intros _.
  apply keeps_under_bind; [apply keeps_under_plain; keeps_tac|]. intros out.
  apply keeps_under_bind; [apply keeps_under_plain; keeps_tac|]. intros _.
  apply keeps_under_bind; [apply keeps_under_plain; keeps_tac|]. intros _.
  apply keeps_under_bind; [apply keeps_under_plain; keeps_tac|]. intros hs.
  apply keeps_under_bind; [by apply remove_all_under|]. intros _.
  apply keeps_under_plain. keeps_tac.
Qed.

Lemma gram_hooks_keep_m_norm_side (b : batch) m fn :
  fn ∈ [H_savex_io; H_compute_flat_grad] →
  keeps (λ s, (model s, m_norm_side s)) (call_hook b m fn).
Proof.
  intros Hfn.
  apply elem_of_cons in Hfn as [-> | Hfn];
    [|apply list_elem_of_singleton in Hfn as ->].
  all: cbn; unfold _hook_savex_io, _hook_compute_flat_grad, G_iadd_inner_outer;
    keeps_tac.
Qed.

Lemma inner_loop_under i_outer bs_outer rest : ∀ i_inner (inputs : batch),
  keeps_under (only_hooks [H_savex_io; H_compute_flat_grad]) m_norm_side
    (inner_loop i_outer bs_outer i_inner rest inputs).
Proof.
  induction rest as [|b rest IH]; intros i_inner inputs; cbn [inner_loop].
  - by apply keeps_under_plain.
  - destruct (i_outer <? i_inner); [by apply keeps_under_plain|].
    apply keeps_under_bind.
    { apply forward_backward_under. intros m fn.
      apply gram_hooks_keep_m_norm_side. }
    intros _. apply keeps_under_bind.
    { apply keeps_under_plain. unfold G_copy_transposed. keeps_tac. }
    intros _. apply keeps_under_bind; [apply keeps_under_plain; keeps_tac|].
    intros ei. apply keeps_under_bind; [apply keeps_under_plain; keeps_tac|].
    intros _. apply IH.
Qed.

Lemma outer_loop_under loader rest : ∀ i_outer,
  keeps_under (only_hooks [H_savex_io; H_compute_flat_grad]) (m_norm_side (R:=R))
    (outer_loop loader i_outer rest).
Proof.
  induction rest as [|b rest IH]; intros i_outer; cbn [outer_loop].
  - by apply keeps_under_plain.
  - apply keeps_under_bind; [apply keeps_under_plain; keeps_tac|]. intros _.
    apply keeps_under_bind.
    { apply forward_backward_under. intros m fn.
      apply gram_hooks_keep_m_norm_side. }
    intros _. apply keeps_under_bind; [apply keeps_under_plain; keeps_tac|].
    intros _. apply keeps_under_bind; [apply keeps_under_plain; keeps_tac|].
    intros _. apply keeps_under_bind; [apply inner_loop_under|].
    intros inputs. apply keeps_under_bind; [apply keeps_under_plain; keeps_tac|].
    intros eo. apply keeps_under_bind; [apply keeps_under_plain; keeps_tac|].
    intros _. apply IH.
Qed.

(** X12. [get_matrix] on an object whose model has no hooks registered but
    those of [get_matrix]: whatever the outcome, the attributes of
    [implicit_m_norm] ([xs], [_cTv], [_c]) are left as they were. *)
Theorem get_matrix_keeps_m_norm_side (s : L2Loss) :
  only_hooks [H_savex_io; H_compute_flat_grad] s →
  m_norm_side (get_matrix s).2 = m_norm_side s.
Proof.
  intros HI.
  enough (keeps_under (only_hooks [H_savex_io; H_compute_flat_grad])
            (m_norm_side (R:=R)) get_matrix) as Hk by exact (proj2 (Hk s HI)).
  clear s HI. unfold get_matrix.
  apply keeps_under_bind; [apply add_hooks_under; [set_solver|set_solver|done]|].
  intros new.
  apply keeps_under_bind; [apply keeps_under_plain; keeps_tac|]. intros _.
  apply keeps_under_bind;
    [apply keeps_under_plain, first_parameter_device_keeps|]. intros _.
  apply keeps_under_bind; [apply keeps_under_plain; keeps_tac|]. intros n.
  apply keeps_under_bind; [apply keeps_under_plain; keeps_tac|]. intros _.
  apply keeps_under_bind; [apply keeps_under_plain; keeps_tac|]. intros _.
  apply keeps_under_bind; [apply keeps_under_plain; keeps_tac|]. intros loader.
  apply keeps_under_bind; [apply outer_loop_under|]. intros _.
  apply keeps_under_bind; [apply keeps_under_plain; keeps_tac|]. intros g.
  apply keeps_under_bind; [apply keeps_under_plain; keeps_tac|]. intros _.
  apply keeps_under_bind; [apply keeps_under_plain; keeps_tac|]. intros _.
  apply keeps_under_bind; [apply keeps_under_plain; keeps_tac|]. intros _.
  apply keeps_under_bind; [apply keeps_under_plain; keeps_tac|]. intros _.
  apply keeps_under_bind; [apply keeps_under_plain; keeps_tac|]. intros _.
  apply keeps_under_bind; [apply keeps_under_plain; keeps_tac|]. intros hs.
  apply keeps_under_bind; [by apply remove_all_under|]. intros _.
  apply keeps_under_plain. keeps_tac.
Qed.
End Frames.

(** ** Queries on an object that has served queries before *)

Section Idle.
Context {R : Type} `{!Scalar R}.

Abbreviation M := (M R).
Abbreviation L2Loss := (L2Loss R).
Abbreviation batch := (batch R).

Lemma constructed_idle md (ld : data_loader R) (s : L2Loss) :
  layers_have_weight md → hooks_table md = [] →
  L2Loss_new md ld = Ok s → idle md ld s.
Proof.
  intros Hw Ht Hnew. destruct (L2Loss_new_inv md ld s Hw Hnew) as [_ ->].
  by repeat split.
Qed.

Lemma idle_layout md (ld : data_loader R) (s : L2Loss) :
  distinct_modules md →
  Forall (λ m, is_Linear m = true) (retained_layers md) →
  retained_shapes md = trainable_shapes md →
  idle md ld s →
  Forall (layer_ready s (count_parameters md)) (layout md).
Proof.
  intros Hnd Hlin Hshapes (_ & _ & _ & _ & Hpp).
  pose proof (layout_fits md Hshapes) as Hfit.
  apply Forall_forall. intros [st m] Hin.
  destruct (layout_from_elem _ _ _ _ Hin) as (pre & post & Hsplit & ->).
  unfold layer_ready. cbn [fst snd]. rewrite Hpp.
  split; [|split].
  - eapply Forall_forall in Hlin; [done|]. rewrite Hsplit.
    apply elem_of_app. right. left.
  - rewrite Hsplit. apply record_offsets_lookup.
    rewrite <- Hsplit. by apply retained_layers_distinct.
  - rewrite Hsplit, flat_offset_app in Hfit. unfold flat_offset at 2 in Hfit.
    cbn in Hfit. lia.
Qed.

Lemma idle_positions md (ld : data_loader R) (s : L2Loss) :
  distinct_modules md →
  Forall (λ m, is_Linear m = true) (retained_layers md) →
  idle md ld s →
  Forall (λ m, is_Linear m = true ∧ is_Some (p_pos s !! mod_id m))
         (retained_layers md).
Proof.
  intros Hnd Hlin (_ & _ & _ & _ & Hpp).
  apply Forall_forall. intros m Hm.
  split; [by eapply Forall_forall in Hlin|].
  apply list_elem_of_split in Hm as (pre & post & Hsplit).
  rewrite Hpp, Hsplit. eexists. apply record_offsets_lookup.
  rewrite <- Hsplit. by apply retained_layers_distinct.
Qed.

(** The object a query leaves when it returns from an idle object on which
    its passes kept [ctl]. *)
Lemma idle_after md (ld : data_loader R) hx hgy (s s2 sc : L2Loss) :
  idle md ld s →
  ctl s2 = ctl (set_handles (handles s ++ new_handles s)
                  (set_hooks (hooks_table (model s)
                                ++ new_entries hx hgy (next_handle_id (model s)) (mods s))
                     (next_handle_id (model s) + 2 * length (mods s)) s)) →
  ctl sc = ctl s2 →
  idle md ld
    (set_hooks (filter (λ e, h_id e ∉ handles sc) (hooks_table (model sc)))
       (next_handle_id (model sc)) sc).
Proof.
  intros (Hm & Ht & Hd & Hmods & Hpp) Hc2 Hcc. rewrite Hc2 in Hcc.
  unfold ctl in Hcc. injection Hcc as Hmodel Hld Hh Hms Hp.
  unfold idle. cbn -[Nat.mul]. rewrite Hmodel, Hld, Hh, Hms, Hp.
  cbn -[Nat.mul]. rewrite Ht. cbn -[Nat.mul].
  split; [done|]. split; [|done].
  unfold new_handles. apply filter_new_entries.
Qed.
Lemma implicit_m_norm_served md (ld : data_loader R) (v : vector R) (s : L2Loss) :
  linear_task md ld →
  retained_shapes md = trainable_shapes md →
  idle md ld s →
  (∀ s1 : L2Loss, m_norm_loop v (batch_size ld) 0 (batches ld) s1
                  = m_norm_loop_by_examples v 0 (batches ld) s1) →
  example_offset (batches ld) ≤ vlen v →
  ∃ s', implicit_m_norm v s = (Ok (m_norm_spec md ld v), s') ∧ idle md ld s'.
Proof.
  intros (Hnohooks & Hnd & Hw & Hparams & Hlin & Hshapes) Hsh Hidle Hloop Hv.
  pose proof (idle_layout md ld s Hnd Hlin Hsh Hidle) as Hready.
  pose proof Hidle as (Hm & Ht & Hd & Hmods & Hpp).
  assert (parameters (model s) = parameters md) as Hps
    by (unfold parameters; by rewrite Hm).
  unfold implicit_m_norm.
  erewrite bind_ok by apply add_hooks_run.
  erewrite bind_ok by done.
  erewrite bind_ok
    by (apply first_parameter_device_ok; unfold parameters;
        cbn [model set_handles set_hooks set_model modules]; rewrite Hm;
        exact Hparams).
  erewrite bind_ok by done. erewrite bind_ok by done.
  erewrite bind_ok by done. erewrite bind_ok by done.
  unfold count_parameters.
  cbn [dataloader model set_cTv set_handles set_hooks set_model].
  change (parameters _) with (parameters (model s)). rewrite Hps, Hd.
  fold (count_parameters md).
  match goal with |- context [bind (m_norm_loop _ _ _ _) _ ?s1] =>
    set (s1' := s1) end.
  assert (instrumented H_savex H_compute_m_norm s1') as Hi.
  { split; [|split].
    - eexists. subst s1'. cbn -[Nat.mul]. by rewrite Ht.
    - subst s1'. cbn -[Nat.mul]. rewrite Hmods. unfold retained_layers.
      cbn. by rewrite Hm.
    - subst s1'. unfold distinct_modules. cbn -[Nat.mul]. by rewrite Hm. }
  assert ((layout md).*2 = mods s1') as Hlay.
  { subst s1'. cbn -[Nat.mul]. rewrite Hmods. apply layout_from_snd. }
  assert (Forall (λ b, Forall (linear_shapes b) (mods s1')) (batches ld)) as Hsh'.
  { subst s1'. cbn -[Nat.mul]. by rewrite Hmods. }
  assert (0 + example_offset (batches ld) ≤ vlen v) as Hbound by lia.
  destruct (m_norm_loop_run v (layout md) (batches ld) 0 s1'
              (zeros1 (count_parameters md)) (zeros1 (count_parameters md))
              Hi Hlay Hready Hsh' Hbound eq_refl (veq_refl _))
    as (s2 & out & E & Hc & Hout & Hveq).
  erewrite bind_ok by (rewrite Hloop; exact E).
  erewrite bind_ok by (by apply attr_ok).
  erewrite bind_ok by (unfold del; erewrite bind_ok by (by apply attr_ok); done).
  erewrite bind_ok by done. erewrite bind_ok by done.
  erewrite bind_ok by apply for_each_remove_run.
  eexists. split.
  - unfold ret. do 2 f_equal. by apply norm2_veq.
  - apply (idle_after md ld H_savex H_compute_m_norm s s2); [done|exact Hc|done].
Qed.

Lemma m_norm_loop_full (v : vector R) bs l : ∀ i (s : L2Loss),
  Forall (λ b, examples b = bs) l →
  m_norm_loop v bs i l s = m_norm_loop_by_examples v i l s.
Proof.
  induction l as [|b l IH]; intros i s Hall; [done|].
  apply Forall_cons in Hall as [Hb Hall].
  cbn [m_norm_loop m_norm_loop_by_examples]. rewrite Hb.
  apply bind_ext. intros _ s1. apply bind_ext. intros _ s2. by apply IH.
Qed.

(** X13. Repeated queries. [implicit_m_norm] on an object that has served any
    number of queries before, or none, returns what it returns on a fresh
    object, and leaves the object ready for the next query: what earlier
    queries left in [gy_outer], [_c] and [self.handles] is not read before
    it is overwritten. *)
Theorem implicit_m_norm_repeatable md (ld : data_loader R) (v : vector R)
    (s : L2Loss) :
  linear_task md ld →
  retained_shapes md = trainable_shapes md →
  idle md ld s →
  nominal_batches (batch_size ld) (batches ld) →
  vlen v = example_offset (batches ld) →
  ∃ s', implicit_m_norm v s = (Ok (m_norm_spec md ld v), s') ∧ idle md ld s'.
Proof.
  intros Htask Hsh Hidle Hnom Hv.
  apply implicit_m_norm_served; try done; [|lia].
  intros s1. by apply m_norm_loop_nominal.
Qed.

(** X14. A data loader that drops the incomplete last batch, or a vector [v]
    longer than the examples: with batches of [batch_size] examples each,
    [implicit_m_norm] uses the entries of [v] up to the number of examples
    served and ignores the others. *)
Theorem implicit_m_norm_ignores_tail md (ld : data_loader R) (v : vector R)
    (s : L2Loss) :
  linear_task md ld →
  retained_shapes md = trainable_shapes md →
  idle md ld s →
  full_batches ld →
  example_offset (batches ld) ≤ vlen v →
  ∃ s', implicit_m_norm v s = (Ok (m_norm_spec md ld v), s') ∧ idle md ld s'.
Proof.
  intros Htask Hsh Hidle Hfull Hv.
  apply implicit_m_norm_served; try done.
  intros s1. by apply m_norm_loop_full.
Qed.
Lemma get_matrix_served md (ld : data_loader R) (s : L2Loss) n :
  linear_task md ld →
  idle md ld s →
  covering_batches n ld →
  ∃ g s', get_matrix s = (Ok g, s') ∧ meq g (gram_spec md ld) ∧ idle md ld s'.
Proof.
  intros (Hnohooks & Hnd & Hw & Hparams & Hlin & Hshapes) Hidle (Hne & Hsizes & HN).
  pose proof (idle_positions md ld s Hnd Hlin Hidle) as Hpos.
  pose proof Hidle as (Hm & Ht & Hd & Hmods & Hpp).
  unfold get_matrix.
  erewrite bind_ok by apply add_hooks_run.
  erewrite bind_ok by done.
  erewrite bind_ok
    by (apply first_parameter_device_ok; unfold parameters;
        cbn [model set_handles set_hooks set_model modules]; rewrite Hm;
        exact Hparams).
  erewrite bind_ok by done. erewrite bind_ok by done.
  erewrite bind_ok by done. erewrite bind_ok by done.
  cbn [dataloader model set_G set_e_outer set_handles set_hooks set_model].
  rewrite Hd.
  match goal with |- context [bind (outer_loop _ _ _) _ ?s1] =>
    set (s1' := s1) end.
  assert (mods s1' = retained_layers md) as Hmods1 by (by subst s1').
  assert (gram_ready s1') as Hready.
  { split; [|by rewrite Hmods1]. split; [|split].
    - eexists. subst s1'. cbn -[Nat.mul]. by rewrite Ht.
    - rewrite Hmods1. subst s1'. unfold retained_layers. cbn -[Nat.mul].
      by rewrite Hm.
    - subst s1'. unfold distinct_modules. cbn -[Nat.mul]. by rewrite Hm. }
  assert (Forall (λ b, Forall (linear_shapes b) (mods s1')
                       ∧ examples b = n ∧ targets_size0 b = n) (batches ld)) as Hall.
  { rewrite Hmods1. apply Forall_forall. intros b Hb.
    eapply Forall_forall in Hshapes; [|exact Hb].
    eapply Forall_forall in Hsizes; [|exact Hb]. done. }
  assert (batches ld = [] ++ batches ld ++ []) as Hsplit by (by rewrite app_nil_r).
  destruct (outer_loop_run n (sampler_len ld) (batches ld) [] (batches ld) [] s1'
              (zeros2 (sampler_len ld) (sampler_len ld))
              (zeros2 (sampler_len ld) (sampler_len ld))
              Hsplit Hready Hall HN eq_refl (meq_refl _) eq_refl eq_refl eq_refl)
    as (s2 & g & E & Hc & Hg & Hmeq & Heo & Hei).
  destruct Hei as [ei Hei]; [by left|].
  erewrite bind_ok by exact E.
  erewrite bind_ok by (by apply attr_ok).
  erewrite bind_ok by (unfold del; erewrite bind_ok by (by apply attr_ok); done).
  erewrite bind_ok by (unfold del; erewrite bind_ok by (by apply attr_ok); done).
  erewrite bind_ok by (unfold del; erewrite bind_ok by (by apply attr_ok); done).
  erewrite bind_ok by done. erewrite bind_ok by done. erewrite bind_ok by done.
  erewrite bind_ok by apply for_each_remove_run.
  exists g. eexists. split; [reflexivity|]. split.
  - rewrite Hmods1 in Hmeq. exact Hmeq.
  - apply (idle_after md ld H_savex_io H_compute_flat_grad s s2); [done|exact Hc|done].
Qed.

(** X15. Repeated queries. On a data loader whose batches all have the same
    number of examples, [get_matrix] on an object that has served any number
    of queries before, or none, returns the Gram matrix of the
    specification and leaves the object ready for the next query; the
    sampler may count more examples than the batches serve. *)
Theorem get_matrix_repeatable md (ld : data_loader R) (s : L2Loss) n :
  linear_task md ld →
  idle md ld s →
  covering_batches n ld →
  ∃ g s', get_matrix s = (Ok g, s') ∧ meq g (gram_spec md ld) ∧ idle md ld s'.
Proof. intros Htask Hidle Hcov. by eapply get_matrix_served. Qed.

(** X18. The offsets. On a data loader whose batches all have the same number
    of examples, [e_outer] is, after the outer iterations over the batches
    [pre] and so at the start of the iteration that follows them, the
    number of examples of [pre]; the passes of these iterations return. *)
Theorem e_outer_counts_served_examples md (ld : data_loader R) (s : L2Loss) n
    pre rest :
  linear_task md ld →
  idle md ld s →
  covering_batches n ld →
  batches ld = pre ++ rest →
  ∃ s', outer_loop (batches ld) 0 pre (at_outer_loop s) = (Ok tt, s')
        ∧ e_outer s' = Some (example_offset pre)
        ∧ layout_side s' = layout_side s.
Proof.
  intros (Hnohooks & Hnd & Hw & Hparams & Hlin & Hshapes) Hidle (Hne & Hsizes & HN)
    Hsplit.
  pose proof (idle_positions md ld s Hnd Hlin Hidle) as Hpos.
  pose proof Hidle as (Hm & Ht & Hd & Hmods & Hpp).
  unfold at_outer_loop.
  erewrite bind_ok by apply add_hooks_run. unfold modify.
  cbn [snd dataloader model set_G set_e_outer set_handles set_hooks set_model].
  rewrite Hd.
  match goal with |- context [outer_loop _ _ _ ?s1] => set (s1' := s1) end.
  assert (mods s1' = retained_layers md) as Hmods1 by (by subst s1').
  assert (gram_ready s1') as Hready.
  { split; [|by rewrite Hmods1]. split; [|split].
    - eexists. subst s1'. cbn -[Nat.mul]. by rewrite Ht.
    - rewrite Hmods1. subst s1'. unfold retained_layers. cbn -[Nat.mul].
      by rewrite Hm.
    - subst s1'. unfold distinct_modules. cbn -[Nat.mul]. by rewrite Hm. }
  assert (Forall (λ b, Forall (linear_shapes b) (mods s1')
                       ∧ examples b = n ∧ targets_size0 b = n) (batches ld)) as Hall.
  { rewrite Hmods1. apply Forall_forall. intros b Hb.
    eapply Forall_forall in Hshapes; [|exact Hb].
    eapply Forall_forall in Hsizes; [|exact Hb]. done. }
  assert (batches ld = [] ++ pre ++ rest) as Hsplit' by done.
  destruct (outer_loop_run n (sampler_len ld) (batches ld) rest pre [] s1'
              (zeros2 (sampler_len ld) (sampler_len ld))
              (zeros2 (sampler_len ld) (sampler_len ld))
              Hsplit' Hready Hall HN eq_refl (meq_refl _) eq_refl eq_refl eq_refl)
    as (s2 & g & E & Hc & Hg & Hmeq & Heo & Hei).
  exists s2. split; [exact E|]. split; [exact Heo|].
  apply ctl_layout in Hc. rewrite Hc. by subst s1'.
Qed.
End Idle.

(** ** Padding and symmetry of the Gram matrix *)

Section GramPadding.
Context {R : Type} `{!Scalar R}.

Abbreviation L2Loss := (L2Loss R).
Abbreviation batch := (batch R).

Lemma gram_inner_zero n E ms (bo : batch) pre : ∀ ei (G' : matrix R),
  examples bo = n →
  Forall (λ b, examples b = n ∧ Forall (linear_shapes b) ms) pre →
  Forall (linear_shapes bo) ms →
  ei + example_offset pre = E →
  zero_outside (E + n) G' →
  zero_outside (E + n) (gram_inner ms bo E pre ei G').
Proof.
  induction pre as [|bi pre IH]; intros ei G' Hno Hpre Hso Hei Hz.
  - cbn [gram_inner]. intros r c Hrc.
    rewrite gram_pair_out; [by apply Hz|done|done|]. rewrite Hno. lia.
  - apply Forall_cons in Hpre as [[Hni Hsi] Hpre].
    rewrite example_offset_cons, Hni in Hei.
    cbn [gram_inner]. rewrite Hni. apply IH; try done; [lia|].
    intros r c Hrc.
    rewrite gram_mirror_out by (rewrite Hni, Hno; lia).
    rewrite gram_pair_out; [by apply Hz|done|done|]. rewrite Hni, Hno. lia.
Qed.

Lemma gram_outer_zero n ms rest : ∀ pre (G : matrix R),
  Forall (λ b, examples b = n ∧ Forall (linear_shapes b) ms) (pre ++ rest) →
  zero_outside (example_offset pre) G →
  zero_outside (example_offset (pre ++ rest)) (gram_outer ms pre rest G).
Proof.
  induction rest as [|bo rest IH]; intros pre G Hall Hz.
  - by rewrite app_nil_r.
  - cbn [gram_outer].
    assert (Forall (λ b, examples b = n ∧ Forall (linear_shapes b) ms) pre) as Hpre
      by (by apply Forall_app in Hall as [? _]).
    assert (examples bo = n ∧ Forall (linear_shapes bo) ms) as [Hno Hso].
    { apply Forall_app in Hall as [_ Hb]. by apply Forall_cons in Hb as [? _]. }
    replace (pre ++ bo :: rest) with ((pre ++ [bo]) ++ rest) in *
      by (by rewrite <- app_assoc).
    assert (example_offset (pre ++ [bo]) = example_offset pre + n) as Hoff.
    { rewrite example_offset_app, example_offset_cons, Hno.
      unfold example_offset. cbn. lia. }
    apply IH; [done|]. rewrite Hoff.
    apply gram_inner_zero; try done.
    intros r c Hrc. apply Hz. lia.
Qed.

Lemma covering_shapes md (ld : data_loader R) n :
  linear_task md ld → covering_batches n ld →
  Forall (λ b, examples b = n ∧ Forall (linear_shapes b) (retained_layers md))
         (batches ld).
Proof.
  intros (_ & _ & _ & _ & _ & Hshapes) (_ & Hsizes & _).
  apply Forall_forall. intros b Hb.
  eapply Forall_forall in Hshapes; [|exact Hb].
  eapply Forall_forall in Hsizes; [|exact Hb]. split; [apply Hsizes|done].
Qed.

Lemma gram_spec_shape md (ld : data_loader R) :
  nrows (gram_spec md ld) = sampler_len ld ∧ ncols (gram_spec md ld) = sampler_len ld.
Proof. unfold gram_spec. apply gram_outer_shape. Qed.

(** X16. A data loader that drops the incomplete last batch: the sampler counts
    more examples than the batches serve. The matrix [get_matrix] returns
    then has zeros in the rows and the columns of the examples that were
    not served. *)
Theorem get_matrix_pads_unserved md (ld : data_loader R) (s : L2Loss) n :
  linear_task md ld →
  idle md ld s →
  covering_batches n ld →
  ∃ g s', get_matrix s = (Ok g, s')
          ∧ nrows g = sampler_len ld ∧ ncols g = sampler_len ld
          ∧ ∀ r c, r < sampler_len ld → c < sampler_len ld →
              example_offset (batches ld) ≤ r ∨ example_offset (batches ld) ≤ c →
              entry g r c = rzero.
Proof.
  intros Htask Hidle Hcov.
  destruct (get_matrix_served md ld s n Htask Hidle Hcov)
    as (g & s' & E & (Hr & Hc & Hentries) & _).
  destruct (gram_spec_shape md ld) as [Hnr Hnc].
  rewrite Hnr in Hr. rewrite Hnc in Hc.
  exists g, s'. split; [done|]. split; [done|]. split; [done|].
  intros r c Hlt Hlt' Hout. rewrite Hentries by lia.
  unfold gram_spec.
  apply (gram_outer_zero n (retained_layers md) (batches ld) []); [|done|done].
  by apply covering_shapes.
Qed.
End GramPadding.

Section FullSymmetry.
Context {R : Type} `{!Scalar R}.
Hypothesis radd_0_l : ∀ x : R, radd rzero x = x.
Hypothesis rmul_comm : ∀ x y : R, rmul x y = rmul y x.

Abbreviation L2Loss := (L2Loss R).
Abbreviation batch := (batch R).

Lemma dot_comm n (f g : nat → R) : dot n f g = dot n g f.
Proof.
  unfold dot. apply foldl_seq_ext. intros acc k _. by rewrite rmul_comm.
Qed.

(** On the diagonal block a layer adds a symmetric matrix. *)
Lemma gram_layer_diag (bo : batch) E (G : matrix R) m r c :
  linear_shapes bo m →
  E ≤ r < E + examples bo → E ≤ c < E + examples bo →
  entry G r c = entry G c r →
  entry (gram_layer bo bo E E G m) r c = entry (gram_layer bo bo E E G m) c r.
Proof.
  intros (_ & HX & HG & _) Hr Hc Hsym. unfold gram_layer.
  set (X := layer_input bo (mod_id m)) in *.
  set (GY := layer_grad_output bo (mod_id m)) in *.
  assert (∀ i j, entry (matmul X (transpose X)) i j
                 = entry (matmul X (transpose X)) j i) as HXX
    by (intros i j; cbn; apply dot_comm).
  assert (∀ i j, entry (matmul GY (transpose GY)) i j
                 = entry (matmul GY (transpose GY)) j i) as HGG
    by (intros i j; cbn; apply dot_comm).
  assert (∀ i j, entry (hadamard (matmul X (transpose X))
                                  (matmul GY (transpose GY))) i j
                 = entry (hadamard (matmul X (transpose X))
                                   (matmul GY (transpose GY))) j i) as Hhad.
  { intros i j. cbn [hadamard entry].
    change (rmul (entry (matmul X (transpose X)) i j)
                 (entry (matmul GY (transpose GY)) i j)
            = rmul (entry (matmul X (transpose X)) j i)
                   (entry (matmul GY (transpose GY)) j i)).
    by rewrite HXX, HGG. }
  destruct (bias m).
  - rewrite !block_add_in by (cbn; rewrite ?HX, ?HG; lia).
    by rewrite Hsym, Hhad, HGG.
  - rewrite !block_add_in by (cbn; rewrite ?HX, ?HG; lia).
    by rewrite Hsym, Hhad.
Qed.

Lemma gram_pair_diag ms (bo : batch) E (G : matrix R) :
  Forall (linear_shapes bo) ms →
  (∀ r c, E ≤ r < E + examples bo → E ≤ c < E + examples bo →
     entry G r c = entry G c r) →
  ∀ r c, E ≤ r < E + examples bo → E ≤ c < E + examples bo →
    entry (gram_pair ms bo bo E E G) r c = entry (gram_pair ms bo bo E E G) c r.
Proof.
  intros Hs. unfold gram_pair. apply Forall_reverse in Hs. revert G.
  induction (reverse ms) as [|m l IH]; intros G Hsym; [done|].
  apply Forall_cons in Hs as [Hm Hs]. cbn [foldl]. apply IH; [done|].
  intros r c Hr Hc. apply gram_layer_diag; auto.
Qed.

Lemma gram_inner_diag n E ms (bo : batch) (G0 : matrix R) pre : ∀ ei G',
  examples bo = n →
  Forall (λ b, examples b = n ∧ Forall (linear_shapes b) ms) pre →
  Forall (linear_shapes bo) ms →
  ei + example_offset pre = E →
  inner_progress n E ei G0 G' →
  ∀ r c, E ≤ r < E + n → E ≤ c < E + n →
    entry (gram_inner ms bo E pre ei G') r c
    = entry (gram_inner ms bo E pre ei G') c r.
Proof.
  induction pre as [|bi pre IH]; intros ei G' Hno Hpre Hso Hei Hprog.
  - unfold example_offset in Hei. cbn in Hei. assert (ei = E) as -> by lia.
    destruct Hprog as (_ & J1 & _). cbn [gram_inner]. rewrite <- Hno.
    apply gram_pair_diag; [done|]. intros r c Hr Hc.
    rewrite (J1 r c), (J1 c r) by lia. done.
  - apply Forall_cons in Hpre as [[Hni Hsi] Hpre].
    rewrite example_offset_cons, Hni in Hei.
    cbn [gram_inner]. rewrite Hni.
    apply IH; try done; [lia|].
    apply inner_progress_step; try done. lia.
Qed.

Lemma gram_outer_symmetric n ms rest : ∀ pre (G : matrix R),
  Forall (λ b, examples b = n ∧ Forall (linear_shapes b) ms) (pre ++ rest) →
  zero_outside (example_offset pre) G →
  (∀ r c, entry G r c = entry G c r) →
  ∀ r c, entry (gram_outer ms pre rest G) r c = entry (gram_outer ms pre rest G) c r.
Proof.
  induction rest as [|bo rest IH]; intros pre G Hall Hzero Hsym; [done|].
  cbn [gram_outer].
  assert (Forall (λ b, examples b = n ∧ Forall (linear_shapes b) ms) pre) as Hpre
    by (by apply Forall_app in Hall as [? _]).
  assert (examples bo = n ∧ Forall (linear_shapes bo) ms) as [Hno Hso].
  { apply Forall_app in Hall as [_ Hb]. by apply Forall_cons in Hb as [? _]. }
  set (E := example_offset pre) in *.
  assert (inner_progress n E 0 G G) as Hprog.
  { split; [|split; [|split; [|split]]].
    - intros r c Hrc. apply Hzero. lia.
    - intros r c Hr Hc. apply Hzero. lia.
    - intros r c Hr Hc. apply Hzero. lia.
    - done.
    - intros r c Hr Hc. lia. }
  destruct (gram_inner_progress radd_0_l n E ms bo G pre 0 G)
    as (Hz & Hold & Hnew); try done.
  pose proof (gram_inner_diag n E ms bo G pre 0 G Hno Hpre Hso eq_refl Hprog)
    as Hdiag.
  replace (pre ++ bo :: rest) with ((pre ++ [bo]) ++ rest) in *
    by (by rewrite <- app_assoc).
  assert (example_offset (pre ++ [bo]) = E + n) as Hoff.
  { unfold E. rewrite example_offset_app, example_offset_cons, Hno.
    unfold example_offset. cbn. lia. }
  apply IH; [done|by rewrite Hoff|].
  intros r c.
  destruct (decide (E + n ≤ r ∨ E + n ≤ c)) as [Hout|Hin].
  { rewrite (Hz r c) by done. rewrite (Hz c r) by lia. done. }
  destruct (decide (r < E)) as [Hr|Hr]; destruct (decide (c < E)) as [Hc|Hc].
  - rewrite !Hold by done. apply Hsym.
  - symmetry. apply Hnew; lia.
  - apply Hnew; lia.
  - apply Hdiag; lia.
Qed.

Lemma gram_spec_symmetric md (ld : data_loader R) n :
  Forall (λ b, examples b = n ∧ Forall (linear_shapes b) (retained_layers md))
         (batches ld) →
  ∀ r c, entry (gram_spec md ld) r c = entry (gram_spec md ld) c r.
Proof.
  intros Hall. unfold gram_spec.
  by apply (gram_outer_symmetric n (retained_layers md) (batches ld) []).
Qed.

(** X17. Symmetry. With scalars whose multiplication commutes and whose zero is
    neutral on the left of the addition, and batches that all have the
    same number of examples, the matrix [get_matrix] returns is symmetric:
    the blocks below the diagonal are copies of the transposed blocks above
    it, and each diagonal block, which is accumulated and not copied, is
    symmetric by itself. *)
Theorem get_matrix_symmetric md (ld : data_loader R) (s : L2Loss) n :
  linear_task md ld →
  idle md ld s →
  covering_batches n ld →
  ∃ g s', get_matrix s = (Ok g, s')
          ∧ nrows g = sampler_len ld ∧ ncols g = sampler_len ld
          ∧ ∀ r c, r < sampler_len ld → c < sampler_len ld →
              entry g r c = entry g c r.
Proof.
  intros Htask Hidle Hcov.
  destruct (get_matrix_served md ld s n Htask Hidle Hcov)
    as (g & s' & E & (Hr & Hc & Hentries) & _).
  destruct (gram_spec_shape md ld) as [Hnr Hnc].
  rewrite Hnr in Hr. rewrite Hnc in Hc.
  exists g, s'. split; [done|]. split; [done|]. split; [done|].
  intros r c Hlt Hlt'. rewrite !Hentries by lia.
  apply (gram_spec_symmetric md ld n). by apply covering_shapes.
Qed.
End FullSymmetry.

(** ** The outer pass of [get_matrix] *)

Section OuterPass.
Context {R : Type} `{!Scalar R}.

Abbreviation L2Loss := (L2Loss R).
Abbreviation batch := (batch R).

(** X19. The pass on the outer batch, with [outerloop_switch] on, only
    caches: for every retained layer that the closure applies on the batch,
    whatever the class of the layer, [x_outer] gets the input of the layer
    and [gy_outer] its output gradient; the entries of the retained layers
    that are not applied and of other keys, [x_inner], [G] and the offsets
    are left as they are, and nothing is raised: the class of a layer is
    looked at in the inner passes only. *)
Theorem outer_pass_caches_only (b : batch) (s : L2Loss) :
  instrumented H_savex_io H_compute_flat_grad s →
  outerloop_switch s = Some true →
  ∃ s', forward_backward b s = (Ok tt, s')
        ∧ (∀ m, m ∈ mods s → applied b (mod_id m) = true →
             x_outer s' !! mod_id m = Some (layer_input b (mod_id m))
             ∧ gy_outer s' !! mod_id m = Some (layer_grad_output b (mod_id m)))
        ∧ (∀ k, k ∉ mod_id <$> mods s ∨ applied b k = false →
             x_outer s' !! k = x_outer s !! k ∧ gy_outer s' !! k = gy_outer s !! k)
        ∧ G s' = G s ∧ x_inner s' = x_inner s ∧ xs s' = xs s ∧ env s' = env s.
Proof.
  intros Hi Hsw. rewrite (outer_pass_applied_run b s Hi Hsw).
  eexists. split; [reflexivity|].
  cbn [x_outer gy_outer set_x_outer set_gy_outer].
  split; [|split; [|done]].
  - intros m Hm Ha.
    assert (m ∈ applied_modules b (mods s)) as Hin
      by (by apply list_elem_of_filter).
    split.
    + by apply save_inputs_lookup.
    + apply save_grads_lookup. by apply elem_of_reverse.
  - intros k Hk.
    assert (k ∉ mod_id <$> applied_modules b (mods s)) as Hnot.
    { intros Hin. apply list_elem_of_fmap in Hin as (m & -> & Hm).
      apply list_elem_of_filter in Hm as [Ha Hm].
      destruct Hk as [Hk|Hk]; [|congruence].
      apply Hk. apply list_elem_of_fmap. eauto. }
    rewrite save_inputs_lookup_gen, save_grads_lookup_gen.
    rewrite decide_False by done.
    rewrite decide_False; [done|].
    intros Hin. apply Hnot. apply list_elem_of_fmap in Hin as (m & -> & Hm).
    apply list_elem_of_fmap. exists m. split; [done|]. by apply elem_of_reverse.
Qed.
End OuterPass.

(** ** Registration *)

Section Registration.
Context {R : Type} `{!Scalar R}.

Abbreviation L2Loss := (L2Loss R).

Lemma hooks_of_app t1 t2 pt m :
  hooks_of (t1 ++ t2) pt m = hooks_of t1 pt m ++ hooks_of t2 pt m.
Proof. unfold hooks_of. by rewrite filter_app, fmap_app. Qed.

(** X21. [_add_hooks] registers on every retained layer one forward pre-hook
    [hook_x] and one backward hook [hook_gy], and on no other module; the
    hooks that were registered before stay and fire first. It returns two
    handles per retained layer, all different. *)
Theorem add_hooks_registers_one_pair hx hgy (s : L2Loss) :
  NoDup (mod_id <$> mods s) →
  ∃ hs s', _add_hooks hx hgy s = (Ok hs, s')
    ∧ length hs = 2 * length (mods s) ∧ NoDup hs
    ∧ ∀ m,
        hooks_of (hooks_table (model s')) forward_pre m
          = hooks_of (hooks_table (model s)) forward_pre m
              ++ (if decide (mod_id m ∈ mod_id <$> mods s) then [hx] else [])
        ∧ hooks_of (hooks_table (model s')) backward m
          = hooks_of (hooks_table (model s)) backward m
              ++ (if decide (mod_id m ∈ mod_id <$> mods s) then [hgy] else []).
Proof.
  intros Hnd. rewrite add_hooks_run. eexists _, _. split; [reflexivity|].
  unfold new_handles. split; [by rewrite length_seq|]. split; [apply NoDup_seq|].
  intros m. cbn [model set_hooks set_model hooks_table].
  rewrite !hooks_of_app.
  destruct (hooks_of_new_entries hx hgy (mods s) m (next_handle_id (model s)) Hnd)
    as [-> ->].
  done.
Qed.
End Registration.

(** ** The Gram matrix example by example *)

Section KernelFacts.
Context {R : Type} `{!Scalar R}.

Abbreviation L2Loss := (L2Loss R).
Abbreviation batch := (batch R).

(** Inside the block of the pair of batches a layer adds its term. *)
Lemma gram_layer_in (bi bo : batch) ei eo (G : matrix R) m i j :
  linear_shapes bi m → linear_shapes bo m →
  i < examples bi → j < examples bo →
  entry (gram_layer bi bo ei eo G m) (ei + i) (eo + j)
    = kernel_layer bi bo i j (entry G (ei + i) (eo + j)) m.
Proof.
  intros (_ & HXi & HGi & _) (_ & HXo & HGo & _) Hi Hj.
  unfold gram_layer, kernel_layer.
  destruct (bias m).
  - rewrite !block_add_in by (cbn; rewrite ?HXi, ?HXo, ?HGi, ?HGo; lia).
    cbn. by replace (ei + i - ei) with i by lia;
      replace (eo + j - eo) with j by lia.
  - rewrite !block_add_in by (cbn; rewrite ?HXi, ?HXo, ?HGi, ?HGo; lia).
    cbn. by replace (ei + i - ei) with i by lia;
      replace (eo + j - eo) with j by lia.
Qed.

Lemma gram_pair_in ms (bi bo : batch) ei eo (G : matrix R) i j :
  Forall (linear_shapes bi) ms → Forall (linear_shapes bo) ms →
  i < examples bi → j < examples bo →
  entry G (ei + i) (eo + j) = rzero →
  entry (gram_pair ms bi bo ei eo G) (ei + i) (eo + j) = kernel ms bi bo i j.
Proof.
  intros Hsi Hso Hi Hj. unfold gram_pair, kernel.
  apply Forall_reverse in Hsi, Hso. generalize (rzero (R:=R)). revert G Hsi Hso.
  induction (reverse ms) as [|m l IH]; intros G Hsi Hso acc Hacc; [done|].
  apply Forall_cons in Hsi as [Hmi Hsi], Hso as [Hmo Hso].
  cbn [foldl]. apply IH; [done|done|].
  rewrite gram_layer_in by done. by rewrite Hacc.
Qed.

(** The inner batches of an outer batch at offset [E] write neither above
    the rows they have reached nor into the square of the batches before
    [E]. *)
Lemma gram_inner_above n E ms (bo : batch) pre : ∀ ei (G' : matrix R) r c,
  examples bo = n →
  Forall (λ b, examples b = n ∧ Forall (linear_shapes b) ms) pre →
  Forall (linear_shapes bo) ms →
  ei + example_offset pre = E →
  r < ei ∨ (r < E ∧ c < E) →
  entry (gram_inner ms bo E pre ei G') r c = entry G' r c.
Proof.
  induction pre as [|bi pre IH]; intros ei G' r c Hno Hpre Hso Hei Hrc.
  - unfold example_offset in Hei. cbn in Hei. cbn [gram_inner].
    apply gram_pair_out; [done|done|]. lia.
  - apply Forall_cons in Hpre as [[Hni Hsi] Hpre].
    rewrite example_offset_cons, Hni in Hei.
    cbn [gram_inner]. rewrite Hni. rewrite IH; try done; [|lia..].
    rewrite gram_mirror_out by (rewrite Hni, Hno; lia).
    apply gram_pair_out; [done|done|]. rewrite Hni, Hno. lia.
Qed.

(** The column block of an outer batch: the inner batch at position [p]
    leaves the values of the kernel in its rows. *)
Lemma gram_inner_kernel n E ms (bo : batch) pre : ∀ ei (G' : matrix R),
  examples bo = n →
  Forall (λ b, examples b = n ∧ Forall (linear_shapes b) ms) pre →
  Forall (linear_shapes bo) ms →
  ei + example_offset pre = E →
  (∀ r c, ei ≤ r → E ≤ c → entry G' r c = rzero) →
  ∀ p bi i j, (pre ++ [bo]) !! p = Some bi → i < n → j < n →
    entry (gram_inner ms bo E pre ei G') (ei + p * n + i) (E + j)
      = kernel ms bi bo i j.
Proof.
  induction pre as [|b pre IH]; intros ei G' Hno Hpre Hso Hei Hz p bi i j Hp Hi Hj.
  - unfold example_offset in Hei. cbn in Hei. assert (ei = E) as -> by lia.
    destruct p as [|p]; [|done]. injection Hp as <-.
    cbn [gram_inner]. replace (E + 0 * n + i) with (E + i) by lia.
    apply gram_pair_in; [done|done|lia|lia|]. apply Hz; lia.
  - apply Forall_cons in Hpre as [[Hni Hsi] Hpre].
    rewrite example_offset_cons, Hni in Hei.
    cbn [gram_inner]. rewrite Hni.
    destruct p as [|p].
    + injection Hp as <-. replace (ei + 0 * n + i) with (ei + i) by lia.
      rewrite (gram_inner_above n); try done; [|lia..].
      rewrite gram_mirror_out by (rewrite Hni, Hno; lia).
      apply gram_pair_in; [done|done|lia|lia|]. apply Hz; lia.
    + cbn in Hp.
      replace (ei + S p * n + i) with ((ei + n) + p * n + i) by lia.
      apply IH; try done; [lia|].
      intros r c Hr Hc.
      rewrite gram_mirror_out by (rewrite Hni, Hno; lia).
      rewrite gram_pair_out; [apply Hz; lia|done|done|].
      rewrite Hni, Hno. lia.
Qed.

Lemma gram_outer_kernel n ms rest : ∀ pre (G : matrix R),
  Forall (λ b, examples b = n ∧ Forall (linear_shapes b) ms) (pre ++ rest) →
  zero_outside (example_offset pre) G →
  upper_entries n ms pre G →
  upper_entries n ms (pre ++ rest) (gram_outer ms pre rest G).
Proof.
  induction rest as [|bo rest IH]; intros pre G Hall Hzero Hup.
  - by rewrite app_nil_r.
  - cbn [gram_outer].
    assert (Forall (λ b, examples b = n ∧ Forall (linear_shapes b) ms) pre) as Hpre
      by (by apply Forall_app in Hall as [? _]).
    assert (examples bo = n ∧ Forall (linear_shapes bo) ms) as [Hno Hso].
    { apply Forall_app in Hall as [_ Hb]. by apply Forall_cons in Hb as [? _]. }
    assert (example_offset pre = length pre * n) as HE.
    { apply example_offset_uniform. eapply Forall_impl; [exact Hpre|]. by intros b [? _]. }
    replace (pre ++ bo :: rest) with ((pre ++ [bo]) ++ rest) in *
      by (by rewrite <- app_assoc).
    assert (example_offset (pre ++ [bo]) = example_offset pre + n) as Hoff.
    { rewrite example_offset_app, example_offset_cons, Hno.
      unfold example_offset. cbn. lia. }
    apply IH; [done| |].
    + rewrite Hoff. apply gram_inner_zero; try done.
      intros r c Hrc. apply Hzero. lia.
    + intros p q bi bo' i j Hpq Hp Hq Hi Hj.
      destruct (decide (q < length pre)) as [Hlt|Hge].
      * rewrite lookup_app_l in Hp, Hq by lia.
        rewrite (gram_inner_above n); try done.
        -- by apply (Hup p q).
        -- right. rewrite HE. nia.
      * assert (q = length pre) as ->.
        { apply lookup_lt_Some in Hq. rewrite length_app in Hq. cbn in Hq. lia. }
        rewrite lookup_app_r, Nat.sub_diag in Hq by lia. injection Hq as <-.
        rewrite <- HE.
        apply (gram_inner_kernel n (example_offset pre) ms bo pre 0 G); try done.
        intros r c _ Hc. apply Hzero. lia.
Qed.

Lemma gram_spec_kernel md (ld : data_loader R) n :
  Forall (λ b, examples b = n ∧ Forall (linear_shapes b) (retained_layers md))
         (batches ld) →
  upper_entries n (retained_layers md) (batches ld) (gram_spec md ld).
Proof.
  intros Hall. unfold gram_spec.
  apply (gram_outer_kernel n (retained_layers md) (batches ld) []); [done|done|].
  intros p q bi bo i j _ Hp. by rewrite lookup_nil in Hp.
Qed.

(** X20. Example by example. With batches that all have [n] examples, the entry
    of the matrix [get_matrix] returns for the example [i] of the batch at
    position [p] and the example [j] of the batch at position [q], [p] not
    after [q], is the sum over the retained layers of the product of the
    inner product of the two inputs and the inner product of the two output
    gradients, plus the latter once more for a layer with a bias; it does
    not depend on how the examples are grouped into batches otherwise. *)
Theorem get_matrix_entries md (ld : data_loader R) (s : L2Loss) n :
  linear_task md ld →
  idle md ld s →
  covering_batches n ld →
  ∃ g s', get_matrix s = (Ok g, s')
          ∧ ∀ p q bi bo i j,
              p ≤ q → batches ld !! p = Some bi → batches ld !! q = Some bo →
              i < n → j < n →
              entry g (p * n + i) (q * n + j)
                = kernel (retained_layers md) bi bo i j.
Proof.
  intros Htask Hidle Hcov.
  destruct (get_matrix_served md ld s n Htask Hidle Hcov)
    as (g & s' & E & (Hr & Hc & Hentries) & _).
  destruct (gram_spec_shape md ld) as [Hnr Hnc].
  rewrite Hnr in Hr. rewrite Hnc in Hc.
  pose proof (covering_shapes md ld n Htask Hcov) as Hall.
  destruct Hcov as (_ & _ & HN).
  assert (example_offset (batches ld) = length (batches ld) * n) as Hoff.
  { apply example_offset_uniform. eapply Forall_impl; [exact Hall|]. by intros b [? _]. }
  exists g, s'. split; [done|].
  intros p q bi bo i j Hpq Hp Hq Hi Hj.
  pose proof (lookup_lt_Some _ _ _ Hp) as Hpl.
  pose proof (lookup_lt_Some _ _ _ Hq) as Hql.
  rewrite Hentries by nia.
  by apply (gram_spec_kernel md ld n Hall p q).
Qed.
End KernelFacts.

(** ** The statements of the last sections at concrete inputs *)

Lemma get_matrix_empty_loader_witness :
  ∃ s', get_matrix (constructed ex_model ex_loader_empty) = (Raise AttributeError, s')
        ∧ G s' = Some (zeros2 0 0)
        ∧ handles s' = [0; 1]
        ∧ ∀ h, h ∈ [0; 1] → h ∈ live s'.
Proof.
  apply (get_matrix_empty_loader (constructed ex_model ex_loader_empty)).
  - vm_compute. discriminate.
  - reflexivity.
  - reflexivity.
Defined.

Lemma implicit_m_norm_empty_loader_witness :
  ∃ s', implicit_m_norm (of_list [7; 8; 9]%Z) (constructed ex_model ex_loader_empty)
          = (Ok 0%Z, s')
        ∧ _cTv s' = None ∧ xs s' = ∅
        ∧ ∀ h, h ∈ [0; 1] → h ∉ live s'.
Proof.
  assert (parameters (model (constructed ex_model ex_loader_empty)) ≠ []) as Hp
    by (vm_compute; discriminate).
  exact (implicit_m_norm_empty_loader (of_list [7; 8; 9]%Z)
           (constructed ex_model ex_loader_empty) Hp eq_refl).
Defined.

Lemma queries_need_a_parameter_witness :
  ∃ s, L2Loss_new ex_bare_model ex_loader_single = Ok s
       ∧ mods s = []
       ∧ get_matrix s = (Raise StopIteration, s)
       ∧ implicit_m_norm (of_list [1; 1]%Z) s = (Raise StopIteration, s).
Proof.
  apply (queries_need_a_parameter ex_bare_model ex_loader_single (of_list [1; 1]%Z)).
  - unfold layers_have_weight. compute_done.
  - reflexivity.
Defined.

Lemma construction_rejects_frozen_layer_witness :
  L2Loss_new ex_frozen_model ex_loader_single = Raise AssertionError.
Proof.
  refine (proj2 (proj2 (construction_rejects_frozen_layer ex_frozen_model
                          ex_loader_single _)) _).
  - unfold owned_by_layers. split; compute_done.
  - vm_compute. left. reflexivity.
Defined.

Lemma construction_needs_weight_witness :
  L2Loss_new ex_weightless_model ex_loader_single = Raise AttributeError.
Proof.
  apply (construction_needs_weight ex_weightless_model ex_loader_single).
  right. left. split; reflexivity.
Defined.

Lemma layout_slices_disjoint_witness :
  (∃ a b, p_pos (constructed ex_mlp ex_loader_single) !! mod_id ex_linear = Some a
          ∧ p_pos (constructed ex_mlp ex_loader_single) !! mod_id ex_linear2 = Some b
          ∧ a + layer_numel ex_linear ≤ b)
  ∧ flat_offset (retained_layers ex_mlp) = count_parameters ex_mlp.
Proof.
  assert (layers_have_weight ex_mlp) as Hw
    by (unfold layers_have_weight; compute_done).
  assert (distinct_modules ex_mlp) as Hnd
    by (unfold distinct_modules; compute_done).
  assert (L2Loss_new ex_mlp ex_loader_single
          = Ok (constructed ex_mlp ex_loader_single)) as Hnew
    by (vm_compute; reflexivity).
  destruct (layout_slices_disjoint ex_mlp ex_loader_single
              (constructed ex_mlp ex_loader_single) Hw Hnd Hnew) as (_ & H2 & H3).
  split.
  - exact (H2 [] ex_linear [] ex_linear2 [] eq_refl).
  - apply H3. compute_done.
Defined.

Lemma get_matrix_returns_square_witness :
  ∃ g s', get_matrix (constructed ex_model ex_loader_ragged) = (Ok g, s')
          ∧ nrows g = 3 ∧ ncols g = 3.
Proof.
  destruct (get_matrix (constructed ex_model ex_loader_ragged)) as [[g|e] s'] eqn:E.
  - exists g, s'. split; [reflexivity|].
    exact (get_matrix_returns_square (constructed ex_model ex_loader_ragged) g s' E).
  - exfalso.
    assert (match (get_matrix (constructed ex_model ex_loader_ragged)).1 with
            | Ok _ => True
            | Raise _ => False
            end) as Hok by (vm_compute; exact I).
    rewrite E in Hok. exact Hok.
Defined.

Lemma get_matrix_resets_on_return_witness :
  ∃ g s', get_matrix (constructed ex_model ex_loader_single) = (Ok g, s')
          ∧ G s' = None ∧ e_inner s' = None ∧ e_outer s' = None
          ∧ x_inner s' = ∅ ∧ x_outer s' = ∅
          ∧ attr G s' = (Raise AttributeError, s').
Proof.
  destruct (get_matrix (constructed ex_model ex_loader_single)) as [[g|e] s'] eqn:E.
  - exists g, s'. split; [reflexivity|].
    exact (get_matrix_resets_on_return (constructed ex_model ex_loader_single) g s' E).
  - exfalso.
    assert (match (get_matrix (constructed ex_model ex_loader_single)).1 with
            | Ok _ => True
            | Raise _ => False
            end) as Hok by (vm_compute; exact I).
    rewrite E in Hok. exact Hok.
Defined.

Lemma implicit_m_norm_resets_on_return_witness :
  ∃ r s', implicit_m_norm (of_list [10; 20; 30]%Z)
            (constructed ex_model ex_loader_ragged) = (Ok r, s')
          ∧ _cTv s' = None ∧ xs s' = ∅
          ∧ (to_list <$> _c s') = Some [30]%Z.
Proof.
  destruct (implicit_m_norm (of_list [10; 20; 30]%Z)
              (constructed ex_model ex_loader_ragged)) as [[r|e] s'] eqn:E.
  - exists r, s'. split; [reflexivity|].
    destruct (implicit_m_norm_resets_on_return (of_list [10; 20; 30]%Z)
                (constructed ex_model ex_loader_ragged) r s' E) as (H1 & H2 & H3).
    split; [exact H1|]. split; [exact H2|].
    rewrite H3 by discriminate. reflexivity.
  - exfalso.
    assert (match (implicit_m_norm (of_list [10; 20; 30]%Z)
                     (constructed ex_model ex_loader_ragged)).1 with
            | Ok _ => True
            | Raise _ => False
            end) as Hok by (vm_compute; exact I).
    rewrite E in Hok. exact Hok.
Defined.

Lemma outer_pass_caches_only_witness :
  ∃ s', forward_backward ex_batch_skip ex_outer_state = (Ok tt, s')
        ∧ (x_outer s' !! mod_id ex_linear
             = Some (layer_input ex_batch_skip (mod_id ex_linear))
           ∧ gy_outer s' !! mod_id ex_linear
             = Some (layer_grad_output ex_batch_skip (mod_id ex_linear)))
        ∧ (x_outer s' !! mod_id ex_conv2 = x_outer ex_outer_state !! mod_id ex_conv2
           ∧ gy_outer s' !! mod_id ex_conv2
             = gy_outer ex_outer_state !! mod_id ex_conv2)
        ∧ G s' = G ex_outer_state.
Proof.
  assert (instrumented H_savex_io H_compute_flat_grad ex_outer_state) as Hi.
  { split; [|split].
    - exists 0. reflexivity.
    - reflexivity.
    - unfold distinct_modules. compute_done. }
  destruct (outer_pass_caches_only ex_batch_skip ex_outer_state Hi eq_refl)
    as (s' & E & Hin & Hout & HG & _).
  exists s'. split; [exact E|]. split; [|split; [|exact HG]].
  - apply Hin; [|reflexivity]. vm_compute. left.
  - apply Hout. right. reflexivity.
Defined.

(** A [Conv2d] layer that the closure never applies: the layer is retained,
    its hooks are registered and never called, and the queries return what
    the [Linear] layer alone gives. *)
Lemma conv2d_never_applied_returns :
  to_lists <$> (get_matrix (constructed ex_mixed_model ex_loader_skip)).1
    = Ok [[6; 24]; [24; 104]]%Z
  ∧ mod_id <$> mods (constructed ex_mixed_model ex_loader_skip) = [1; 2]
  ∧ (get_matrix (constructed ex_mixed_model ex_loader_single)).1
    = Raise NotImplementedError.
Proof. repeat split; vm_compute; reflexivity. Qed.

Lemma implicit_m_norm_keeps_gram_side_witness :
  gram_side (implicit_m_norm (of_list [1; 1]%Z) ex_used).2 = gram_side ex_used.
Proof.
  apply (implicit_m_norm_keeps_gram_side (of_list [1; 1]%Z) ex_used).
  vm_compute. constructor.
Defined.

Lemma get_matrix_keeps_m_norm_side_witness :
  m_norm_side (get_matrix ex_used_m).2 = m_norm_side ex_used_m.
Proof.
  apply (get_matrix_keeps_m_norm_side ex_used_m).
  vm_compute. constructor.
Defined.

Ltac ex_task :=
  unfold linear_task; repeat split; try compute_done;
  repeat constructor; vm_compute; repeat split; lia.

Ltac ex_idle := repeat split; vm_compute; reflexivity.

Lemma implicit_m_norm_repeatable_witness :
  ∃ s', implicit_m_norm (of_list [1; 1; 1]%Z) ex_used_ragged
          = (Ok (m_norm_spec ex_model ex_loader_ragged (of_list [1; 1; 1]%Z)), s')
        ∧ idle ex_model ex_loader_ragged s'.
Proof.
  apply (implicit_m_norm_repeatable ex_model ex_loader_ragged
           (of_list [1; 1; 1]%Z) ex_used_ragged).
  - ex_task.
  - vm_compute. reflexivity.
  - ex_idle.
  - cbn. unfold examples. cbn. lia.
  - reflexivity.
Defined.

Lemma implicit_m_norm_ignores_tail_witness :
  ∃ s', implicit_m_norm (of_list [1; 1; 5]%Z) (constructed ex_model ex_loader_dropped)
          = (Ok (m_norm_spec ex_model ex_loader_dropped (of_list [1; 1; 5]%Z)), s')
        ∧ idle ex_model ex_loader_dropped s'.
Proof.
  apply (implicit_m_norm_ignores_tail ex_model ex_loader_dropped
           (of_list [1; 1; 5]%Z) (constructed ex_model ex_loader_dropped)).
  - ex_task.
  - vm_compute. reflexivity.
  - ex_idle.
  - repeat constructor.
  - vm_compute. lia.
Defined.

Lemma get_matrix_repeatable_witness :
  ∃ g s', get_matrix ex_used_uniform = (Ok g, s')
          ∧ meq g (gram_spec ex_model ex_loader_uniform)
          ∧ idle ex_model ex_loader_uniform s'.
Proof.
  apply (get_matrix_repeatable ex_model ex_loader_uniform ex_used_uniform 2).
  - ex_task.
  - ex_idle.
  - split; [discriminate|]. split; [repeat constructor|vm_compute; lia].
Defined.

Lemma get_matrix_pads_unserved_witness :
  ∃ g s', get_matrix (constructed ex_model ex_loader_dropped) = (Ok g, s')
          ∧ nrows g = 3 ∧ ncols g = 3
          ∧ ∀ r c, r < 3 → c < 3 → 2 ≤ r ∨ 2 ≤ c → entry g r c = 0%Z.
Proof.
  assert (linear_task ex_model ex_loader_dropped) as Htask by ex_task.
  assert (idle ex_model ex_loader_dropped (constructed ex_model ex_loader_dropped))
    as Hidle by ex_idle.
  assert (covering_batches 2 ex_loader_dropped) as Hcov
    by (split; [discriminate|]; split; [repeat constructor|vm_compute; lia]).
  exact (get_matrix_pads_unserved ex_model ex_loader_dropped
           (constructed ex_model ex_loader_dropped) 2 Htask Hidle Hcov).
Defined.

Lemma get_matrix_symmetric_witness :
  ∃ g s', get_matrix (constructed ex_model ex_loader_uniform) = (Ok g, s')
          ∧ nrows g = 4 ∧ ncols g = 4
          ∧ ∀ r c, r < 4 → c < 4 → entry g r c = entry g c r.
Proof.
  assert (linear_task ex_model ex_loader_uniform) as Htask by ex_task.
  assert (idle ex_model ex_loader_uniform (constructed ex_model ex_loader_uniform))
    as Hidle by ex_idle.
  assert (covering_batches 2 ex_loader_uniform) as Hcov
    by (split; [discriminate|]; split; [repeat constructor|vm_compute; lia]).
  exact (get_matrix_symmetric Z.add_0_l Z.mul_comm ex_model ex_loader_uniform
           (constructed ex_model ex_loader_uniform) 2 Htask Hidle Hcov).
Defined.

Lemma e_outer_counts_served_examples_witness :
  ∃ s', outer_loop (batches ex_loader_uniform) 0 [ex_batch_a]
          (at_outer_loop (constructed ex_model ex_loader_uniform)) = (Ok tt, s')
        ∧ e_outer s' = Some 2
        ∧ layout_side s' = layout_side (constructed ex_model ex_loader_uniform).
Proof.
  assert (linear_task ex_model ex_loader_uniform) as Htask by ex_task.
  assert (idle ex_model ex_loader_uniform (constructed ex_model ex_loader_uniform))
    as Hidle by ex_idle.
  assert (covering_batches 2 ex_loader_uniform) as Hcov
    by (split; [discriminate|]; split; [repeat constructor|vm_compute; lia]).
  exact (e_outer_counts_served_examples ex_model ex_loader_uniform
           (constructed ex_model ex_loader_uniform) 2 [ex_batch_a] [ex_batch_c]
           Htask Hidle Hcov eq_refl).
Defined.

Lemma get_matrix_entries_witness :
  (∃ g s', get_matrix (constructed ex_model ex_loader_uniform) = (Ok g, s')
           ∧ ∀ p q bi bo i j,
               p ≤ q → batches ex_loader_uniform !! p = Some bi →
               batches ex_loader_uniform !! q = Some bo → i < 2 → j < 2 →
               entry g (p * 2 + i) (q * 2 + j)
                 = kernel (retained_layers ex_model) bi bo i j)
  ∧ kernel (retained_layers ex_model) ex_batch_a ex_batch_c 1 0 = 240%Z.
Proof.
  assert (linear_task ex_model ex_loader_uniform) as Htask by ex_task.
  assert (idle ex_model ex_loader_uniform (constructed ex_model ex_loader_uniform))
    as Hidle by ex_idle.
  assert (covering_batches 2 ex_loader_uniform) as Hcov
    by (split; [discriminate|]; split; [repeat constructor|vm_compute; lia]).
  split; [|vm_compute; reflexivity].
  exact (get_matrix_entries ex_model ex_loader_uniform
           (constructed ex_model ex_loader_uniform) 2 Htask Hidle Hcov).
Defined.

Lemma add_hooks_registers_one_pair_witness :
  ∃ hs s', _add_hooks H_savex H_compute_m_norm (constructed ex_mlp ex_loader_single)
             = (Ok hs, s')
    ∧ length hs = 4 ∧ NoDup hs
    ∧ ∀ m,
        hooks_of (hooks_table (model s')) forward_pre m
          = [] ++ (if decide (mod_id m ∈ [1; 2]) then [H_savex] else [])
        ∧ hooks_of (hooks_table (model s')) backward m
          = [] ++ (if decide (mod_id m ∈ [1; 2]) then [H_compute_m_norm] else []).
Proof.
  assert (NoDup (mod_id <$> mods (constructed ex_mlp ex_loader_single))) as Hnd
    by compute_done.
  exact (add_hooks_registers_one_pair H_savex H_compute_m_norm
           (constructed ex_mlp ex_loader_single) Hnd).
Defined.

(** ** A vector that is too short *)

Section ShortVector.
Context {R : Type} `{!Scalar R}.

Abbreviation M := (M R).
Abbreviation L2Loss := (L2Loss R).
Abbreviation batch := (batch R).

Lemma bind_raise {A B} (m : M A) (k : A → M B) s e s1 :
  m s = (Raise e, s1) → bind m k s = (Raise e, s1).
Proof. intros E. unfold bind. by rewrite E. Qed.

(** A slice of [k] entries against [b] rows of input, [k] smaller than [b]
    and not 1: the product [c.view(-1, 1) * xs] does not broadcast, or, for
    a single row and an empty slice, the matrix product that follows does
    not fit. *)
Lemma short_slice_product (c : vector R) (X GY : matrix R) :
  vlen c < nrows X → vlen c ≠ 1 → nrows GY = nrows X →
  (cx <~ mul (view_col c) X ;;
   g <~ mm (transpose GY) cx ;;
   Ok (view_flat g)) = Raise RuntimeError.
Proof.
  intros Hlt Hne HG. unfold mul, broadcast_dim. cbn [nrows ncols view_col].
  rewrite (proj2 (Nat.eqb_neq (vlen c) (nrows X))) by lia.
  rewrite (proj2 (Nat.eqb_neq (vlen c) 1)) by lia.
  destruct (nrows X =? 1) eqn:E1; [|done].
  apply Nat.eqb_eq in E1.
  assert (∃ n, (if 1 =? ncols X then Some 1
                else if 1 =? 1 then Some (ncols X)
                     else if ncols X =? 1 then Some 1 else None) = Some n)
    as [n ->] by (destruct (1 =? ncols X); eauto).
  cbn [obind]. unfold mm. cbn [nrows ncols transpose].
  rewrite (proj2 (Nat.eqb_neq (nrows GY) (vlen c))) by lia. done.
Qed.

Lemma hook_compute_m_norm_short m (b : batch) c (s : L2Loss) out :
  is_Linear m = true →
  xs s !! mod_id m = Some (layer_input b (mod_id m)) →
  is_Some (p_pos s !! mod_id m) →
  linear_shapes b m →
  _c s = Some c → vlen c < examples b → vlen c ≠ 1 →
  _cTv s = Some out →
  call_hook b m H_compute_m_norm s = (Raise RuntimeError, s).
Proof.
  intros Hlin Hxs [start Hpos] (_ & HX & HG & Hw & _) Hc Hlt Hne Hout.
  destruct (weight m) as [w|] eqn:Hwm; [|done].
  cbn [call_hook]. unfold _hook_compute_m_norm.
  erewrite bind_ok by (by apply item_ok).
  erewrite bind_ok by (by apply item_ok).
  rewrite Hlin, Hwm.
  erewrite bind_ok by done.
  erewrite bind_ok by (by apply attr_ok).
  apply bind_raise. unfold cTv_iadd.
  erewrite bind_ok by (by apply attr_ok).
  apply bind_raise. unfold lift.
  rewrite short_slice_product; [done|lia|done|congruence].
Qed.

(** X22. A vector [v] with fewer entries than the first batch has examples, and
    not exactly one entry: the first backward hook of [implicit_m_norm]
    cannot multiply the slice of [v] with the layer's input, the query
    raises [RuntimeError], and the hooks it registered stay registered. *)
Theorem implicit_m_norm_short_vector md (ld : data_loader R) (v : vector R)
    (s : L2Loss) b rest :
  linear_task md ld →
  idle md ld s →
  retained_layers md ≠ [] →
  batches ld = b :: rest →
  examples b ≤ batch_size ld →
  vlen v < examples b → vlen v ≠ 1 →
  ∃ s', implicit_m_norm v s = (Raise RuntimeError, s')
        ∧ ∀ h, h ∈ new_handles s → h ∈ live s'.
Proof.
  intros (Hnohooks & Hnd & Hw & Hparams & Hlin & Hshapes) Hidle Hsome Hb Hbs Hlt Hne.
  pose proof (idle_positions md ld s Hnd Hlin Hidle) as Hpos.
  pose proof Hidle as (Hm & Ht & Hd & Hmods & Hpp).
  unfold implicit_m_norm.
  erewrite bind_ok by apply add_hooks_run.
  erewrite bind_ok by done.
  erewrite bind_ok
    by (apply first_parameter_device_ok; unfold parameters;
        cbn [model set_handles set_hooks set_model modules]; rewrite Hm;
        exact Hparams).
  erewrite bind_ok by done. erewrite bind_ok by done.
  erewrite bind_ok by done. erewrite bind_ok by done.
  cbn [dataloader model set_cTv set_handles set_hooks set_model].
  rewrite Hd, Hb. cbn [m_norm_loop].
  match goal with |- context [bind (bind (modify _) _) _ ?s1] =>
    set (s1' := s1) end.
  assert (instrumented H_savex H_compute_m_norm s1') as Hi.
  { split; [|split].
    - eexists. subst s1'. cbn -[Nat.mul]. by rewrite Ht.
    - subst s1'. cbn -[Nat.mul]. rewrite Hmods. unfold retained_layers.
      cbn. by rewrite Hm.
    - subst s1'. unfold distinct_modules. cbn -[Nat.mul]. by rewrite Hm. }
  assert (∀ h, h ∈ new_handles s → h ∈ live s1') as Hlive.
  { intros h Hin. unfold live. subst s1'. cbn -[Nat.mul].
    rewrite fmap_app, new_entries_ids. apply elem_of_app. by right. }
  set (c := vslice v 0 (0 + batch_size ld)).
  assert (vlen c = vlen v) as Hc by (subst c; cbn; lia).
  destruct (reverse (retained_layers md)) as [|m l] eqn:Hrev.
  { apply (f_equal reverse) in Hrev. rewrite reverse_involutive in Hrev. done. }
  assert (m ∈ retained_layers md) as Hmin.
  { apply elem_of_reverse. rewrite Hrev. left. }
  eexists. split.
  - apply bind_raise. erewrite bind_ok by done.
    apply bind_raise.
    assert (Forall (linear_shapes b) (retained_layers md)) as Hsb
      by (rewrite Hb in Hshapes; by apply Forall_cons in Hshapes as [? _]).
    rewrite (forward_backward_all_applied H_savex H_compute_m_norm);
      [|by apply (instrumented_ctl _ _ s1')
       |cbn [mods set_c]; change (mods s1') with (mods s); rewrite Hmods;
        eapply Forall_impl; [exact Hsb|]; by intros m' (? & _)].
    erewrite bind_ok by apply forward_savex_run.
    cbn [mods set_xs set_c]. change (mods s1') with (mods s). rewrite Hmods, Hrev.
    cbn [for_each]. apply bind_raise.
    eapply Forall_forall in Hpos as [Hl Hp]; [|exact Hmin].
    eapply (hook_compute_m_norm_short m b c); try done.
    + cbn [xs set_xs]. by apply save_inputs_lookup.
    + by eapply Forall_forall in Hsb.
    + lia.
    + lia.
  - exact Hlive.
Qed.
End ShortVector.

Lemma implicit_m_norm_short_vector_witness :
  ∃ s', implicit_m_norm (of_list []) (constructed ex_model ex_loader_single)
          = (Raise RuntimeError, s')
        ∧ ∀ h, h ∈ [0; 1] → h ∈ live s'.
Proof.
  assert (linear_task ex_model ex_loader_single) as Htask by ex_task.
  assert (idle ex_model ex_loader_single (constructed ex_model ex_loader_single))
    as Hidle by ex_idle.
  assert (retained_layers ex_model ≠ []) as Hsome by (vm_compute; discriminate).
  assert (examples ex_batch_a ≤ batch_size ex_loader_single) as Hbs
    by (vm_compute; lia).
  assert (vlen (of_list []) < examples ex_batch_a) as Hlt by (vm_compute; lia).
  assert (vlen (of_list []) ≠ 1) as Hne by (vm_compute; discriminate).
  exact (implicit_m_norm_short_vector ex_model ex_loader_single (of_list [])
           (constructed ex_model ex_loader_single) ex_batch_a []
           Htask Hidle Hsome eq_refl Hbs Hlt Hne).
Defined.

(** ** The recorded offsets and the positions of the parameters *)

Section Positions.
Context {R : Type} `{!Scalar R}.

Abbreviation L2Loss := (L2Loss R).





End Positions.


